(** * Hash maps with open addressing and with separate chaining

    A shallow embedding of [hash-map-oa.py] and [hash-map-sc.py]:
    the primality helpers shared by both classes, the two [HashMap]
    classes, and the [find_mode] client of the chaining map.

    Python integers are modelled by [Z]; [%] is [Z.modulo] (both take
    the sign of the divisor) and [/] on integers is exact rational
    division in [Q].  Python's [float] result of [size / capacity]
    agrees with the rational one in every comparison against [0.5] and
    [1.0] as long as the capacity stays below [2^53]. *)

From Stdlib Require Import ZArith QArith Znumtheory Lia.
From stdpp Require Import base tactics option list.

Local Open Scope Z_scope.

(** ** Bounded [while] loops

    A [while] loop is a step function that either continues with a new
    loop state or leaves the loop with a result.  [iterate] runs at most
    [p] steps, with [p] in binary so that large bounds stay cheap;
    [run] is its unary specification. *)

Section Loops.
Context {A B : Type}.
Variable step : A -> A + B.

Fixpoint run (n : nat) (a : A) : A + B :=
  match n with
  | O => inl a
  | S n' => match step a with
            | inl a' => run n' a'
            | inr b => inr b
            end
  end.

Fixpoint iterate (p : positive) (a : A) : A + B :=
  match p with
  | xH => step a
  | xO p' => match iterate p' a with
             | inl a' => iterate p' a'
             | inr b => inr b
             end
  | xI p' => match step a with
             | inl a' => match iterate p' a' with
                         | inl a'' => iterate p' a''
                         | inr b => inr b
                         end
             | inr b => inr b
             end
  end.

End Loops.

(** ** The primality helpers [_is_prime] and [_next_prime]

    Both classes carry the same two methods, line for line. *)

Module Primality.

(** One round of [while factor ** 2 <= capacity]. *)
Definition is_prime_step (capacity factor : Z) : Z + bool :=
  if factor ^ 2 <=? capacity then
    if capacity mod factor =? 0 then inr false
    else inl (factor + 2)
  else inr true.

Definition is_prime_loop (capacity factor : Z) : bool :=
  match iterate (is_prime_step capacity) (Z.to_pos capacity) factor with
  | inr b => b
  | inl _ => true
  end.

Definition _is_prime (capacity : Z) : bool :=
  if (capacity =? 2) || (capacity =? 3) then true
  else if (capacity =? 1) || (capacity mod 2 =? 0) then false
  else is_prime_loop capacity 3.

(** [n!] in binary, the bound on the search for the next prime. *)
Fixpoint pos_fact (n : nat) : positive :=
  match n with
  | O => 1%positive
  | S n' => (Pos.of_succ_nat n' * pos_fact n')%positive
  end.

(** One round of [while not self._is_prime(capacity)]. *)
Definition next_prime_step (capacity : Z) : Z + Z :=
  if negb (_is_prime capacity) then inl (capacity + 2)
  else inr capacity.

Definition next_prime_loop (capacity : Z) : Z :=
  match iterate next_prime_step
          (pos_fact (Z.to_nat capacity) + 2)%positive capacity with
  | inr p => p
  | inl c => c
  end.

Definition _next_prime (capacity : Z) : Z :=
  let capacity := if capacity mod 2 =? 0 then capacity + 1 else capacity in
  next_prime_loop capacity.

End Primality.

(** ** Exceptions and the state monad of a method call

    A method runs on the object [self]; what it has written to [self]
    stays written when it raises. *)

Inductive exn : Type :=
| DynamicArrayException
| ZeroDivisionError
| TypeError
| AttributeError
| StopIteration.

#[global] Instance exn_eq_dec : EqDecision exn.
Proof. solve_decision. Defined.

(** What a call of a collaborator that keeps no state returns. *)
Inductive result (A : Type) : Type :=
| Ok (a : A)
| Err (e : exn).

Arguments Ok {A} a.
Arguments Err {A} e.

(** What a method call does: it returns a value, or raises, in both
    cases leaving [self] in some state, or it runs out of fuel. *)
Inductive outcome (St A : Type) : Type :=
| Return (a : A) (s : St)
| Raise (e : exn) (s : St)
| OutOfFuel.

Arguments Return {St A} a s.
Arguments Raise {St A} e s.
Arguments OutOfFuel {St A}.

Definition M (St A : Type) : Type := St -> outcome St A.

Section Monad.
Context {St : Type}.

Definition ret {A} (a : A) : M St A := fun s => Return a s.

Definition bind {A B} (c : M St A) (k : A -> M St B) : M St B :=
  fun s => match c s with
           | Return a s' => k a s'
           | Raise e s' => Raise e s'
           | OutOfFuel => OutOfFuel
           end.

Definition raise {A} (e : exn) : M St A := fun s => Raise e s.

Definition out_of_fuel {A} : M St A := fun _ => OutOfFuel.

Definition get_self : M St St := fun s => Return s s.

Definition set_self (s : St) : M St unit := fun _ => Return tt s.

(** The result of a call that does not touch [self]. *)
Definition lift {A} (r : result A) : M St A :=
  fun s => match r with
           | Ok a => Return a s
           | Err e => Raise e s
           end.

(** [try: c  except e: handler]. *)
Definition try_except {A} (c : M St A) (e : exn) (handler : M St A)
  : M St A :=
  fun s => match c s with
           | Raise e' s' => if decide (e' = e) then handler s'
                            else Raise e' s'
           | r => r
           end.

(** The state in which a call leaves [self], if the call ends. *)
Definition final {A} (o : outcome St A) : option St :=
  match o with
  | Return _ s => Some s
  | Raise _ s => Some s
  | OutOfFuel => None
  end.

End Monad.

Declare Scope monad_scope.
Delimit Scope monad_scope with monad.
Notation "x <- c1 ;; c2" := (bind c1 (fun x => c2))
  (at level 100, c1 at next level, right associativity) : monad_scope.
Notation "c1 ;; c2" := (bind c1 (fun _ => c2))
  (at level 100, right associativity) : monad_scope.
Local Open Scope monad_scope.

Section MonadLoops.
Context {St : Type}.

(** A [while] loop whose body works on [self]: at most [n] rounds. *)
Fixpoint while {A B} (n : nat) (body : A -> M St (A + B)) (a : A) : M St B :=
  match n with
  | O => out_of_fuel
  | S n' => r <- body a ;;
            match r with
            | inl a' => while n' body a'
            | inr b => ret b
            end
  end.

(** [for x in l: body], threading the loop's local variables. *)
Fixpoint for_each {A B} (l : list A) (body : A -> B -> M St B) (b : B)
  : M St B :=
  match l with
  | [] => ret b
  | x :: l' => b' <- body x b ;; for_each l' body b'
  end.

End MonadLoops.

(** [range(n)]: empty when [n <= 0]. *)
Definition range (n : Z) : list Z := seqZ 0 n.

(** ** The collaborators from [underlying-data-structures] *)

(** Modelled from the spec: the [DynamicArray] class, which is imported
    and not part of the sources at hand.  A growable array with
    bounds-checked index get and set (an index outside [0, length)
    raises [DynamicArrayException]), [append] and [length]. *)
Module DynamicArray.
Section DynamicArray.
Context {A : Type}.

Definition DynamicArray : Type := list A.

Definition new : DynamicArray := [].

Definition length (da : DynamicArray) : Z := Z.of_nat (List.length da).

Definition in_bounds (da : DynamicArray) (index : Z) : bool :=
  (0 <=? index) && (index <? length da).

Definition getitem (da : DynamicArray) (index : Z) : result A :=
  if in_bounds da index then
    match da !! Z.to_nat index with
    | Some x => Ok x
    | None => Err DynamicArrayException
    end
  else Err DynamicArrayException.

Definition setitem (da : DynamicArray) (index : Z) (x : A)
  : result DynamicArray :=
  if in_bounds da index then Ok (<[Z.to_nat index := x]> da)
  else Err DynamicArrayException.

Definition append (da : DynamicArray) (x : A) : DynamicArray := da ++ [x].

End DynamicArray.
Arguments DynamicArray A : clear implicits.
End DynamicArray.

(** [a % b] on Python integers. *)
Definition py_mod (a b : Z) : result Z :=
  if b =? 0 then Err ZeroDivisionError else Ok (a mod b).

(** [a / b] on Python integers (true division). *)
Definition py_div (a b : Z) : result Q :=
  if b =? 0 then Err ZeroDivisionError
  else Ok (inject_Z a / inject_Z b)%Q.

(** ** [hash-map-oa.py]: open addressing with quadratic probing *)

Module OA.
Import Primality.
Section OA.
Context {K V : Type} `{EqDecision K}.

(** Modelled from the spec: the [HashEntry] class, which is imported and
    not part of the sources at hand.  A key, a mutable value and the
    tombstone flag the map reads and writes; a new entry is live. *)
Record HashEntry : Type := mkHashEntry {
  key : K;
  value : V;
  is_tombstone : bool
}.

Definition new_HashEntry (k : K) (v : V) : HashEntry :=
  {| key := k; value := v; is_tombstone := false |}.

Definition set_value (v : V) (e : HashEntry) : HashEntry :=
  {| key := key e; value := v; is_tombstone := is_tombstone e |}.

Definition set_is_tombstone (b : bool) (e : HashEntry) : HashEntry :=
  {| key := key e; value := value e; is_tombstone := b |}.

(** The attributes of a [HashMap] object; [_index] is the cursor that
    [__iter__] creates, absent until the first iteration. *)
Record HashMap : Type := mkHashMap {
  _buckets : DynamicArray.DynamicArray (option HashEntry);
  _capacity : Z;
  _hash_function : K -> Z;
  _size : Z;
  _index : option Z
}.

(** Attribute assignments. *)
Definition with_buckets (b : DynamicArray.DynamicArray (option HashEntry))
  (self : HashMap) : HashMap :=
  {| _buckets := b; _capacity := _capacity self;
     _hash_function := _hash_function self;
     _size := _size self; _index := _index self |}.

Definition with_capacity (c : Z) (self : HashMap) : HashMap :=
  {| _buckets := _buckets self; _capacity := c;
     _hash_function := _hash_function self;
     _size := _size self; _index := _index self |}.

Definition with_size (n : Z) (self : HashMap) : HashMap :=
  {| _buckets := _buckets self; _capacity := _capacity self;
     _hash_function := _hash_function self;
     _size := n; _index := _index self |}.

Definition with_index (i : Z) (self : HashMap) : HashMap :=
  {| _buckets := _buckets self; _capacity := _capacity self;
     _hash_function := _hash_function self;
     _size := _size self; _index := Some i |}.

Definition set_buckets (b : DynamicArray.DynamicArray (option HashEntry))
  : M HashMap unit :=
  self <- get_self ;; set_self (with_buckets b self).

Definition set_capacity (c : Z) : M HashMap unit :=
  self <- get_self ;; set_self (with_capacity c self).

Definition set_size (n : Z) : M HashMap unit :=
  self <- get_self ;; set_self (with_size n self).

Definition set_index (i : Z) : M HashMap unit :=
  self <- get_self ;; set_self (with_index i self).

(** [self._index], an [AttributeError] before the first [__iter__]. *)
Definition read_index : M HashMap Z :=
  self <- get_self ;;
  match _index self with
  | Some i => ret i
  | None => raise AttributeError
  end.

(** [self._buckets[index]]. *)
Definition bucket_getitem (index : Z) : M HashMap (option HashEntry) :=
  self <- get_self ;;
  lift (DynamicArray.getitem (_buckets self) index).

(** [self._buckets[index] = slot]. *)
Definition bucket_setitem (index : Z) (slot : option HashEntry)
  : M HashMap unit :=
  self <- get_self ;;
  b <- lift (DynamicArray.setitem (_buckets self) index slot) ;;
  set_buckets b.

(** An attribute assignment on the entry object stored at [index]. *)
Definition entry_update (index : Z) (f : HashEntry -> HashEntry)
  : M HashMap unit :=
  slot <- bucket_getitem index ;;
  match slot with
  | Some e => bucket_setitem index (Some (f e))
  | None => raise AttributeError
  end.

(** [slot is None or slot.is_tombstone]. *)
Definition is_free (slot : option HashEntry) : bool :=
  match slot with
  | None => true
  | Some e => is_tombstone e
  end.

Definition __init__ (capacity : Z) (function : K -> Z) : HashMap :=
  let capacity := _next_prime capacity in
  {| _buckets := foldl (fun da _ => DynamicArray.append da None)
                       DynamicArray.new (range capacity);
     _capacity := capacity;
     _hash_function := function;
     _size := 0;
     _index := None |}.

Definition get_size : M HashMap Z :=
  self <- get_self ;; ret (_size self).

Definition get_capacity : M HashMap Z :=
  self <- get_self ;; ret (_capacity self).

Definition table_load : M HashMap Q :=
  self <- get_self ;;
  lift (py_div (_size self) (_capacity self)).

Definition empty_buckets : M HashMap Z :=
  self <- get_self ;;
  for_each (range (_capacity self))
    (fun index count =>
       slot <- bucket_getitem index ;;
       if is_free slot then ret (count + 1) else ret count)
    0.

Definition clear : M HashMap unit :=
  self <- get_self ;;
  for_each (range (_capacity self))
    (fun index _ => bucket_setitem index None) tt ;;
  set_size 0.

Definition __iter__ : M HashMap unit :=
  set_index 0 ;;
  self <- get_self ;;
  while (S (Z.to_nat (_capacity self)))
    (fun _ : unit =>
       self <- get_self ;;
       index <- read_index ;;
       if index <? _capacity self then
         slot <- bucket_getitem index ;;
         match slot with
         | None => set_index (index + 1) ;; ret (inl tt)
         | Some _ => ret (inr tt)
         end
       else ret (inr tt))
    tt.

Definition __next__ : M HashMap (option HashEntry) :=
  self <- get_self ;;
  while (S (Z.to_nat (_capacity self)))
    (fun _ : unit =>
       self <- get_self ;;
       index <- read_index ;;
       if index <? _capacity self then
         slot <- bucket_getitem index ;;
         if is_free slot then set_index (index + 1) ;; ret (inl tt)
         else ret (inr tt)
       else ret (inr tt))
    tt ;;
  try_except
    (index <- read_index ;;
     current_entry <- bucket_getitem index ;;
     set_index (index + 1) ;;
     ret current_entry)
    DynamicArrayException
    (raise StopIteration).

(** [for element in self: body]. *)
Definition for_in_self {B} (body : option HashEntry -> B -> M HashMap B)
  (b : B) : M HashMap B :=
  __iter__ ;;
  self <- get_self ;;
  while (S (S (List.length (_buckets self))))
    (fun b =>
       r <- try_except (element <- __next__ ;; ret (Some element))
              StopIteration (ret None) ;;
       match r with
       | Some element => b' <- body element b ;; ret (inl b')
       | None => ret (inr b)
       end)
    b.

Definition get_keys_and_values : M HashMap (DynamicArray.DynamicArray (K * V)) :=
  for_in_self
    (fun element key_value_da =>
       match element with
       | Some e => ret (DynamicArray.append key_value_da (key e, value e))
       | None => raise AttributeError
       end)
    DynamicArray.new.

(** The probe after [probe]: [probe += 1] and the next index. *)
Definition next_probe (initial_index probe : Z) : M HashMap (Z * Z) :=
  self <- get_self ;;
  let probe := probe + 1 in
  index <- lift (py_mod (initial_index + probe ^ 2) (_capacity self)) ;;
  ret (probe, index).

(** One round of the [while probe < self._capacity] loop of [put]. *)
Definition put_round (k : K) (v : V) (initial_index : Z) (st : Z * Z)
  : M HashMap (Z * Z + unit) :=
  let '(probe, index) := st in
  self <- get_self ;;
  if probe <? _capacity self then
    slot <- bucket_getitem index ;;
    if is_free slot then
      bucket_setitem index (Some (new_HashEntry k v)) ;;
      entry_update index (set_is_tombstone false) ;;
      self <- get_self ;;
      set_size (_size self + 1) ;;
      ret (inr tt)
    else
      match slot with
      | Some e =>
          if decide (key e = k) then
            entry_update index (set_value v) ;;
            ret (inr tt)
          else
            st' <- next_probe initial_index probe ;;
            ret (inl st')
      | None => raise AttributeError
      end
  else ret (inr tt).

(** [resize_table], with the [put] it calls back as a parameter. *)
Definition resize_table_with (put : K -> V -> M HashMap unit)
  (new_capacity : Z) : M HashMap unit :=
  self <- get_self ;;
  if new_capacity <? _size self then ret tt
  else
    let new_capacity :=
      if negb (_is_prime new_capacity) then _next_prime new_capacity
      else new_capacity in
    key_value_da <- get_keys_and_values ;;
    clear ;;
    set_buckets DynamicArray.new ;;
    for_each (range new_capacity)
      (fun space _ =>
         self <- get_self ;;
         set_buckets (DynamicArray.append (_buckets self) None)) tt ;;
    set_capacity new_capacity ;;
    for_each (range (DynamicArray.length key_value_da))
      (fun pair _ =>
         kv <- lift (DynamicArray.getitem key_value_da pair) ;;
         put (fst kv) (snd kv)) tt.

(** [put] and [resize_table] call each other; [fuel] bounds the depth
    of that recursion. *)
Fixpoint put (fuel : nat) (k : K) (v : V) : M HashMap unit :=
  match fuel with
  | O => out_of_fuel
  | S fuel' =>
      load <- table_load ;;
      (if Qle_bool (1 # 2) load then
         self <- get_self ;;
         resize_table_with (put fuel') (_next_prime (_capacity self * 2))
       else ret tt) ;;
      self <- get_self ;;
      index <- lift (py_mod (_hash_function self k) (_capacity self)) ;;
      let initial_index := index in
      while (S (Z.to_nat (_capacity self)))
        (put_round k v initial_index) (0, index)
  end.

Definition resize_table (fuel : nat) (new_capacity : Z) : M HashMap unit :=
  match fuel with
  | O => out_of_fuel
  | S fuel' => resize_table_with (put fuel') new_capacity
  end.

Definition get (k : K) : M HashMap (option V) :=
  self <- get_self ;;
  index <- lift (py_mod (_hash_function self k) (_capacity self)) ;;
  let initial_index := index in
  while (S (Z.to_nat (_capacity self)))
    (fun '(probe, index) =>
       self <- get_self ;;
       if probe <? _capacity self then
         slot <- bucket_getitem index ;;
         match slot with
         | Some e =>
             if negb (is_tombstone e) && bool_decide (key e = k) then
               ret (inr (Some (value e)))
             else st' <- next_probe initial_index probe ;; ret (inl st')
         | None => st' <- next_probe initial_index probe ;; ret (inl st')
         end
       else ret (inr None))
    (0, index).

Definition contains_key (k : K) : M HashMap bool :=
  self <- get_self ;;
  index <- lift (py_mod (_hash_function self k) (_capacity self)) ;;
  let initial_index := index in
  while (S (Z.to_nat (_capacity self)))
    (fun '(probe, index) =>
       self <- get_self ;;
       if probe <? _capacity self then
         slot <- bucket_getitem index ;;
         match slot with
         | Some e =>
             if bool_decide (key e = k) && negb (is_tombstone e) then
               ret (inr true)
             else st' <- next_probe initial_index probe ;; ret (inl st')
         | None => st' <- next_probe initial_index probe ;; ret (inl st')
         end
       else ret (inr false))
    (0, index).

Definition remove (k : K) : M HashMap unit :=
  self <- get_self ;;
  index <- lift (py_mod (_hash_function self k) (_capacity self)) ;;
  let initial_index := index in
  while (S (Z.to_nat (_capacity self)))
    (fun '(probe, index) =>
       self <- get_self ;;
       if probe <? _capacity self then
         slot <- bucket_getitem index ;;
         match slot with
         | Some e =>
             if bool_decide (key e = k) && negb (is_tombstone e) then
               entry_update index (set_is_tombstone true) ;;
               self <- get_self ;;
               set_size (_size self - 1) ;;
               ret (inr tt)
             else st' <- next_probe initial_index probe ;; ret (inl st')
         | None => st' <- next_probe initial_index probe ;; ret (inl st')
         end
       else ret (inr tt))
    (0, index).

(** The public operations, and the states a map can be brought into:
    a call that raises leaves the map as far as it got. *)
Inductive method : Type :=
| Put (k : K) (v : V)
| Get (k : K)
| ContainsKey (k : K)
| Remove (k : K)
| Clear
| ResizeTable (new_capacity : Z)
| TableLoad
| EmptyBuckets
| GetSize
| GetCapacity
| GetKeysAndValues
| Iter
| Next.

Definition after (fuel : nat) (c : method) (self : HashMap)
  : option HashMap :=
  match c with
  | Put k v => final (put fuel k v self)
  | Get k => final (get k self)
  | ContainsKey k => final (contains_key k self)
  | Remove k => final (remove k self)
  | Clear => final (clear self)
  | ResizeTable new_capacity => final (resize_table fuel new_capacity self)
  | TableLoad => final (table_load self)
  | EmptyBuckets => final (empty_buckets self)
  | GetSize => final (get_size self)
  | GetCapacity => final (get_capacity self)
  | GetKeysAndValues => final (get_keys_and_values self)
  | Iter => final (__iter__ self)
  | Next => final (__next__ self)
  end.

Inductive reachable : HashMap -> Prop :=
| reachable_init (capacity : Z) (function : K -> Z) :
    reachable (__init__ capacity function)
| reachable_call (self self' : HashMap) (fuel : nat) (c : method) :
    reachable self -> after fuel c self = Some self' -> reachable self'.

End OA.
Arguments HashEntry K V : clear implicits.
Arguments HashMap K V : clear implicits.
Arguments method K V : clear implicits.
End OA.

(** ** [hash-map-sc.py]: separate chaining *)

(** Modelled from the spec: the [LinkedList] class, which is imported and
    not part of the sources at hand.  A chain of key/value nodes in
    insertion order: [insert] appends a node at the chain end,
    [contains] yields the first node with the key or nothing, [remove]
    unlinks that node, and the chain has a length and can be walked
    from its head. *)
Module LinkedList.
Section LinkedList.
Context {K V : Type} `{EqDecision K}.

Record SLNode : Type := mkSLNode {
  key : K;
  value : V
}.

Definition LinkedList : Type := list SLNode.

Definition new : LinkedList := [].

Definition insert (ll : LinkedList) (k : K) (v : V) : LinkedList :=
  ll ++ [{| key := k; value := v |}].

Fixpoint contains (ll : LinkedList) (k : K) : option SLNode :=
  match ll with
  | [] => None
  | node :: ll' => if decide (key node = k) then Some node
                   else contains ll' k
  end.

Fixpoint remove (ll : LinkedList) (k : K) : LinkedList :=
  match ll with
  | [] => []
  | node :: ll' => if decide (key node = k) then ll'
                   else node :: remove ll' k
  end.

Definition length (ll : LinkedList) : Z := Z.of_nat (List.length ll).

(** [ll.contains(k).value = v]: the assignment lands on the node that
    [contains] returns, which stays linked in the chain. *)
Fixpoint set_contained_value (ll : LinkedList) (k : K) (v : V)
  : LinkedList :=
  match ll with
  | [] => []
  | node :: ll' =>
      if decide (key node = k) then {| key := key node; value := v |} :: ll'
      else node :: set_contained_value ll' k v
  end.

End LinkedList.
Arguments SLNode K V : clear implicits.
Arguments LinkedList K V : clear implicits.
End LinkedList.

Module SC.
Import Primality.
Section SC.
Context {K V : Type} `{EqDecision K}.

Record HashMap : Type := mkHashMap {
  _buckets : DynamicArray.DynamicArray (LinkedList.LinkedList K V);
  _capacity : Z;
  _hash_function : K -> Z;
  _size : Z
}.

(** Attribute assignments. *)
Definition with_buckets
  (b : DynamicArray.DynamicArray (LinkedList.LinkedList K V))
  (self : HashMap) : HashMap :=
  {| _buckets := b; _capacity := _capacity self;
     _hash_function := _hash_function self; _size := _size self |}.

Definition with_capacity (c : Z) (self : HashMap) : HashMap :=
  {| _buckets := _buckets self; _capacity := c;
     _hash_function := _hash_function self; _size := _size self |}.

Definition with_size (n : Z) (self : HashMap) : HashMap :=
  {| _buckets := _buckets self; _capacity := _capacity self;
     _hash_function := _hash_function self; _size := n |}.

Definition set_buckets
  (b : DynamicArray.DynamicArray (LinkedList.LinkedList K V))
  : M HashMap unit :=
  self <- get_self ;; set_self (with_buckets b self).

Definition set_capacity (c : Z) : M HashMap unit :=
  self <- get_self ;; set_self (with_capacity c self).

Definition set_size (n : Z) : M HashMap unit :=
  self <- get_self ;; set_self (with_size n self).

(** [self._buckets[index]]. *)
Definition bucket_getitem (index : Z)
  : M HashMap (LinkedList.LinkedList K V) :=
  self <- get_self ;;
  lift (DynamicArray.getitem (_buckets self) index).

(** [self._buckets[index] = ll]. *)
Definition bucket_setitem (index : Z) (ll : LinkedList.LinkedList K V)
  : M HashMap unit :=
  self <- get_self ;;
  b <- lift (DynamicArray.setitem (_buckets self) index ll) ;;
  set_buckets b.

(** A mutating method call on the chain object stored at [index]. *)
Definition bucket_mutate (index : Z)
  (f : LinkedList.LinkedList K V -> LinkedList.LinkedList K V)
  : M HashMap unit :=
  ll <- bucket_getitem index ;;
  bucket_setitem index (f ll).

Definition __init__ (capacity : Z) (function : K -> Z) : HashMap :=
  let capacity := _next_prime capacity in
  {| _buckets := foldl (fun da _ => DynamicArray.append da LinkedList.new)
                       DynamicArray.new (range capacity);
     _capacity := capacity;
     _hash_function := function;
     _size := 0 |}.

Definition get_size : M HashMap Z :=
  self <- get_self ;; ret (_size self).

Definition get_capacity : M HashMap Z :=
  self <- get_self ;; ret (_capacity self).

Definition table_load : M HashMap Q :=
  self <- get_self ;;
  lift (py_div (_size self) (_capacity self)).

Definition empty_buckets : M HashMap Z :=
  self <- get_self ;;
  for_each (range (_capacity self))
    (fun bucket count =>
       ll <- bucket_getitem bucket ;;
       if LinkedList.length ll =? 0 then ret (count + 1) else ret count)
    0.

Definition clear : M HashMap unit :=
  self <- get_self ;;
  for_each (range (_capacity self))
    (fun bucket _ => bucket_setitem bucket LinkedList.new) tt ;;
  set_size 0.

Definition contains_key (k : K) : M HashMap bool :=
  self <- get_self ;;
  if _size self =? 0 then ret false
  else
    bucket <- lift (py_mod (_hash_function self k) (_capacity self)) ;;
    ll <- bucket_getitem bucket ;;
    match LinkedList.contains ll k with
    | Some _ => ret true
    | None => ret false
    end.

Definition get (k : K) : M HashMap (option V) :=
  present <- contains_key k ;;
  if negb present then ret None
  else
    self <- get_self ;;
    bucket <- lift (py_mod (_hash_function self k) (_capacity self)) ;;
    linked_list <- bucket_getitem bucket ;;
    for_each linked_list
      (fun node found =>
         match found with
         | Some v => ret (Some v)
         | None => if decide (LinkedList.key node = k)
                   then ret (Some (LinkedList.value node))
                   else ret None
         end)
      None.

Definition remove (k : K) : M HashMap unit :=
  present <- contains_key k ;;
  if negb present then ret tt
  else
    self <- get_self ;;
    for_each (range (_capacity self))
      (fun bucket _ =>
         ll <- bucket_getitem bucket ;;
         match LinkedList.contains ll k with
         | Some _ =>
             bucket_mutate bucket (fun ll => LinkedList.remove ll k) ;;
             self <- get_self ;;
             set_size (_size self - 1)
         | None => ret tt
         end)
      tt.

Definition get_keys_and_values
  : M HashMap (DynamicArray.DynamicArray (K * V)) :=
  self <- get_self ;;
  for_each (range (_capacity self))
    (fun bucket key_value_da =>
       ll <- bucket_getitem bucket ;;
       for_each ll
         (fun node key_value_da =>
            ret (DynamicArray.append key_value_da
                   (LinkedList.key node, LinkedList.value node)))
         key_value_da)
    DynamicArray.new.

(** [resize_table], with the [put] it calls back as a parameter. *)
Definition resize_table_with (put : K -> V -> M HashMap unit)
  (new_capacity : Z) : M HashMap unit :=
  if new_capacity <? 1 then ret tt
  else
    let new_capacity :=
      if negb (_is_prime new_capacity) then _next_prime new_capacity
      else new_capacity in
    key_value_da <- get_keys_and_values ;;
    clear ;;
    set_buckets DynamicArray.new ;;
    for_each (range new_capacity)
      (fun space _ =>
         self <- get_self ;;
         set_buckets (DynamicArray.append (_buckets self) LinkedList.new))
      tt ;;
    set_capacity new_capacity ;;
    for_each (range (DynamicArray.length key_value_da))
      (fun pair _ =>
         kv <- lift (DynamicArray.getitem key_value_da pair) ;;
         put (fst kv) (snd kv)) tt.

(** [put] and [resize_table] call each other; [fuel] bounds the depth
    of that recursion. *)
Fixpoint put (fuel : nat) (k : K) (v : V) : M HashMap unit :=
  match fuel with
  | O => out_of_fuel
  | S fuel' =>
      load <- table_load ;;
      (if Qle_bool 1 load then
         self <- get_self ;;
         resize_table_with (put fuel') (_next_prime (_capacity self * 2))
       else ret tt) ;;
      self <- get_self ;;
      bucket <- lift (py_mod (_hash_function self k) (_capacity self)) ;;
      linked_list <- bucket_getitem bucket ;;
      match LinkedList.contains linked_list k with
      | Some _ =>
          bucket_mutate bucket
            (fun ll => LinkedList.set_contained_value ll k v)
      | None =>
          bucket_mutate bucket (fun ll => LinkedList.insert ll k v) ;;
          self <- get_self ;;
          set_size (_size self + 1)
      end
  end.

Definition resize_table (fuel : nat) (new_capacity : Z) : M HashMap unit :=
  match fuel with
  | O => out_of_fuel
  | S fuel' => resize_table_with (put fuel') new_capacity
  end.

(** The public operations, and the states a map can be brought into:
    a call that raises leaves the map as far as it got. *)
Inductive method : Type :=
| Put (k : K) (v : V)
| Get (k : K)
| ContainsKey (k : K)
| Remove (k : K)
| Clear
| ResizeTable (new_capacity : Z)
| TableLoad
| EmptyBuckets
| GetSize
| GetCapacity
| GetKeysAndValues.

Definition after (fuel : nat) (c : method) (self : HashMap)
  : option HashMap :=
  match c with
  | Put k v => final (put fuel k v self)
  | Get k => final (get k self)
  | ContainsKey k => final (contains_key k self)
  | Remove k => final (remove k self)
  | Clear => final (clear self)
  | ResizeTable new_capacity => final (resize_table fuel new_capacity self)
  | TableLoad => final (table_load self)
  | EmptyBuckets => final (empty_buckets self)
  | GetSize => final (get_size self)
  | GetCapacity => final (get_capacity self)
  | GetKeysAndValues => final (get_keys_and_values self)
  end.

Inductive reachable : HashMap -> Prop :=
| reachable_init (capacity : Z) (function : K -> Z) :
    reachable (__init__ capacity function)
| reachable_call (self self' : HashMap) (fuel : nat) (c : method) :
    reachable self -> after fuel c self = Some self' -> reachable self'.

End SC.
Arguments HashMap K V : clear implicits.
Arguments method K V : clear implicits.

(** [find_mode], on a map of occurrence counts.  [hash_function_1] is
    the imported default hash function of [HashMap()], taken as a
    parameter; [fuel] is handed to every [put]. *)
Section FindMode.
Context {K : Type} `{EqDecision K}.
Variable hash_function_1 : K -> Z.

Definition find_mode (fuel : nat) (da : DynamicArray.DynamicArray K)
  : outcome (HashMap K Z) (DynamicArray.DynamicArray K * Z) :=
  let map := __init__ 11 hash_function_1 in
  let mode_da : DynamicArray.DynamicArray K := DynamicArray.new in
  (for_each (range (DynamicArray.length da))
     (fun i _ =>
        value <- lift (DynamicArray.getitem da i) ;;
        present <- contains_key value ;;
        if present then
          count <- get value ;;
          match count with
          | Some n => put fuel value (n + 1)
          | None => raise TypeError
          end
        else put fuel value 1) tt ;;
   map_da <- get_keys_and_values ;;
   frequency <-
     for_each (range (DynamicArray.length map_da))
       (fun pair frequency =>
          kv <- lift (DynamicArray.getitem map_da pair) ;;
          ret (Z.max frequency (snd kv)))
       0 ;;
   mode_da <-
     for_each (range (DynamicArray.length map_da))
       (fun pair mode_da =>
          kv <- lift (DynamicArray.getitem map_da pair) ;;
          if snd kv =? frequency
          then ret (DynamicArray.append mode_da (fst kv))
          else ret mode_da)
       mode_da ;;
   ret (mode_da, frequency)) map.

End FindMode.
End SC.

(** * Specifications

    The vocabulary in which the properties of the two maps are stated:
    total correctness of a method call, the state invariants, and what
    the maps hold. *)

(** ** Method calls that return, and frame conditions *)

(** [sat c s Q]: run on [s], the computation [c] returns, with a value
    and a final state that satisfy [Q]. *)
Definition sat {St A} (c : M St A) (s : St) (Q : A -> St -> Prop) : Prop :=
  match c s with
  | Return a s' => Q a s'
  | Raise _ _ => False
  | OutOfFuel => False
  end.

(** [o1] is [o2] cut short by a lack of fuel. *)
Definition fuel_le {St A} (o1 o2 : outcome St A) : Prop :=
  o1 = OutOfFuel \/ o1 = o2.

Section Frames.
Context {St : Type}.

(** [keeps R c]: however [c] ends, the final state is [R]-related to
    the initial one. *)
Definition keeps {A} (R : St -> St -> Prop) (c : M St A) : Prop :=
  forall s s', final (c s) = Some s' -> R s s'.

End Frames.

(** ** Capacities and the rebuild of a resize *)

Section Capacity.
Import Primality.

(** The requested capacity as [resize_table] coerces it. *)
Definition coerce (new_capacity : Z) : Z :=
  if negb (_is_prime new_capacity) then _next_prime new_capacity
  else new_capacity.

(** The re-insertion loop that ends a resize. *)
Definition refill {St K V} (put : K -> V -> M St unit) (key_value_da : list (K * V))
  : M St unit :=
  for_each (range (DynamicArray.length key_value_da))
    (fun pair _ =>
       kv <- lift (DynamicArray.getitem key_value_da pair) ;;
       put (fst kv) (snd kv)) tt.

End Capacity.

(** ** The open-addressing map *)

Module OASpec.
Import Primality OA.
Section OASpec.
Context {K V : Type} `{EqDecision K}.
Implicit Types m : HashMap K V.
Implicit Types slot : option (HashEntry K V).
Implicit Types b : list (option (HashEntry K V)).

(** The number of occupied, not tombstoned slots. *)
Fixpoint live_count b : Z :=
  match b with
  | [] => 0
  | slot :: b' => (if is_free slot then 0 else 1) + live_count b'
  end.

(** The number of slots that are empty or tombstoned. *)
Fixpoint free_count b : Z :=
  match b with
  | [] => 0
  | slot :: b' => (if is_free slot then 1 else 0) + free_count b'
  end.

(** The key/value pairs of the live slots, in slot order. *)
Fixpoint live_pairs b : list (K * V) :=
  match b with
  | [] => []
  | slot :: b' =>
      match slot with
      | Some e => if is_tombstone e then live_pairs b'
                  else (key e, value e) :: live_pairs b'
      | None => live_pairs b'
      end
  end.

(** The state invariant of the open-addressing map. *)
Record oa_wf m : Prop := {
  oa_wf_length : length (_buckets m) = Z.to_nat (_capacity m);
  oa_wf_capacity : _capacity m mod 2 = 1 \/ _capacity m = 2;
  oa_wf_prime : 0 < _capacity m -> Z.prime (_capacity m);
  oa_wf_size : _size m = live_count (_buckets m);
  oa_wf_load : 0 < _capacity m -> 2 * (_size m - 1) < _capacity m
}.

(** What [n] runs of the probe loop do to the map: slots are only
    overwritten with live entries, and [_size] keeps counting them. *)
Definition filled (n : Z) m m' : Prop :=
  _capacity m' = _capacity m /\
  _hash_function m' = _hash_function m /\
  _index m' = _index m /\
  length (_buckets m') = length (_buckets m) /\
  _size m' - live_count (_buckets m') = _size m - live_count (_buckets m) /\
  _size m <= _size m' <= _size m + n /\
  (forall slot, slot ∈ _buckets m' -> slot ∈ _buckets m \/ is_free slot = false).

(** The all-empty table of capacity [n] that a resize allocates. *)
Definition oa_fresh (n : Z) m : HashMap K V :=
  {| _buckets := replicate (Z.to_nat n) None;
     _capacity := n;
     _hash_function := _hash_function m;
     _size := 0;
     _index := Some (Z.max (_capacity m) 0) |}.

(** No slot is tombstoned. *)
Definition tombstone_free m : Prop :=
  forall slot, slot ∈ _buckets m -> is_free slot = true -> slot = None.

(** What [put] guarantees on a map of positive capacity. *)
Definition oa_put_post m m' : Prop :=
  oa_wf m' /\ _capacity m <= _capacity m' /\
  _hash_function m' = _hash_function m /\
  _size m' <= _size m + 1 /\
  (tombstone_free m -> tombstone_free m').

(** Whether [put] resized: if it did not, the load factor was below
    one half before the write; if it did, it is below one half after
    it. *)
Definition oa_put_load m m' : Prop :=
  (_capacity m' = _capacity m /\ 2 * _size m < _capacity m) \/
  (2 * _capacity m < _capacity m' /\ 2 * _size m' < _capacity m').

(** A resize that is not rejected rebuilds the table at a prime
    capacity and drops every tombstone. *)
Definition oa_resize_post (x : Z) m m' : Prop :=
  oa_wf m' /\ coerce x <= _capacity m' /\
  _hash_function m' = _hash_function m /\
  _size m' <= _size m /\ tombstone_free m'.

Definition same_but_index m m' : Prop :=
  _buckets m' = _buckets m /\ _capacity m' = _capacity m /\
  _hash_function m' = _hash_function m /\ _size m' = _size m.

(** The index of probe [i] for key [k]. *)
Definition probe_index m (k : K) (i : Z) : Z :=
  (_hash_function m k mod _capacity m + i ^ 2) mod _capacity m.

(** Probe [j] for key [k] meets a live entry of [k] with value [v], and
    the probes before it meet live entries of other keys. *)
Definition stored_at (k : K) (v : V) m (j : Z) : Prop :=
  0 <= j < _capacity m /\
  (forall i, 0 <= i < j ->
     exists e, _buckets m !! Z.to_nat (probe_index m k i) = Some (Some e) /\
               is_tombstone e = false /\ key e <> k) /\
  exists e, _buckets m !! Z.to_nat (probe_index m k j) = Some (Some e) /\
            is_tombstone e = false /\ key e = k /\ value e = v.

(** The slot holds a live entry of key [k]. *)
Definition hit (k : K) slot : bool :=
  match slot with
  | Some e => bool_decide (key e = k) && negb (is_tombstone e)
  | None => false
  end.

(** Probe [j] is the first probe for [k] that meets a live entry of
    [k], and that entry is [e]. *)
Definition first_hit m (k : K) (j : Z) (e : HashEntry K V) : Prop :=
  0 <= j < _capacity m /\
  _buckets m !! Z.to_nat (probe_index m k j) = Some (Some e) /\
  hit k (Some e) = true /\
  forall i, 0 <= i < j ->
    exists slot, _buckets m !! Z.to_nat (probe_index m k i) = Some slot /\
                 hit k slot = false.

(** None of the [capacity] probes for [k] meets a live entry of [k]. *)
Definition no_hit m (k : K) : Prop :=
  forall i, 0 <= i < _capacity m ->
    exists slot, _buckets m !! Z.to_nat (probe_index m k i) = Some slot /\
                 hit k slot = false.

(** The invariant of the three search loops. *)
Definition searching m (k : K) (n : nat) (st : Z * Z) (s : HashMap K V) : Prop :=
  s = m /\ 0 <= fst st /\ snd st = probe_index m k (fst st) /\
  (forall i, 0 <= i < fst st ->
     exists slot, _buckets m !! Z.to_nat (probe_index m k i) = Some slot /\
                  hit k slot = false) /\
  n = Z.to_nat (_capacity m - fst st).

(** The map after [remove] has tombstoned the entry at probe [j]. *)
Definition tombstoned_at m (k : K) (j : Z) (e : HashEntry K V) : HashMap K V :=
  with_size (_size m - 1)
    (with_buckets
       (<[Z.to_nat (probe_index m k j) := Some (set_is_tombstone true e)]>
          (_buckets m)) m).

End OASpec.
End OASpec.

(** ** The chaining map *)

Module LinkedListSpec.
Import LinkedList.
Section LinkedListSpec.
Context {K V : Type} `{EqDecision K}.
Implicit Types ll : LinkedList K V.

(** The keys of a chain, head first. *)
Definition keys ll : list K := key <$> ll.

End LinkedListSpec.
End LinkedListSpec.

Module SCSpec.
Import Primality SC LinkedListSpec.
Section SCSpec.
Context {K V : Type} `{EqDecision K}.
Implicit Types m : HashMap K V.
Implicit Types ll : LinkedList.LinkedList K V.
Implicit Types b : list (LinkedList.LinkedList K V).

(** The sum of the chain lengths. *)
Fixpoint chain_total b : Z :=
  match b with
  | [] => 0
  | ll :: b' => LinkedList.length ll + chain_total b'
  end.

(** The number of empty chains. *)
Fixpoint empty_count b : Z :=
  match b with
  | [] => 0
  | ll :: b' => (if LinkedList.length ll =? 0 then 1 else 0) + empty_count b'
  end.

Definition chain_pairs ll : list (K * V) :=
  (fun node => (LinkedList.key node, LinkedList.value node)) <$> ll.

(** The key/value pairs of all chains, in bucket order. *)
Fixpoint all_pairs b : list (K * V) :=
  match b with
  | [] => []
  | ll :: b' => chain_pairs ll ++ all_pairs b'
  end.

(** The value of the first pair with key [k]. *)
Fixpoint assoc (l : list (K * V)) (k : K) : option V :=
  match l with
  | [] => None
  | kv :: l' => if decide (fst kv = k) then Some (snd kv) else assoc l' k
  end.

(** The bucket a key hashes to. *)
Definition bucket_of m (k : K) : Z := _hash_function m k mod _capacity m.

(** What the map holds for a key: the value of its node in its bucket. *)
Definition sc_lookup m (k : K) : option V :=
  match _buckets m !! Z.to_nat (bucket_of m k) with
  | Some ll => LinkedList.value <$> LinkedList.contains ll k
  | None => None
  end.

(** The state invariant of the chaining map. *)
Record sc_wf m : Prop := {
  sc_wf_length : length (_buckets m) = Z.to_nat (_capacity m);
  sc_wf_capacity : _capacity m mod 2 = 1 \/ _capacity m = 2;
  sc_wf_prime : 0 < _capacity m -> Z.prime (_capacity m);
  sc_wf_size : _size m = chain_total (_buckets m);
  sc_wf_load : 0 < _capacity m -> _size m <= _capacity m;
  sc_wf_placed : forall (i : nat) ll k,
      _buckets m !! i = Some ll -> k ∈ keys ll -> bucket_of m k = Z.of_nat i;
  sc_wf_nodup : forall (i : nat) ll,
      _buckets m !! i = Some ll -> NoDup (keys ll)
}.

(** The map after the chain at bucket [h] was replaced by [ll'] and
    [_size] was set to [n]. *)
Definition with_chain (h : nat) ll (n : Z) m : HashMap K V :=
  with_size n (with_buckets (<[h := ll]> (_buckets m)) m).

(** What [put] guarantees on a map of positive capacity. *)
Definition sc_put_post (k : K) (v : V) m m' : Prop :=
  sc_wf m' /\ _capacity m <= _capacity m' /\
  _hash_function m' = _hash_function m /\
  (forall k', sc_lookup m' k' = if decide (k' = k) then Some v else sc_lookup m k') /\
  _size m' = _size m + (if sc_lookup m k is Some _ then 0 else 1).

(** [put] once the load factor has been dealt with. *)
Definition put_tail (k : K) (v : V) : M (HashMap K V) unit :=
  self <- get_self ;;
  bucket <- lift (py_mod (_hash_function self k) (_capacity self)) ;;
  linked_list <- bucket_getitem bucket ;;
  match LinkedList.contains linked_list k with
  | Some _ =>
      bucket_mutate bucket (fun ll => LinkedList.set_contained_value ll k v)
  | None =>
      bucket_mutate bucket (fun ll => LinkedList.insert ll k v) ;;
      self <- get_self ;;
      set_size (_size self + 1)
  end.

(** The table of [n] empty chains that a resize allocates. *)
Definition sc_fresh (n : Z) m : HashMap K V :=
  {| _buckets := replicate (Z.to_nat n) LinkedList.new;
     _capacity := n;
     _hash_function := _hash_function m;
     _size := 0 |}.

(** Whether [put] resized: if it did not, the load factor was below
    one before the write; if it did, it is below one after it. *)
Definition sc_put_load m m' : Prop :=
  (_capacity m' = _capacity m /\ _size m < _capacity m) \/
  (2 * _capacity m < _capacity m' /\ _size m' < _capacity m').

(** A resize that is not rejected rebuilds the table at a prime
    capacity and keeps what the map holds. *)
Definition sc_resize_post (x : Z) m m' : Prop :=
  sc_wf m' /\ coerce x <= _capacity m' /\
  _hash_function m' = _hash_function m /\
  (forall k, sc_lookup m' k = sc_lookup m k) /\
  _size m' = _size m.

Definition sc_remove_post (k : K) m m' : Prop :=
  sc_wf m' /\ _capacity m' = _capacity m /\
  _hash_function m' = _hash_function m /\
  (forall k', sc_lookup m' k' = if decide (k' = k) then None else sc_lookup m k') /\
  _size m' = _size m - (if sc_lookup m k is Some _ then 1 else 0).

End SCSpec.
End SCSpec.

(** ** [find_mode] *)

Module FindModeSpec.
Import SC SCSpec.
Section FindModeSpec.
Context {K : Type} `{EqDecision K}.

(** How often [x] occurs in [da]. *)
Fixpoint occurrences (x : K) (da : list K) : Z :=
  match da with
  | [] => 0
  | y :: da' => (if decide (y = x) then 1 else 0) + occurrences x da'
  end.

(** [modes] and [frequency] are the modes of [da] and their count. *)
Definition mode_of (da modes : list K) (frequency : Z) : Prop :=
  (forall x, occurrences x da <= frequency) /\
  (da = [] -> frequency = 0) /\
  (da <> [] -> exists x, x ∈ da /\ occurrences x da = frequency) /\
  (forall x, x ∈ modes <-> x ∈ da /\ occurrences x da = frequency) /\
  NoDup modes.

(** The map holds the occurrence count of every value of [l]. *)
Definition counted (l : list K) (s : HashMap K Z) : Prop :=
  sc_wf s /\ 0 < _capacity s /\
  forall x, sc_lookup s x
            = if occurrences x l =? 0 then None else Some (occurrences x l).

(** The scan that collects the keys whose count is the largest. *)
Fixpoint keys_with (frequency : Z) (map_da : list (K * Z)) : list K :=
  match map_da with
  | [] => []
  | kv :: map_da' =>
      if snd kv =? frequency then fst kv :: keys_with frequency map_da'
      else keys_with frequency map_da'
  end.

End FindModeSpec.
End FindModeSpec.

(** ** Scenarios on maps from integers to integers *)

(** The hash function of the scenarios: an integer key is its own hash. *)
Definition hash_id (k : Z) : Z := k.

(** [p] is the smallest prime that is at least [lo]. *)
Definition smallest_prime_from (lo p : Z) : Prop :=
  Z.prime p /\ lo <= p /\ forall q, Z.prime q -> lo <= q -> p <= q.

(** The number of slots that hold an entry, tombstoned or not. *)
Fixpoint used_count {K V} (b : list (option (OA.HashEntry K V))) : Z :=
  match b with
  | [] => 0
  | slot :: b' => (if slot is Some _ then 1 else 0) + used_count b'
  end.

(** A sequence of calls on one map. *)
Definition oa_after_all {K V} `{EqDecision K} (fuel : nat)
  (calls : list (OA.method K V)) (self : OA.HashMap K V)
  : option (OA.HashMap K V) :=
  foldl (fun o c => o ≫= OA.after fuel c) (Some self) calls.

Definition sc_after_all {K V} `{EqDecision K} (fuel : nat)
  (calls : list (SC.method K V)) (self : SC.HashMap K V)
  : option (SC.HashMap K V) :=
  foldl (fun o c => o ≫= SC.after fuel c) (Some self) calls.

Definition oa_entry (k v : Z) (tombstone : bool) : option (OA.HashEntry Z Z) :=
  Some {| OA.key := k; OA.value := v; OA.is_tombstone := tombstone |}.

Definition oa_map (buckets : list (option (OA.HashEntry Z Z)))
  (capacity size : Z) (index : option Z) : OA.HashMap Z Z :=
  {| OA._buckets := buckets; OA._capacity := capacity;
     OA._hash_function := hash_id; OA._size := size; OA._index := index |}.

Definition sc_node (k v : Z) : LinkedList.SLNode Z Z :=
  {| LinkedList.key := k; LinkedList.value := v |}.

Definition sc_map (buckets : list (list (LinkedList.SLNode Z Z)))
  (capacity size : Z) : SC.HashMap Z Z :=
  {| SC._buckets := buckets; SC._capacity := capacity;
     SC._hash_function := hash_id; SC._size := size |}.

(** [HashMap(-1)]: no bucket, capacity [-1]. *)
Definition oa_negative : OA.HashMap Z Z := oa_map [] (-1) 0 None.

(** [HashMap(11)] after [put(0, 100)], [put(11, 200)], [remove(0)]:
    key [11] collided with key [0] and sits one probe further; the
    slot of key [0] is a tombstone. *)
Definition oa_tombstoned : OA.HashMap Z Z :=
  oa_map (oa_entry 0 100 true :: oa_entry 11 200 false :: replicate 9 None)
         11 1 None.

(** [oa_tombstoned] after [put(11, 300)]: key [11] is stored twice. *)
Definition oa_duplicated : OA.HashMap Z Z :=
  oa_map (oa_entry 11 300 false :: oa_entry 11 200 false :: replicate 9 None)
         11 2 None.

(** [oa_duplicated] after [remove(11)]. *)
Definition oa_half_removed : OA.HashMap Z Z :=
  oa_map (oa_entry 11 300 true :: oa_entry 11 200 false :: replicate 9 None)
         11 1 None.

(** [HashMap(3)] after [put(0, 0)]. *)
Definition oa_one : OA.HashMap Z Z :=
  oa_map [oa_entry 0 0 false; None; None] 3 1 None.

(** [oa_one] after [put(1, 1)]. *)
Definition oa_two : OA.HashMap Z Z :=
  oa_map [oa_entry 0 0 false; oa_entry 1 1 false; None] 3 2 None.

(** [oa_one] after [remove(0)]. *)
Definition oa_one_removed : OA.HashMap Z Z :=
  oa_map [oa_entry 0 0 true; None; None] 3 0 None.

(** The chaining [HashMap(3)] after [put(0, 0)], [put(1, 1)]. *)
Definition sc_two : SC.HashMap Z Z :=
  sc_map [[sc_node 0 0]; [sc_node 1 1]; []] 3 2.

(** [sc_two] after [put(2, 2)]. *)
Definition sc_three : SC.HashMap Z Z :=
  sc_map [[sc_node 0 0]; [sc_node 1 1]; [sc_node 2 2]] 3 3.

(** The chaining [HashMap(-1)]: no bucket, capacity [-1]. *)
Definition sc_negative : SC.HashMap Z Z := sc_map [] (-1) 0.

(** [oa_two] after [__iter__()]: the cursor is on the first slot. *)
Definition oa_iterating : OA.HashMap Z Z :=
  oa_map [oa_entry 0 0 false; oa_entry 1 1 false; None] 3 2 (Some 0).

(** * Proofs *)

(** ** Bounded loops and the primality helpers *)

Section LoopFacts.
Context {A B : Type}.
Variable step : A -> A + B.

Lemma run_add (n m : nat) (a : A) :
  run step (n + m) a = match run step n a with
                       | inl a' => run step m a'
                       | inr b => inr b
                       end.
Proof.
  revert a; induction n as [|n IH]; intros a; simpl; [reflexivity|].
  destruct (step a); [apply IH | reflexivity].
Qed.

Lemma iterate_run (p : positive) (a : A) :
  iterate step p a = run step (Pos.to_nat p) a.
Proof.
  revert a; induction p as [p IH|p IH|]; intros a.
  - rewrite Pos2Nat.inj_xI. simpl. destruct (step a) as [a'|b]; [|reflexivity].
    replace (Pos.to_nat p + (Pos.to_nat p + 0))%nat
      with (Pos.to_nat p + Pos.to_nat p)%nat by lia.
    rewrite run_add, <- !IH. destruct (iterate step p a'); [apply IH|reflexivity].
  - rewrite Pos2Nat.inj_xO. simpl.
    replace (Pos.to_nat p + (Pos.to_nat p + 0))%nat
      with (Pos.to_nat p + Pos.to_nat p)%nat by lia.
    rewrite run_add, <- !IH. destruct (iterate step p a); [apply IH|reflexivity].
  - simpl. destruct (step a); reflexivity.
Qed.

Lemma run_done_mono (n m : nat) (a : A) (b : B) :
  run step n a = inr b -> (n <= m)%nat -> run step m a = inr b.
Proof.
  intros Hrun Hle. replace m with (n + (m - n))%nat by lia.
  rewrite run_add, Hrun. reflexivity.
Qed.

Lemma iterate_done (p : positive) (n : nat) (a : A) (b : B) :
  run step n a = inr b -> (n <= Pos.to_nat p)%nat -> iterate step p a = inr b.
Proof. intros Hrun Hle. rewrite iterate_run. eapply run_done_mono; eauto. Qed.

End LoopFacts.

Import Primality.

Lemma is_prime_run_true (c : Z) (n : nat) (f : Z) :
  0 < f -> run (is_prime_step c) n f = inr true ->
  forall d, f <= d -> d ^ 2 <= c -> Z.even (d - f) = true -> c mod d <> 0.
Proof.
  revert f; induction n as [|n IH]; intros f Hf Hrun d Hfd Hd Hev; [discriminate|].
  simpl in Hrun. unfold is_prime_step in Hrun at 1.
  destruct (Z.leb_spec (f ^ 2) c) as [Hle|Hgt].
  - destruct (Z.eqb_spec (c mod f) 0) as [Hz|Hnz]; [discriminate|].
    destruct (Z.eq_dec d f) as [->|Hne]; [assumption|].
    assert (d <> f + 1).
    { intros ->. replace (f + 1 - f) with 1 in Hev by lia. discriminate. }
    apply (IH (f + 2)); try lia; [assumption|].
    replace (d - (f + 2)) with (d - f - 2) by lia.
    rewrite Z.even_sub, Hev. reflexivity.
  - exfalso. assert (f ^ 2 <= d ^ 2) by (apply Z.pow_le_mono_l; lia). lia.
Qed.

Lemma is_prime_run_false (c : Z) (n : nat) (f : Z) :
  0 < f -> run (is_prime_step c) n f = inr false ->
  exists d, f <= d /\ d ^ 2 <= c /\ Z.even (d - f) = true /\ c mod d = 0.
Proof.
  revert f; induction n as [|n IH]; intros f Hf Hrun; [discriminate|].
  simpl in Hrun. unfold is_prime_step in Hrun at 1.
  destruct (Z.leb_spec (f ^ 2) c) as [Hle|Hgt]; [|discriminate].
  destruct (Z.eqb_spec (c mod f) 0) as [Hz|Hnz].
  - exists f. rewrite Z.sub_diag. repeat split; auto; lia.
  - destruct (IH (f + 2)) as (d & H1 & H2 & H3 & H4); [lia|assumption|].
    exists d. repeat split; auto; try lia.
    replace (d - f) with (d - (f + 2) + 2) by lia.
    rewrite Z.even_add, H3. reflexivity.
Qed.

Lemma is_prime_run_terminates (c : Z) (n : nat) (f : Z) :
  0 < f -> c < f + Z.of_nat n ->
  exists b, run (is_prime_step c) (S n) f = inr b.
Proof.
  revert f; induction n as [|n IH]; intros f Hf Hn.
  - simpl. unfold is_prime_step.
    destruct (Z.leb_spec (f ^ 2) c) as [Hle|Hgt]; [|eauto].
    exfalso. nia.
  - change (run (is_prime_step c) (S (S n)) f)
      with (match is_prime_step c f with
            | inl a' => run (is_prime_step c) (S n) a'
            | inr b => inr b
            end).
    unfold is_prime_step at 1.
    destruct (Z.leb_spec (f ^ 2) c) as [Hle|Hgt]; [|eauto].
    destruct (Z.eqb_spec (c mod f) 0); [eauto|].
    apply IH; lia.
Qed.

(** The trial division never exhausts its bound. *)
Lemma is_prime_loop_run (c : Z) :
  exists n b, run (is_prime_step c) n 3 = inr b /\ is_prime_loop c 3 = b.
Proof.
  destruct (Z.le_gt_cases c 2) as [Hc|Hc].
  - exists 1%nat, true. split.
    + simpl. unfold is_prime_step.
      destruct (Z.leb_spec (3 ^ 2) c); [lia|reflexivity].
    + unfold is_prime_loop.
      rewrite (iterate_done _ _ 1 3 true); [reflexivity| |lia].
      simpl. unfold is_prime_step.
      destruct (Z.leb_spec (3 ^ 2) c); [lia|reflexivity].
  - destruct (is_prime_run_terminates c (Z.to_nat c - 2) 3) as [b Hb]; [lia|lia|].
    exists (S (Z.to_nat c - 2)), b. split; [assumption|].
    unfold is_prime_loop.
    rewrite (iterate_done _ _ _ _ _ Hb); [reflexivity|].
    destruct c; simpl; lia.
Qed.

Lemma mod2_odd (c : Z) : c mod 2 <> 0 -> Z.odd c = true.
Proof.
  intros Hc. rewrite Zodd_mod. destruct (Z.eqb_spec (c mod 2) 1); [reflexivity|].
  pose proof (Z.mod_pos_bound c 2). lia.
Qed.

Lemma odd_mod2 (c : Z) : Z.odd c = true -> c mod 2 = 1.
Proof. rewrite Zodd_mod. intros Hc. apply Z.eqb_eq. exact Hc. Qed.

Lemma is_prime_negative (c : Z) :
  c < 0 -> _is_prime c = negb (c mod 2 =? 0).
Proof.
  intros Hc. unfold _is_prime.
  destruct (Z.eqb_spec c 2); [lia|]. destruct (Z.eqb_spec c 3); [lia|].
  destruct (Z.eqb_spec c 1); [lia|]. simpl.
  destruct (Z.eqb_spec (c mod 2) 0); [reflexivity|]. simpl.
  destruct (is_prime_loop_run c) as (fuel & b & Hrun & ->).
  destruct fuel as [|fuel]; [discriminate|]. simpl in Hrun.
  unfold is_prime_step in Hrun at 1.
  destruct (Z.leb_spec (3 ^ 2) c); [lia|]. congruence.
Qed.

(** A composite found by [_is_prime] comes with a proper divisor. *)
Lemma is_prime_false_divisor (c : Z) :
  1 < c -> _is_prime c = false -> exists d, 1 < d < c /\ (d | c).
Proof.
  intros Hc. unfold _is_prime.
  destruct (Z.eqb_spec c 2); [discriminate|].
  destruct (Z.eqb_spec c 3); [discriminate|].
  destruct (Z.eqb_spec c 1); [lia|]. simpl.
  destruct (Z.eqb_spec (c mod 2) 0) as [Hev|Hodd]; simpl.
  - intros _. exists 2. split; [lia|]. apply Z.mod_divide; [lia|assumption].
  - destruct (is_prime_loop_run c) as (fuel & b & Hrun & ->). intros ->.
    apply is_prime_run_false in Hrun as (d & H1 & H2 & _ & H4); [|lia].
    exists d. split; [nia|]. apply Z.mod_divide; [lia|assumption].
Qed.

Lemma is_prime_true_prime (c : Z) :
  0 <= c -> _is_prime c = true -> Z.prime c.
Proof.
  intros Hc. unfold _is_prime.
  destruct (Z.eqb_spec c 2) as [->|]; [intros _; apply Z.prime_2|].
  destruct (Z.eqb_spec c 3) as [->|]; [intros _; apply Z.prime_3|].
  destruct (Z.eqb_spec c 1); [discriminate|]. simpl.
  destruct (Z.eqb_spec (c mod 2) 0) as [Hev|Hodd]; simpl; [discriminate|].
  destruct (is_prime_loop_run c) as (fuel & b & Hrun & ->). intros ->.
  assert (Hco : Z.odd c = true) by (apply mod2_odd; assumption).
  assert (c <> 0) by (intros ->; discriminate).
  split; [lia|]. intros m Hm [q Hq].
  assert (Hmq : Z.odd q = true /\ Z.odd m = true).
  { rewrite Hq, Z.odd_mul in Hco. apply andb_prop in Hco. exact Hco. }
  destruct Hmq as [Hqo Hmo].
  assert (1 < q < c) by nia.
  assert (Hd : forall d e, c = d * e -> 1 < d -> d <= e -> Z.odd d = true -> False).
  { intros d e He Hd1 Hde Hdo.
    assert (d <> 2) by (intros ->; discriminate).
    apply (is_prime_run_true c fuel 3 ltac:(lia) Hrun d); try lia; try nia.
    - rewrite Z.even_sub, <- Z.negb_odd, Hdo. reflexivity.
    - apply Z.mod_divide; [lia|]. exists e. lia. }
  destruct (Z.le_gt_cases m q).
  - apply (Hd m q); auto; lia.
  - apply (Hd q m); auto; lia.
Qed.

Lemma is_prime_spec (c : Z) : 0 <= c -> _is_prime c = true <-> Z.prime c.
Proof.
  intros Hc. split; [apply is_prime_true_prime; assumption|].
  intros [H1 Hp]. destruct (_is_prime c) eqn:E; [reflexivity|].
  apply is_prime_false_divisor in E as (d & Hd & Hdiv); [|assumption].
  exfalso. exact (Hp d Hd Hdiv).
Qed.

Lemma is_prime_true_odd (c : Z) : _is_prime c = true -> c = 2 \/ c mod 2 = 1.
Proof.
  unfold _is_prime.
  destruct (Z.eqb_spec c 2); [auto|]. destruct (Z.eqb_spec c 3) as [->|]; [auto|].
  destruct (Z.eqb_spec c 1) as [->|]; [auto|]. simpl.
  destruct (Z.eqb_spec (c mod 2) 0); simpl; [discriminate|].
  intros _. right. apply odd_mod2, mod2_odd. assumption.
Qed.

(** Every number above 1 has a prime divisor. *)
Lemma prime_divisor (n : Z) : 1 < n -> exists p, Z.prime p /\ (p | n).
Proof.
  assert (H : forall (k : nat) n, n < Z.of_nat k -> 1 < n ->
                exists p, Z.prime p /\ (p | n)).
  { induction k as [|k IH]; intros m Hk Hm; [lia|].
    destruct (_is_prime m) eqn:E.
    - exists m. split; [apply is_prime_true_prime; [lia|assumption]|].
      apply Z.divide_refl.
    - apply is_prime_false_divisor in E as (d & Hd & Hdiv); [|assumption].
      destruct (IH d) as (p & Hp & Hpd); [lia|lia|].
      exists p. split; [assumption|]. eapply Z.divide_trans; eauto. }
  intros Hn. apply (H (Z.to_nat n + 1)%nat); lia.
Qed.

Lemma pos_fact_divide (n : nat) (k : Z) :
  1 <= k <= Z.of_nat n -> (k | Z.pos (pos_fact n)).
Proof.
  induction n as [|n IH]; intros Hk; [lia|].
  simpl pos_fact. rewrite Pos2Z.inj_mul, Zpos_P_of_succ_nat.
  destruct (Z.eq_dec k (Z.succ (Z.of_nat n))) as [->|Hne].
  - apply Z.divide_factor_l.
  - apply Z.divide_mul_r, IH. lia.
Qed.

(** Euclid: a prime above [n], and no further than [n! + 1]. *)
Lemma prime_above (n : Z) :
  0 <= n -> exists p, Z.prime p /\ n < p <= Z.pos (pos_fact (Z.to_nat n)) + 1.
Proof.
  intros Hn.
  destruct (prime_divisor (Z.pos (pos_fact (Z.to_nat n)) + 1)) as (p & Hp & Hdiv);
    [lia|].
  exists p. split; [assumption|].
  pose proof (Z.prime_ge_2 p Hp).
  split.
  - destruct (Z.lt_ge_cases n p) as [|Hle]; [assumption|exfalso].
    assert (Hpf : (p | Z.pos (pos_fact (Z.to_nat n))))
      by (apply pos_fact_divide; lia).
    assert (H1 : (p | 1)).
    { replace 1 with (Z.pos (pos_fact (Z.to_nat n)) + 1
                      - Z.pos (pos_fact (Z.to_nat n))) by lia.
      apply Z.divide_sub_r; assumption. }
    apply Z.divide_1_r_nonneg in H1; lia.
  - apply Z.divide_pos_le; [lia|assumption].
Qed.

(** The search of [_next_prime] stops at the first candidate that
    [_is_prime] accepts, if one is [k] rounds away. *)
Lemma next_prime_run (k : nat) (c : Z) :
  _is_prime (c + 2 * Z.of_nat k) = true ->
  exists (j : nat) , (j <= k)%nat /\
    run next_prime_step (S j) c = inr (c + 2 * Z.of_nat j) /\
    _is_prime (c + 2 * Z.of_nat j) = true /\
    forall i : nat, (i < j)%nat -> _is_prime (c + 2 * Z.of_nat i) = false.
Proof.
  revert c; induction k as [|k IH]; intros c Hk.
  - exists O. rewrite Z.add_0_r in *. repeat split; [lia| |assumption|lia].
    simpl. unfold next_prime_step. rewrite Hk. reflexivity.
  - destruct (_is_prime c) eqn:E.
    + exists O. rewrite Z.add_0_r. repeat split; [lia| |assumption|lia].
      simpl. unfold next_prime_step. rewrite E. reflexivity.
    + destruct (IH (c + 2)) as (j & Hj & Hrun & Hp & Hmin).
      { replace (c + 2 + 2 * Z.of_nat k) with (c + 2 * Z.of_nat (S k)) by lia.
        assumption. }
      exists (S j).
      replace (c + 2 * Z.of_nat (S j)) with (c + 2 + 2 * Z.of_nat j) by lia.
      repeat split; [lia| |assumption|].
      * change (run next_prime_step (S (S j)) c)
          with (match next_prime_step c with
                | inl a' => run next_prime_step (S j) a'
                | inr b => inr b
                end).
        unfold next_prime_step at 1. rewrite E. exact Hrun.
      * intros [|i] Hi; [rewrite Z.add_0_r; assumption|].
        replace (c + 2 * Z.of_nat (S i)) with (c + 2 + 2 * Z.of_nat i) by lia.
        apply Hmin. lia.
Qed.

(** The search loop of [_next_prime] never exhausts its bound: from an
    odd start it returns the first candidate that [_is_prime] accepts. *)
Lemma next_prime_loop_spec (c : Z) :
  c mod 2 = 1 ->
  exists j : nat,
    next_prime_loop c = c + 2 * Z.of_nat j /\
    _is_prime (c + 2 * Z.of_nat j) = true /\
    forall i : nat, (i < j)%nat -> _is_prime (c + 2 * Z.of_nat i) = false.
Proof.
  intros Hodd.
  assert (Hfuel : forall k : nat,
             _is_prime (c + 2 * Z.of_nat k) = true ->
             (S k <= Pos.to_nat (pos_fact (Z.to_nat c) + 2))%nat ->
             exists j : nat,
               next_prime_loop c = c + 2 * Z.of_nat j /\
               _is_prime (c + 2 * Z.of_nat j) = true /\
               forall i : nat, (i < j)%nat ->
                 _is_prime (c + 2 * Z.of_nat i) = false).
  { intros k Hk Hle.
    destruct (next_prime_run k c Hk) as (j & Hj & Hrun & Hp & Hmin).
    exists j. repeat split; [|assumption|assumption].
    unfold next_prime_loop.
    rewrite (iterate_done _ _ _ _ _ Hrun); [reflexivity|lia]. }
  destruct (Z.lt_ge_cases c 0) as [Hneg|Hpos].
  - apply (Hfuel O); [|lia]. rewrite Z.add_0_r, is_prime_negative by assumption.
    rewrite Hodd. reflexivity.
  - destruct (Z.eq_dec c 1) as [->|Hne1].
    { apply (Hfuel 1%nat); [reflexivity|simpl; lia]. }
    assert (Hc0 : c <> 0) by (intros ->; discriminate).
    assert (Hc2 : c <> 2) by (intros ->; discriminate).
    destruct (prime_above c Hpos) as (p & Hp & Hcp & Hpf).
    assert (Hpodd : p mod 2 = 1).
    { assert (Hacc : _is_prime p = true)
        by (apply is_prime_spec; [lia|assumption]).
      destruct (is_prime_true_odd p Hacc); [lia|assumption]. }
    assert (Hk : p = c + 2 * Z.of_nat (Z.to_nat ((p - c) / 2))).
    { rewrite Z2Nat.id by (apply Z.div_pos; lia).
      pose proof (Z.div_mod (p - c) 2 ltac:(lia)) as Hdm.
      assert ((p - c) mod 2 = 0); [|lia].
      rewrite Zminus_mod, Hpodd, Hodd. reflexivity. }
    apply (Hfuel (Z.to_nat ((p - c) / 2))).
    + rewrite <- Hk. apply is_prime_spec; [lia|assumption].
    + rewrite Pos2Nat.inj_add.
      assert (Z.of_nat (Pos.to_nat (pos_fact (Z.to_nat c)))
              = Z.pos (pos_fact (Z.to_nat c))) by apply positive_nat_Z.
      assert ((p - c) / 2 <= p - c) by (apply Z.div_le_upper_bound; lia).
      change (Pos.to_nat 2) with 2%nat.
      apply Nat2Z.inj_le. rewrite Nat2Z.inj_succ, Z2Nat.id by (apply Z.div_pos; lia).
      rewrite Nat2Z.inj_add. lia.
Qed.

Lemma next_prime_candidate (c : Z) :
  (if c mod 2 =? 0 then c + 1 else c) mod 2 = 1.
Proof.
  destruct (Z.eqb_spec (c mod 2) 0) as [Hev|Hodd].
  - rewrite Zplus_mod, Hev. reflexivity.
  - pose proof (Z.mod_pos_bound c 2). lia.
Qed.

(** [_next_prime] always yields an odd number that [_is_prime] accepts,
    at or above its argument. *)
Lemma next_prime_accepts (c : Z) :
  _is_prime (_next_prime c) = true /\ c <= _next_prime c /\
  _next_prime c mod 2 = 1.
Proof.
  unfold _next_prime.
  pose proof (next_prime_candidate c) as Hodd.
  set (c' := if c mod 2 =? 0 then c + 1 else c) in *.
  assert (c <= c') by (subst c'; destruct (c mod 2 =? 0); lia).
  destruct (next_prime_loop_spec c' Hodd) as (j & -> & Hp & _).
  repeat split; [assumption|lia|].
  rewrite Zplus_mod, Hodd, Z.mul_comm, Z_mod_mult. reflexivity.
Qed.

(** From a non-negative argument, [_next_prime] yields the smallest
    prime that is at least the argument and at least 3. *)
Lemma next_prime_smallest (c : Z) :
  0 <= c ->
  Z.prime (_next_prime c) /\ Z.max c 3 <= _next_prime c /\
  forall q, Z.prime q -> Z.max c 3 <= q -> _next_prime c <= q.
Proof.
  intros Hc.
  destruct (next_prime_accepts c) as (Hacc & Hge & Hoddr).
  assert (Hprime : Z.prime (_next_prime c))
    by (apply is_prime_spec; [lia|assumption]).
  pose proof (Z.prime_ge_2 _ Hprime).
  assert (_next_prime c <> 2) by (intros E; rewrite E in Hoddr; discriminate).
  split; [assumption|]. split; [lia|].
  intros q Hq Hqge.
  destruct (Z.le_gt_cases (_next_prime c) q) as [|Hlt]; [assumption|exfalso].
  assert (Hqodd : q mod 2 = 1).
  { assert (Hqacc : _is_prime q = true)
      by (apply is_prime_spec; [lia|assumption]).
    destruct (is_prime_true_odd q Hqacc); [lia|assumption]. }
  revert Hlt. unfold _next_prime.
  pose proof (next_prime_candidate c) as Hodd.
  set (c' := if c mod 2 =? 0 then c + 1 else c) in *.
  assert (Hc' : c' <= q).
  { subst c'. destruct (Z.eqb_spec (c mod 2) 0) as [Hev|]; [|lia].
    assert (q <> c) by congruence. lia. }
  destruct (next_prime_loop_spec c' Hodd) as (j & -> & _ & Hmin).
  intros Hlt.
  assert (Hk : q = c' + 2 * Z.of_nat (Z.to_nat ((q - c') / 2))).
  { rewrite Z2Nat.id by (apply Z.div_pos; lia).
    pose proof (Z.div_mod (q - c') 2 ltac:(lia)) as Hdm.
    assert ((q - c') mod 2 = 0); [|lia].
    rewrite Zminus_mod, Hqodd, Hodd. reflexivity. }
  specialize (Hmin (Z.to_nat ((q - c') / 2)) ltac:(lia)).
  rewrite <- Hk in Hmin.
  assert (_is_prime q = true) by (apply is_prime_spec; [lia|assumption]).
  congruence.
Qed.

(** The helpers on small numbers, negative ones included. *)
Example is_prime_small :
  map _is_prime [0; 1; 2; 3; 4; 5; 9; 11; 25; 49; 97; -1; -3; -4]
  = [false; false; true; true; false; true; false; true; false; false;
     true; true; true; false].
Proof. reflexivity. Qed.

Example next_prime_small :
  map _next_prime [-4; -1; 0; 1; 2; 3; 4; 10; 22; 24; 90]
  = [-3; -1; 3; 3; 3; 3; 5; 11; 23; 29; 97].
Proof. vm_compute. reflexivity. Qed.

(** ** Rules for method calls *)

Section MonadRules.
Context {St : Type}.
Implicit Types s : St.

Lemma sat_returns {A} (c : M St A) s Q :
  sat c s Q <-> exists a s', c s = Return a s' /\ Q a s'.
Proof.
  unfold sat. split.
  - destruct (c s); [eauto|tauto|tauto].
  - intros (a & s' & -> & HQ). exact HQ.
Qed.

Lemma sat_conseq {A} (c : M St A) s (Q Q' : A -> St -> Prop) :
  sat c s Q -> (forall a s', Q a s' -> Q' a s') -> sat c s Q'.
Proof. unfold sat. destruct (c s); auto. Qed.

Lemma sat_and {A} (c : M St A) s (Q Q' : A -> St -> Prop) :
  sat c s Q -> sat c s Q' -> sat c s (fun a s' => Q a s' /\ Q' a s').
Proof. unfold sat. destruct (c s); auto. Qed.

(** What a computation that returns satisfies, it returns. *)
Lemma sat_self {A} (c : M St A) s (Q : A -> St -> Prop) :
  sat c s Q -> sat c s (fun a s' => c s = Return a s' /\ Q a s').
Proof. unfold sat. destruct (c s); auto. Qed.

Lemma sat_ret {A} (a : A) s (Q : A -> St -> Prop) : Q a s -> sat (ret a) s Q.
Proof. exact id. Qed.

Lemma sat_bind {A B} (c : M St A) (k : A -> M St B) s (Q : B -> St -> Prop) :
  sat c s (fun a s' => sat (k a) s' Q) -> sat (bind c k) s Q.
Proof. unfold sat, bind. destruct (c s); auto. Qed.

Lemma sat_bind_inv {A B} (c : M St A) (k : A -> M St B) s (Q : B -> St -> Prop) :
  sat (bind c k) s Q -> sat c s (fun a s' => sat (k a) s' Q).
Proof. unfold sat, bind. destruct (c s); auto. Qed.

Lemma sat_get_self s (Q : St -> St -> Prop) : Q s s -> sat get_self s Q.
Proof. exact id. Qed.

Lemma sat_set_self s s' (Q : unit -> St -> Prop) :
  Q tt s' -> sat (set_self s') s Q.
Proof. exact id. Qed.

Lemma sat_lift {A} (r : result A) (a : A) s (Q : A -> St -> Prop) :
  r = Ok a -> Q a s -> sat (lift r) s Q.
Proof. intros -> HQ. exact HQ. Qed.

(** [for x in l]: an invariant over the rest of the list. *)
Lemma sat_for_each {A B} (I : list A -> B -> St -> Prop)
  (body : A -> B -> M St B) (l : list A) (b : B) s :
  I l b s ->
  (forall x l' b s, I (x :: l') b s ->
     sat (body x b) s (fun b' s' => I l' b' s')) ->
  sat (for_each l body b) s (fun b' s' => I [] b' s').
Proof.
  intros HI Hbody. revert b s HI.
  induction l as [|x l IH]; intros b s HI; [exact HI|].
  simpl. apply sat_bind. eapply sat_conseq; [apply Hbody; exact HI|].
  intros b' s' HI'. apply IH. exact HI'.
Qed.

(** [for i in range(n)]: an invariant over the index reached. *)
Lemma sat_for_range {B} (I : Z -> B -> St -> Prop)
  (body : Z -> B -> M St B) (n : Z) (b : B) s :
  I 0 b s ->
  (forall i b s, 0 <= i < n -> I i b s ->
     sat (body i b) s (fun b' s' => I (i + 1) b' s')) ->
  sat (for_each (range n) body b) s (fun b' s' => I (Z.max n 0) b' s').
Proof.
  intros HI Hbody. unfold range.
  pose (J := fun (l : list Z) (b : B) (s : St) =>
               exists i, 0 <= i <= Z.max n 0 /\ l = seqZ i (Z.max n 0 - i)
                         /\ I i b s).
  eapply sat_conseq.
  - apply (sat_for_each J).
    + exists 0. split; [lia|]. split; [|exact HI].
      rewrite Z.sub_0_r. destruct (Z.le_gt_cases n 0).
      * rewrite !seqZ_nil by lia. reflexivity.
      * rewrite Z.max_l by lia. reflexivity.
    + intros x l' b' s' (i & Hi & Hl & HIi).
      destruct (Z.le_gt_cases (Z.max n 0 - i) 0) as [Hle|Hgt].
      { rewrite seqZ_nil in Hl by lia. discriminate. }
      rewrite seqZ_cons in Hl by lia. injection Hl as -> ->.
      eapply sat_conseq; [apply Hbody; [lia|exact HIi]|].
      intros b'' s'' HI''. exists (i + 1). split; [lia|]. split; [|exact HI''].
      f_equal; lia.
  - intros b' s' (i & Hi & Hl & HIi).
    destruct (Z.le_gt_cases (Z.max n 0 - i) 0) as [Hle|Hgt].
    + replace (Z.max n 0) with i by lia. exact HIi.
    + rewrite seqZ_cons in Hl by lia. discriminate.
Qed.

(** [while]: an invariant indexed by a bound on the rounds left. *)
Lemma sat_while {A B} (I : nat -> A -> St -> Prop) (Q : B -> St -> Prop)
  (body : A -> M St (A + B)) (fuel n : nat) (a : A) s :
  I n a s -> (n < fuel)%nat ->
  (forall n a s, I n a s ->
     sat (body a) s (fun r s' =>
       match r with
       | inl a' => exists n', (n' < n)%nat /\ I n' a' s'
       | inr b => Q b s'
       end)) ->
  sat (while fuel body a) s Q.
Proof.
  intros HI Hlt Hbody. revert n a s HI Hlt.
  induction fuel as [|fuel IH]; intros n a s HI Hlt; [lia|].
  simpl. apply sat_bind. eapply sat_conseq; [apply Hbody; exact HI|].
  intros [a'|b] s' Hr; [|exact Hr].
  destruct Hr as (n' & Hn' & HI'). apply (IH n'); [exact HI'|lia].
Qed.

Lemma fuel_le_refl {A} (o : outcome St A) : fuel_le o o.
Proof. right. reflexivity. Qed.

Lemma fuel_le_return {A} (o1 o2 : outcome St A) a s :
  fuel_le o1 o2 -> o1 = Return a s -> o2 = Return a s.
Proof. intros [->| ->]; [discriminate|auto]. Qed.

Lemma fuel_le_bind {A B} (c1 c2 : M St A) (k1 k2 : A -> M St B) s :
  fuel_le (c1 s) (c2 s) ->
  (forall a s', fuel_le (k1 a s') (k2 a s')) ->
  fuel_le (bind c1 k1 s) (bind c2 k2 s).
Proof.
  unfold bind. intros [Hc|Hc] Hk; rewrite Hc; [left; reflexivity|].
  destruct (c2 s); [apply Hk|apply fuel_le_refl|apply fuel_le_refl].
Qed.

Lemma fuel_le_for_each {A B} (body1 body2 : A -> B -> M St B)
  (l : list A) (b : B) s :
  (forall x b s, fuel_le (body1 x b s) (body2 x b s)) ->
  fuel_le (for_each l body1 b s) (for_each l body2 b s).
Proof.
  intros Hbody. revert b s. induction l as [|x l IH]; intros b s.
  - apply fuel_le_refl.
  - simpl. apply fuel_le_bind; [apply Hbody|]. intros b' s'. apply IH.
Qed.

(** *** Frame conditions that hold however the call ends *)

Section Keeps.
Variable R : St -> St -> Prop.
Hypothesis R_refl : forall s, R s s.
Hypothesis R_trans : forall s1 s2 s3, R s1 s2 -> R s2 s3 -> R s1 s3.

Lemma keeps_ret {A} (a : A) : keeps R (ret a).
Proof. intros s s' [= <-]. apply R_refl. Qed.

Lemma keeps_raise {A} (e : exn) : keeps R (raise (A := A) e).
Proof. intros s s' [= <-]. apply R_refl. Qed.

Lemma keeps_out_of_fuel {A} : keeps R (out_of_fuel (A := A)).
Proof. intros s s' [=]. Qed.

Lemma keeps_get_self : keeps R get_self.
Proof. intros s s' [= <-]. apply R_refl. Qed.

Lemma keeps_lift {A} (r : result A) : keeps R (lift r).
Proof. intros s s'. unfold lift. destruct r; intros [= <-]; apply R_refl. Qed.

Lemma keeps_bind {A B} (c : M St A) (k : A -> M St B) :
  keeps R c -> (forall a, keeps R (k a)) -> keeps R (bind c k).
Proof.
  intros Hc Hk s s'. unfold bind. specialize (Hc s).
  destruct (c s) as [a s1|e s1|]; simpl in *.
  - intros Hf. eapply R_trans; [apply Hc; reflexivity|]. eapply Hk. exact Hf.
  - exact (Hc s').
  - intros [=].
Qed.

Lemma keeps_try_except {A} (c : M St A) (e : exn) (handler : M St A) :
  keeps R c -> keeps R handler -> keeps R (try_except c e handler).
Proof.
  intros Hc Hh s s'. unfold try_except. specialize (Hc s).
  destruct (c s) as [a s1|e' s1|]; simpl in *; [exact (Hc s')| |intros [=]].
  destruct (decide (e' = e)); [|exact (Hc s')].
  intros Hf. eapply R_trans; [apply Hc; reflexivity|]. eapply Hh. exact Hf.
Qed.

Lemma keeps_while {A B} (fuel : nat) (body : A -> M St (A + B)) (a : A) :
  (forall a, keeps R (body a)) -> keeps R (while fuel body a).
Proof.
  intros Hbody. revert a. induction fuel as [|fuel IH]; intros a.
  - apply keeps_out_of_fuel.
  - simpl. apply keeps_bind; [apply Hbody|].
    intros [a'|b]; [apply IH|apply keeps_ret].
Qed.

Lemma keeps_for_each {A B} (l : list A) (body : A -> B -> M St B) (b : B) :
  (forall x b, keeps R (body x b)) -> keeps R (for_each l body b).
Proof.
  intros Hbody. revert b. induction l as [|x l IH]; intros b.
  - apply keeps_ret.
  - simpl. apply keeps_bind; [apply Hbody|]. intros b'. apply IH.
Qed.

End Keeps.

Lemma sat_final {A} (c : M St A) s (Q : A -> St -> Prop) s' :
  sat c s Q -> final (c s) = Some s' -> exists a, Q a s'.
Proof.
  unfold sat. destruct (c s) as [a s1|e s1|]; [|tauto|tauto].
  intros HQ [= <-]. eauto.
Qed.

Lemma fuel_le_final {A} (o1 o2 : outcome St A) s' :
  fuel_le o1 o2 -> final o1 = Some s' -> final o2 = Some s'.
Proof. intros [->| ->]; [discriminate|auto]. Qed.

Lemma fuel_le_trans {A} (o1 o2 o3 : outcome St A) :
  fuel_le o1 o2 -> fuel_le o2 o3 -> fuel_le o1 o3.
Proof. intros [->| ->]; [left; reflexivity|auto]. Qed.

End MonadRules.

(** *** Load factors: the comparisons of [size / capacity] *)

Lemma Qle_bool_div (a : Z) (b : positive) (s c : Z) :
  0 < c ->
  Qle_bool (a # b) (inject_Z s / inject_Z c) = (a * c <=? s * Z.pos b).
Proof.
  intros Hc. destruct c as [|p|p]; try lia.
  unfold Qle_bool, Qdiv, Qmult, Qinv, inject_Z. simpl Qnum. simpl Qden.
  rewrite Z.mul_1_r, Pos.mul_1_l. reflexivity.
Qed.

Lemma Qle_bool_div_zero (a : Z) (b : positive) (c : Z) :
  0 < a -> Qle_bool (a # b) (inject_Z 0 / inject_Z c) = false.
Proof.
  intros Ha. unfold Qle_bool, Qdiv, Qmult, inject_Z. simpl Qnum.
  apply Z.leb_gt. simpl. lia.
Qed.

Lemma py_div_nonzero (s c : Z) :
  c <> 0 -> py_div s c = Ok (inject_Z s / inject_Z c)%Q.
Proof. intros Hc. unfold py_div. destruct (Z.eqb_spec c 0); [contradiction|reflexivity]. Qed.

(** *** The dynamic array and the capacity coercion, shared by both maps *)

Section Shared.
Import Primality.

Lemma getitem_lookup {A} (da : list A) (i : Z) (x : A) :
  0 <= i -> da !! Z.to_nat i = Some x -> DynamicArray.getitem da i = Ok x.
Proof.
  intros Hi Hl. unfold DynamicArray.getitem, DynamicArray.in_bounds.
  apply lookup_lt_Some in Hl as Hlt. unfold DynamicArray.length.
  destruct (Z.leb_spec 0 i); [|lia].
  destruct (Z.ltb_spec i (Z.of_nat (length da))); [|lia].
  cbn [andb]. unfold DynamicArray.DynamicArray. rewrite Hl. reflexivity.
Qed.

Lemma getitem_out_of_bounds {A} (da : list A) (i : Z) :
  i < 0 \/ Z.of_nat (length da) <= i ->
  DynamicArray.getitem da i = Err DynamicArrayException.
Proof.
  intros Hi. unfold DynamicArray.getitem, DynamicArray.in_bounds, DynamicArray.length.
  destruct (Z.leb_spec 0 i); cbn [andb]; [|reflexivity].
  destruct (Z.ltb_spec i (Z.of_nat (length da))); [lia|reflexivity].
Qed.

Lemma setitem_in_bounds {A} (da : list A) (i : Z) (x : A) :
  0 <= i < Z.of_nat (length da) ->
  DynamicArray.setitem da i x = Ok (<[Z.to_nat i := x]> da).
Proof.
  intros Hi. unfold DynamicArray.setitem, DynamicArray.in_bounds, DynamicArray.length.
  destruct (Z.leb_spec 0 i); [|lia].
  destruct (Z.ltb_spec i (Z.of_nat (length da))); [|lia]. reflexivity.
Qed.

Lemma sat_py_mod {St} (a c : Z) (s : St) (Q : Z -> St -> Prop) :
  c <> 0 -> Q (a mod c) s -> sat (lift (py_mod a c)) s Q.
Proof.
  intros Hc HQ. unfold py_mod. destruct (Z.eqb_spec c 0); [contradiction|].
  exact HQ.
Qed.

Lemma elem_of_insert_inv {A} (l : list A) (i : nat) (x y : A) :
  y ∈ <[i := x]> l -> y ∈ l \/ y = x.
Proof.
  revert i; induction l as [|z l IH]; intros [|i] Hy; simpl in *; auto.
  - apply elem_of_cons in Hy as [->|Hy]; [auto|]. left. apply elem_of_cons. auto.
  - apply elem_of_cons in Hy as [->|Hy]; [left; apply elem_of_cons; auto|].
    destruct (IH i Hy); [left; apply elem_of_cons; auto|auto].
Qed.

Lemma foldl_append {A} (x : A) (l : list Z) (acc : list A) :
  foldl (fun da _ => DynamicArray.append da x) acc l
  = acc ++ replicate (length l) x.
Proof.
  revert acc; induction l as [|i l IH]; intros acc; simpl.
  - rewrite app_nil_r. reflexivity.
  - rewrite IH. unfold DynamicArray.append. rewrite <- app_assoc. reflexivity.
Qed.

Lemma replicate_snoc {A} (n : nat) (x : A) :
  replicate n x ++ [x] = replicate (S n) x.
Proof. induction n as [|n IH]; simpl; [reflexivity|]. rewrite IH. reflexivity. Qed.

Lemma coerce_prime (x : Z) : 0 <= x -> Z.prime (coerce x) /\ x <= coerce x.
Proof.
  intros Hx. unfold coerce. destruct (_is_prime x) eqn:E; simpl.
  - split; [apply is_prime_spec; assumption|lia].
  - destruct (next_prime_smallest x Hx) as (Hp & Hge & _). split; [assumption|lia].
Qed.

Lemma coerce_accepted (x : Z) : _is_prime x = true -> coerce x = x.
Proof. intros E. unfold coerce. rewrite E. reflexivity. Qed.

Lemma coerce_odd (x : Z) : coerce x mod 2 = 1 \/ coerce x = 2.
Proof.
  unfold coerce. destruct (_is_prime x) eqn:E; simpl.
  - destruct (is_prime_true_odd x E); auto.
  - left. apply next_prime_accepts.
Qed.

Lemma next_prime_double (c : Z) :
  0 < c ->
  Z.prime (_next_prime (c * 2)) /\ c * 2 < _next_prime (c * 2) /\
  _next_prime (c * 2) mod 2 = 1 /\ _is_prime (_next_prime (c * 2)) = true.
Proof.
  intros Hc. destruct (next_prime_accepts (c * 2)) as (Hacc & Hge & Hodd).
  destruct (next_prime_smallest (c * 2) ltac:(lia)) as (Hp & _ & _).
  repeat split; try assumption; try apply Hp.
  destruct (Z.eq_dec (_next_prime (c * 2)) (c * 2)) as [E|]; [|lia].
  rewrite E, Z_mod_mult in Hodd. discriminate.
Qed.

Lemma sat_refill {St K V} (put : K -> V -> M St unit)
  (I : list (K * V) -> St -> Prop) (pairs : list (K * V)) (m : St) :
  I pairs m ->
  (forall kv l s, I (kv :: l) s -> sat (put (fst kv) (snd kv)) s (fun _ s' => I l s')) ->
  sat (refill put pairs) m (fun _ m' => I [] m').
Proof.
  intros HI Hput. unfold refill. eapply sat_conseq.
  - apply (sat_for_range
             (fun i (_ : unit) s => I (drop (Z.to_nat i) pairs) s)); [exact HI|].
    intros i [] s Hi HIi. unfold DynamicArray.length in Hi.
    destruct (lookup_lt_is_Some_2 pairs (Z.to_nat i)) as [kv Hkv]; [lia|].
    apply sat_bind. eapply sat_lift; [apply getitem_lookup; [lia|exact Hkv]|].
    rewrite (drop_S _ _ _ Hkv) in HIi.
    replace (Z.to_nat (i + 1)) with (S (Z.to_nat i)) by lia.
    apply Hput. exact HIi.
  - intros [] s HIs. rewrite drop_ge in HIs; [exact HIs|].
    unfold DynamicArray.length. lia.
Qed.

End Shared.

(** ** The open-addressing map *)

Module OAFacts.
Import Primality OA OASpec.
Section OAFacts.
Context {K V : Type} `{EqDecision K}.
Implicit Types m : HashMap K V.
Implicit Types slot : option (HashEntry K V).
Implicit Types b : list (option (HashEntry K V)).

Lemma live_count_bounds b : 0 <= live_count b <= Z.of_nat (length b).
Proof. induction b as [|slot b IH]; simpl; [lia|]. destruct (is_free slot); lia. Qed.

Lemma free_live_count b : free_count b + live_count b = Z.of_nat (length b).
Proof. induction b as [|slot b IH]; simpl; [lia|]. destruct (is_free slot); lia. Qed.

Lemma live_count_app b1 b2 : live_count (b1 ++ b2) = live_count b1 + live_count b2.
Proof. induction b1 as [|slot b1 IH]; simpl; [lia|]. rewrite IH. lia. Qed.

Lemma free_count_app b1 b2 : free_count (b1 ++ b2) = free_count b1 + free_count b2.
Proof. induction b1 as [|slot b1 IH]; simpl; [lia|]. rewrite IH. lia. Qed.

Lemma live_pairs_app b1 b2 : live_pairs (b1 ++ b2) = live_pairs b1 ++ live_pairs b2.
Proof.
  induction b1 as [|[e|] b1 IH]; simpl; [reflexivity| |exact IH].
  destruct (is_tombstone e); [exact IH|]. rewrite IH. reflexivity.
Qed.

Lemma live_pairs_length b : Z.of_nat (length (live_pairs b)) = live_count b.
Proof.
  induction b as [|[e|] b IH]; simpl; [reflexivity| |exact IH].
  destruct (is_tombstone e); simpl; lia.
Qed.

Lemma live_count_insert b (i : nat) slot slot' :
  b !! i = Some slot ->
  live_count (<[i := slot']> b)
  = live_count b - (if is_free slot then 0 else 1)
    + (if is_free slot' then 0 else 1).
Proof.
  revert i; induction b as [|s b IH]; intros [|i] Hi; simpl in *; try discriminate.
  - injection Hi as ->. lia.
  - rewrite (IH i Hi). lia.
Qed.

Lemma live_count_replicate (n : nat) :
  live_count (replicate n (None : option (HashEntry K V))) = 0.
Proof. induction n as [|n IH]; simpl; [reflexivity|exact IH]. Qed.

Lemma live_count_all_free b :
  Forall (fun slot => is_free slot = true) b -> live_count b = 0.
Proof. induction 1 as [|slot b Hs _ IH]; simpl; [reflexivity|]. rewrite Hs, IH. reflexivity. Qed.

(** *** The accessors *)

Lemma oa_sat_bucket_getitem (i : Z) m slot (Q : option (HashEntry K V) -> HashMap K V -> Prop) :
  0 <= i -> _buckets m !! Z.to_nat i = Some slot -> Q slot m ->
  sat (bucket_getitem i) m Q.
Proof.
  intros Hi Hl HQ. unfold bucket_getitem. apply sat_bind, sat_get_self.
  eapply sat_lift; [apply getitem_lookup; eassumption|exact HQ].
Qed.

Lemma oa_sat_bucket_setitem (i : Z) slot m (Q : unit -> HashMap K V -> Prop) :
  0 <= i < Z.of_nat (length (_buckets m)) ->
  Q tt (with_buckets (<[Z.to_nat i := slot]> (_buckets m)) m) ->
  sat (bucket_setitem i slot) m Q.
Proof.
  intros Hi HQ. unfold bucket_setitem. apply sat_bind, sat_get_self.
  apply sat_bind. eapply sat_lift; [apply setitem_in_bounds; assumption|].
  unfold set_buckets. apply sat_bind, sat_get_self. exact HQ.
Qed.

Lemma sat_entry_update (i : Z) (f : HashEntry K V -> HashEntry K V) m e
  (Q : unit -> HashMap K V -> Prop) :
  0 <= i -> _buckets m !! Z.to_nat i = Some (Some e) ->
  Q tt (with_buckets (<[Z.to_nat i := Some (f e)]> (_buckets m)) m) ->
  sat (entry_update i f) m Q.
Proof.
  intros Hi Hl HQ. unfold entry_update. apply sat_bind.
  eapply oa_sat_bucket_getitem; [assumption|eassumption|].
  apply oa_sat_bucket_setitem; [|exact HQ].
  apply lookup_lt_Some in Hl. lia.
Qed.

Lemma oa_sat_set_size (n : Z) m (Q : unit -> HashMap K V -> Prop) :
  Q tt (with_size n m) -> sat (set_size n) m Q.
Proof. intros HQ. exact HQ. Qed.

Lemma sat_set_index (i : Z) m (Q : unit -> HashMap K V -> Prop) :
  Q tt (with_index i m) -> sat (set_index i) m Q.
Proof. intros HQ. exact HQ. Qed.

Lemma sat_next_probe (h probe : Z) m (Q : Z * Z -> HashMap K V -> Prop) :
  _capacity m <> 0 ->
  Q (probe + 1, (h + (probe + 1) ^ 2) mod _capacity m) m ->
  sat (next_probe h probe) m Q.
Proof.
  intros Hc HQ. unfold next_probe. apply sat_bind, sat_get_self.
  apply sat_bind, sat_py_mod; [assumption|]. exact HQ.
Qed.

(** *** The probe loop of [put] *)

Lemma filled_refl m : filled 0 m m.
Proof. unfold filled. repeat split; auto; lia. Qed.

Lemma filled_le (n n' : Z) m m' : filled n m m' -> n <= n' -> filled n' m m'.
Proof. unfold filled. intros (?&?&?&?&?&?&?) ?. repeat split; auto; lia. Qed.

Lemma filled_trans (n1 n2 : Z) m1 m2 m3 :
  filled n1 m1 m2 -> filled n2 m2 m3 -> filled (n1 + n2) m1 m3.
Proof.
  unfold filled. intros (?&?&?&?&?&?&Hs1) (?&?&?&?&?&?&Hs2).
  repeat split; try congruence; try lia.
  intros slot Hin. destruct (Hs2 slot Hin); auto.
Qed.

Lemma sat_put_probe (k : K) (v : V) (h : Z) m (fuel : nat) (probe index : Z) :
  length (_buckets m) = Z.to_nat (_capacity m) ->
  0 <= probe -> 0 <= index < _capacity m ->
  (Z.to_nat (_capacity m - probe) < fuel)%nat ->
  sat (while fuel (put_round k v h) (probe, index)) m
      (fun _ m' => filled 1 m m').
Proof.
  intros Hlen Hprobe Hindex Hfuel.
  apply (sat_while
           (fun n '(probe, index) s =>
              s = m /\ 0 <= probe /\ 0 <= index < _capacity m /\
              n = Z.to_nat (_capacity m - probe))
           _ _ _ (Z.to_nat (_capacity m - probe)));
    [auto|assumption|].
  clear probe index Hprobe Hindex Hfuel.
  intros n [probe index] s (-> & Hprobe & Hindex & ->).
  unfold put_round. apply sat_bind, sat_get_self.
  destruct (Z.ltb_spec probe (_capacity m)) as [Hlt|Hge];
    [|apply sat_ret, (filled_le 0); [apply filled_refl|lia]].
  destruct (lookup_lt_is_Some_2 (_buckets m) (Z.to_nat index)) as [slot Hslot];
    [lia|].
  apply sat_bind. eapply oa_sat_bucket_getitem; [lia|exact Hslot|].
  destruct (is_free slot) eqn:Hfree.
  - apply sat_bind, oa_sat_bucket_setitem; [lia|].
    apply sat_bind. eapply sat_entry_update; [lia| |].
    { simpl. apply list_lookup_insert_eq. lia. }
    apply sat_bind, sat_get_self. apply sat_bind, oa_sat_set_size, sat_ret.
    unfold filled. simpl. rewrite list_insert_insert_eq, length_insert.
    rewrite (live_count_insert _ _ _ _ Hslot), Hfree. simpl.
    repeat split; auto; try lia.
    intros slot' Hin. apply elem_of_insert_inv in Hin as [Hin| ->]; auto.
  - destruct slot as [e|]; [|discriminate].
    destruct (decide (key e = k)) as [Hk|Hk].
    + apply sat_bind. eapply sat_entry_update; [lia|exact Hslot|].
      apply sat_ret. unfold filled. simpl. rewrite length_insert.
      rewrite (live_count_insert _ _ _ _ Hslot). simpl in *. rewrite Hfree.
      repeat split; auto; try lia.
      intros slot' Hin. apply elem_of_insert_inv in Hin as [Hin| ->]; auto.
    + apply sat_bind, sat_next_probe; [lia|]. apply sat_ret.
      exists (Z.to_nat (_capacity m - (probe + 1))).
      split; [lia|]. repeat split; try lia.
      * apply Z.mod_pos_bound. lia.
      * apply Z.mod_pos_bound. lia.
Qed.

(** *** Iteration and [get_keys_and_values] *)

Lemma with_index_idem (i j : Z) m : with_index i (with_index j m) = with_index i m.
Proof. reflexivity. Qed.

Lemma live_pairs_drop_free b (j : nat) slot :
  b !! j = Some slot -> is_free slot = true ->
  live_pairs (drop j b) = live_pairs (drop (S j) b).
Proof.
  intros Hj Hfree. rewrite (drop_S _ _ _ Hj). simpl.
  destruct slot as [e|]; [|reflexivity]. simpl in Hfree. rewrite Hfree. reflexivity.
Qed.

Lemma live_pairs_drop_live b (j : nat) e :
  b !! j = Some (Some e) -> is_tombstone e = false ->
  live_pairs (drop j b) = (key e, value e) :: live_pairs (drop (S j) b).
Proof. intros Hj Hlive. rewrite (drop_S _ _ _ Hj). simpl. rewrite Hlive. reflexivity. Qed.

Lemma sat_iter m :
  length (_buckets m) = Z.to_nat (_capacity m) ->
  sat __iter__ m
    (fun _ m' => exists j, 0 <= j <= Z.max (_capacity m) 0 /\
                   m' = with_index j m /\
                   live_pairs (drop (Z.to_nat j) (_buckets m))
                   = live_pairs (_buckets m)).
Proof.
  intros Hlen. unfold __iter__. apply sat_bind, sat_set_index.
  apply sat_bind, sat_get_self. simpl _capacity.
  apply (sat_while
           (fun n (_ : unit) s =>
              exists j, 0 <= j <= Z.max (_capacity m) 0 /\ s = with_index j m /\
                live_pairs (drop (Z.to_nat j) (_buckets m)) = live_pairs (_buckets m)
                /\ n = Z.to_nat (_capacity m - j))
           _ _ _ (Z.to_nat (_capacity m))).
  - exists 0. repeat split; try lia; reflexivity.
  - lia.
  - intros n [] s (j & Hj & -> & Hpairs & ->).
    apply sat_bind, sat_get_self. unfold read_index. apply sat_bind, sat_bind, sat_get_self.
    simpl. apply sat_ret.
    destruct (Z.ltb_spec j (_capacity m)) as [Hlt|Hge]; [|apply sat_ret; eauto].
    destruct (lookup_lt_is_Some_2 (_buckets m) (Z.to_nat j)) as [slot Hslot]; [lia|].
    apply sat_bind. eapply oa_sat_bucket_getitem; [lia|exact Hslot|].
    destruct slot as [e|]; [apply sat_ret; eauto|].
    apply sat_bind, sat_set_index, sat_ret.
    exists (Z.to_nat (_capacity m - (j + 1))). split; [lia|].
    exists (j + 1). repeat split; try lia.
    rewrite <- Hpairs. replace (Z.to_nat (j + 1)) with (S (Z.to_nat j)) by lia.
    symmetry. eapply live_pairs_drop_free; [exact Hslot|reflexivity].
Qed.

(** [__iter__] leaves the cursor on the first slot that holds an entry,
    or at the capacity. *)
Lemma sat_iter_first m :
  length (_buckets m) = Z.to_nat (_capacity m) ->
  sat __iter__ m
    (fun _ m' => exists j, 0 <= j <= Z.max (_capacity m) 0 /\
                   m' = with_index j m /\
                   (forall i, 0 <= i < j -> _buckets m !! Z.to_nat i = Some None) /\
                   (j < _capacity m ->
                    exists e, _buckets m !! Z.to_nat j = Some (Some e))).
Proof.
  intros Hlen. unfold __iter__. apply sat_bind, sat_set_index.
  apply sat_bind, sat_get_self. simpl _capacity.
  apply (sat_while
           (fun n (_ : unit) s =>
              exists j, 0 <= j <= Z.max (_capacity m) 0 /\ s = with_index j m /\
                (forall i, 0 <= i < j -> _buckets m !! Z.to_nat i = Some None)
                /\ n = Z.to_nat (_capacity m - j))
           _ _ _ (Z.to_nat (_capacity m))).
  - exists 0. split; [lia|]. split; [reflexivity|]. split; [intros; lia|lia].
  - lia.
  - intros n [] s (j & Hj & -> & Hnone & ->).
    apply sat_bind, sat_get_self. unfold read_index. apply sat_bind, sat_bind, sat_get_self.
    simpl. apply sat_ret.
    destruct (Z.ltb_spec j (_capacity m)) as [Hlt|Hge].
    2:{ apply sat_ret. exists j. split; [lia|]. split; [reflexivity|].
        split; [assumption|]. intros; lia. }
    destruct (lookup_lt_is_Some_2 (_buckets m) (Z.to_nat j)) as [slot Hslot]; [lia|].
    apply sat_bind. eapply oa_sat_bucket_getitem; [lia|exact Hslot|].
    destruct slot as [e|].
    + apply sat_ret. exists j. split; [lia|]. split; [reflexivity|].
      split; [assumption|]. eauto.
    + apply sat_bind, sat_set_index, sat_ret.
      exists (Z.to_nat (_capacity m - (j + 1))). split; [lia|].
      exists (j + 1). split; [lia|]. split; [reflexivity|]. split; [|lia].
      intros i Hi. destruct (Z.eq_dec i j) as [->|Hne]; [assumption|].
      apply Hnone. lia.
Qed.

(** The skipping loop of [__next__] stops at the next live slot or at
    the capacity. *)
Lemma sat_next_skip m (i : Z) (fuel : nat) :
  length (_buckets m) = Z.to_nat (_capacity m) ->
  0 <= i <= Z.max (_capacity m) 0 ->
  (Z.to_nat (_capacity m - i) < fuel)%nat ->
  sat (while fuel
         (fun _ : unit =>
            self <- get_self ;;
            index <- read_index ;;
            if index <? _capacity self then
              slot <- bucket_getitem index ;;
              if is_free slot then set_index (index + 1) ;; ret (inl tt)
              else ret (inr tt)
            else ret (inr tt)) tt)
      (with_index i m)
      (fun _ m' => exists j, i <= j <= Z.max (_capacity m) 0 /\
                     m' = with_index j m /\
                     live_pairs (drop (Z.to_nat i) (_buckets m))
                     = live_pairs (drop (Z.to_nat j) (_buckets m)) /\
                     (j < _capacity m ->
                      exists e, _buckets m !! Z.to_nat j = Some (Some e)
                                /\ is_tombstone e = false)).
Proof.
  intros Hlen Hi Hfuel.
  apply (sat_while
           (fun n (_ : unit) s =>
              exists j, i <= j <= Z.max (_capacity m) 0 /\ s = with_index j m /\
                live_pairs (drop (Z.to_nat i) (_buckets m))
                = live_pairs (drop (Z.to_nat j) (_buckets m))
                /\ n = Z.to_nat (_capacity m - j))
           _ _ _ (Z.to_nat (_capacity m - i))); [|assumption|].
  - exists i. repeat split; try lia.
  - intros n [] s (j & Hj & -> & Hpairs & ->).
    apply sat_bind, sat_get_self. unfold read_index. apply sat_bind, sat_bind, sat_get_self.
    simpl. apply sat_ret.
    destruct (Z.ltb_spec j (_capacity m)) as [Hlt|Hge].
    2:{ apply sat_ret. exists j. split; [lia|]. split; [reflexivity|].
        split; [assumption|]. intros; lia. }
    destruct (lookup_lt_is_Some_2 (_buckets m) (Z.to_nat j)) as [slot Hslot]; [lia|].
    apply sat_bind. eapply oa_sat_bucket_getitem; [lia|exact Hslot|].
    destruct (is_free slot) eqn:Hfree.
    + apply sat_bind, sat_set_index, sat_ret.
      exists (Z.to_nat (_capacity m - (j + 1))). split; [lia|].
      exists (j + 1). repeat split; try lia.
      rewrite Hpairs. replace (Z.to_nat (j + 1)) with (S (Z.to_nat j)) by lia.
      eapply live_pairs_drop_free; eassumption.
    + apply sat_ret. exists j. split; [lia|]. split; [reflexivity|].
      split; [assumption|].
      intros _. destruct slot as [e|]; [|discriminate]. eauto.
Qed.

(** One call of [__next__]: the next live entry, or [StopIteration]
    with the cursor at the end. *)
Lemma next_outcome_entry m (i : Z) :
  length (_buckets m) = Z.to_nat (_capacity m) ->
  0 <= i <= Z.max (_capacity m) 0 ->
  (exists j e, i <= j < _capacity m /\
     _buckets m !! Z.to_nat j = Some (Some e) /\ is_tombstone e = false /\
     live_pairs (drop (Z.to_nat i) (_buckets m))
     = (key e, value e) :: live_pairs (drop (Z.to_nat (j + 1)) (_buckets m)) /\
     __next__ (with_index i m) = Return (Some e) (with_index (j + 1) m)) \/
  (live_pairs (drop (Z.to_nat i) (_buckets m)) = [] /\
   __next__ (with_index i m)
   = Raise StopIteration (with_index (Z.max (_capacity m) 0) m)).
Proof.
  intros Hlen Hi.
  pose proof (sat_next_skip m i (S (Z.to_nat (_capacity m))) Hlen Hi ltac:(lia)) as Hskip.
  apply sat_returns in Hskip as ([] & s' & Hw & j & Hj & -> & Hpairs & Hlive).
  assert (Hnext : __next__ (with_index i m)
                  = try_except
                      (index <- read_index ;;
                       current_entry <- bucket_getitem index ;;
                       set_index (index + 1) ;;
                       ret current_entry)
                      DynamicArrayException (raise StopIteration)
                      (with_index j m)).
  { unfold __next__, bind at 1, get_self at 1. simpl _capacity.
    unfold bind at 1. rewrite Hw. reflexivity. }
  rewrite Hnext. clear Hnext Hw.
  unfold try_except, read_index, bucket_getitem, bind, get_self, ret.
  cbn [_index with_index _buckets].
  destruct (Z.lt_ge_cases j (_capacity m)) as [Hlt|Hge].
  - left. destruct (Hlive Hlt) as (e & Hslot & He).
    exists j, e. split; [lia|]. split; [assumption|]. split; [assumption|]. split.
    + rewrite Hpairs. replace (Z.to_nat (j + 1)) with (S (Z.to_nat j)) by lia.
      apply live_pairs_drop_live; assumption.
    + rewrite (getitem_lookup _ j _ ltac:(lia) Hslot). reflexivity.
  - right. split.
    + rewrite Hpairs, drop_ge by lia. reflexivity.
    + rewrite getitem_out_of_bounds by (right; rewrite Hlen; lia). simpl.
      replace j with (Z.max (_capacity m) 0) by lia. reflexivity.
Qed.

Lemma next_outcome m (i : Z) :
  length (_buckets m) = Z.to_nat (_capacity m) ->
  0 <= i <= Z.max (_capacity m) 0 ->
  (exists j e, i <= j < _capacity m /\ is_tombstone e = false /\
     live_pairs (drop (Z.to_nat i) (_buckets m))
     = (key e, value e) :: live_pairs (drop (Z.to_nat (j + 1)) (_buckets m)) /\
     __next__ (with_index i m) = Return (Some e) (with_index (j + 1) m)) \/
  (live_pairs (drop (Z.to_nat i) (_buckets m)) = [] /\
   __next__ (with_index i m)
   = Raise StopIteration (with_index (Z.max (_capacity m) 0) m)).
Proof.
  intros Hlen Hi.
  destruct (next_outcome_entry m i Hlen Hi)
    as [(j & e & Hj & _ & He & Hpairs & Hnext)|Hstop]; [left|right; exact Hstop].
  exists j, e. auto.
Qed.

(** [get_keys_and_values] returns the live pairs in slot order and
    leaves the cursor at the end of the array. *)
Lemma oa_sat_get_keys_and_values m :
  length (_buckets m) = Z.to_nat (_capacity m) ->
  sat get_keys_and_values m
    (fun r m' => r = live_pairs (_buckets m) /\
                 m' = with_index (Z.max (_capacity m) 0) m).
Proof.
  intros Hlen. unfold get_keys_and_values, for_in_self.
  apply sat_bind. eapply sat_conseq; [apply sat_iter; assumption|].
  intros [] s (i0 & Hi0 & -> & Hpairs0).
  apply sat_bind, sat_get_self. cbn [_buckets with_index].
  apply (sat_while
           (fun n acc s =>
              exists i, 0 <= i <= Z.max (_capacity m) 0 /\ s = with_index i m /\
                acc ++ live_pairs (drop (Z.to_nat i) (_buckets m))
                = live_pairs (_buckets m) /\
                n = S (Z.to_nat (Z.max (_capacity m) 0 - i)))
           _ _ _ (S (Z.to_nat (Z.max (_capacity m) 0 - i0)))).
  - exists i0. repeat split; try lia. exact Hpairs0.
  - rewrite Hlen. lia.
  - intros n acc s (i & Hi & -> & Hacc & ->).
    destruct (next_outcome m i Hlen Hi)
      as [(j & e & Hj & He & Hpairs & Hnext)|(Hpairs & Hnext)].
    + unfold sat, bind at 1, try_except, bind at 1. rewrite Hnext.
      unfold ret at 1. unfold bind at 1, ret at 1. unfold ret.
      exists (S (Z.to_nat (Z.max (_capacity m) 0 - (j + 1)))). split; [lia|].
      exists (j + 1). split; [lia|]. split; [reflexivity|]. split; [|reflexivity].
      unfold DynamicArray.append. rewrite <- Hacc, Hpairs, <- app_assoc. reflexivity.
    + unfold sat, bind at 1, try_except, bind at 1. rewrite Hnext.
      simpl. unfold ret. split; [|reflexivity].
      rewrite <- Hacc, Hpairs, app_nil_r. reflexivity.
Qed.

(** *** [clear], [__init__] and the start of a resize *)

Lemma oa_init_buckets (c : Z) (f : K -> Z) :
  _buckets (__init__ (V := V) c f) = replicate (Z.to_nat (_next_prime c)) None.
Proof.
  unfold __init__. cbn [_buckets]. rewrite foldl_append. unfold range.
  rewrite length_seqZ. reflexivity.
Qed.

Lemma oa_sat_clear m :
  length (_buckets m) = Z.to_nat (_capacity m) ->
  sat clear m
    (fun _ m' => m' = with_size 0
                        (with_buckets (replicate (length (_buckets m)) None) m)).
Proof.
  intros Hlen. unfold clear. apply sat_bind, sat_get_self. apply sat_bind.
  eapply sat_conseq.
  - apply (sat_for_range
             (fun i (_ : unit) s =>
                exists b', s = with_buckets b' m /\
                  length b' = length (_buckets m) /\
                  forall j : nat, Z.of_nat j < i -> b' !! j = Some None)).
    + exists (_buckets m). repeat split; [|lia]. destruct m; reflexivity.
    + intros i [] s Hi (b' & -> & Hlen' & Hnone).
      apply oa_sat_bucket_setitem; [cbn [_buckets with_buckets]; lia|].
      cbn [_buckets with_buckets].
      exists (<[Z.to_nat i := None]> b'). split; [reflexivity|].
      split; [rewrite length_insert; assumption|].
      intros j Hj. destruct (decide (j = Z.to_nat i)) as [->|Hne].
      * apply list_lookup_insert_eq. lia.
      * rewrite list_lookup_insert_ne by congruence. apply Hnone. lia.
  - intros [] s (b' & -> & Hlen' & Hnone). apply oa_sat_set_size.
    replace b' with (replicate (length (_buckets m)) (None : option (HashEntry K V)));
      [reflexivity|].
    apply list_eq. intros j.
    destruct (decide (j < length (_buckets m))%nat) as [Hj|Hj].
    + rewrite lookup_replicate_2 by assumption. symmetry. apply Hnone. lia.
    + rewrite !lookup_ge_None_2; [reflexivity|lia|rewrite length_replicate; lia].
Qed.

Lemma oa_sat_resize_table_with (put : K -> V -> M (HashMap K V) unit) (x : Z) m
  (Q : unit -> HashMap K V -> Prop) :
  length (_buckets m) = Z.to_nat (_capacity m) ->
  _size m <= x ->
  sat (refill put (live_pairs (_buckets m))) (oa_fresh (coerce x) m) Q ->
  sat (resize_table_with put x) m Q.
Proof.
  intros Hlen Hx Hfill. unfold resize_table_with.
  apply sat_bind, sat_get_self.
  destruct (Z.ltb_spec x (_size m)); [lia|].
  apply sat_bind. eapply sat_conseq; [apply oa_sat_get_keys_and_values; assumption|].
  intros r s [-> ->].
  apply sat_bind. eapply sat_conseq; [apply oa_sat_clear; assumption|].
  intros [] s ->. apply sat_bind. unfold set_buckets at 1.
  apply sat_bind, sat_get_self, sat_set_self.
  apply sat_bind. eapply sat_conseq.
  - apply (sat_for_range
             (fun i (_ : unit) s =>
                s = with_buckets (replicate (Z.to_nat i) None)
                      (with_size 0 (with_index (Z.max (_capacity m) 0) m)))).
    + reflexivity.
    + intros i [] s Hi ->. apply sat_bind, sat_get_self.
      unfold set_buckets. apply sat_bind, sat_get_self, sat_set_self.
      cbn [_buckets with_buckets]. unfold DynamicArray.append.
      rewrite replicate_snoc. replace (Z.to_nat (i + 1)) with (S (Z.to_nat i)) by lia.
      reflexivity.
  - intros [] s ->. apply sat_bind. unfold set_capacity.
    apply sat_bind, sat_get_self, sat_set_self.
    fold (coerce x).
    replace (Z.to_nat (Z.max (coerce x) 0)) with (Z.to_nat (coerce x)) by lia.
    exact Hfill.
Qed.

(** *** [put] *)

Lemma oa_put_unfold (fuel : nat) (k : K) (v : V) :
  put (S fuel) k v
  = (load <- table_load ;;
     (if Qle_bool (1 # 2) load then
        self <- get_self ;;
        resize_table_with (put fuel) (_next_prime (_capacity self * 2))
      else ret tt) ;;
     self <- get_self ;;
     index <- lift (py_mod (_hash_function self k) (_capacity self)) ;;
     while (S (Z.to_nat (_capacity self))) (put_round k v index) (0, index)).
Proof. reflexivity. Qed.

Lemma oa_sat_table_load m (Q : Q -> HashMap K V -> Prop) :
  _capacity m <> 0 ->
  Q (inject_Z (_size m) / inject_Z (_capacity m))%Q m ->
  sat table_load m Q.
Proof.
  intros Hc HQ. unfold table_load. apply sat_bind, sat_get_self.
  eapply sat_lift; [apply py_div_nonzero; assumption|exact HQ].
Qed.

(** Below the load threshold, [put] is one run of the probe loop. *)
Lemma oa_sat_put_below (fuel : nat) (k : K) (v : V) m :
  length (_buckets m) = Z.to_nat (_capacity m) ->
  0 < _capacity m -> 2 * _size m < _capacity m ->
  sat (put (S fuel) k v) m (fun _ m' => filled 1 m m').
Proof.
  intros Hlen Hcap Hload. rewrite oa_put_unfold.
  apply sat_bind, oa_sat_table_load; [lia|].
  rewrite Qle_bool_div by assumption.
  destruct (Z.leb_spec (1 * _capacity m) (_size m * 2)); [lia|].
  apply sat_bind, sat_ret. apply sat_bind, sat_get_self.
  apply sat_bind, sat_py_mod; [lia|].
  apply sat_put_probe; [assumption|lia| |lia].
  apply Z.mod_pos_bound. assumption.
Qed.

(** On a map of negative capacity, [put] returns without storing. *)
Lemma oa_put_negative_capacity (fuel : nat) (k : K) (v : V) m :
  _capacity m < 0 -> _size m = 0 -> put (S fuel) k v m = Return tt m.
Proof.
  intros Hcap Hsize. rewrite oa_put_unfold.
  unfold bind at 1, table_load, bind at 1, get_self at 1, py_div.
  destruct (Z.eqb_spec (_capacity m) 0); [lia|]. unfold lift at 1.
  rewrite Hsize, Qle_bool_div_zero by lia.
  unfold bind at 1, ret at 1, bind at 1, get_self at 1, bind at 1, py_mod.
  destruct (Z.eqb_spec (_capacity m) 0); [lia|]. unfold lift at 1.
  replace (Z.to_nat (_capacity m)) with O by lia.
  cbn [while]. unfold bind at 1, put_round, bind at 1, get_self at 1.
  destruct (Z.ltb_spec 0 (_capacity m)); [lia|]. reflexivity.
Qed.

(** Re-inserting at most [capacity / 2] pairs never resizes again. *)
Lemma sat_refill_below (fuel : nat) (pairs : list (K * V)) m :
  length (_buckets m) = Z.to_nat (_capacity m) ->
  0 < _capacity m ->
  2 * (_size m + Z.of_nat (length pairs)) < _capacity m + 2 ->
  sat (refill (put (S fuel)) pairs) m
      (fun _ m' => filled (Z.of_nat (length pairs)) m m').
Proof.
  intros Hlen Hcap Hload. eapply sat_conseq.
  - apply (sat_refill _
             (fun l s => filled (Z.of_nat (length pairs) - Z.of_nat (length l)) m s)).
    + rewrite Z.sub_diag. apply filled_refl.
    + intros kv l s Hs. pose proof Hs as (Hc & _ & _ & Hl & _ & Hsz & _).
      simpl length in *.
      eapply sat_conseq; [apply oa_sat_put_below; [congruence|lia|lia]|].
      intros [] s' Hs'. eapply filled_le; [eapply filled_trans; eassumption|lia].
  - intros [] s' Hs'. simpl in Hs'. rewrite Z.sub_0_r in Hs'. exact Hs'.
Qed.

Lemma fresh_tombstone_free (n : Z) m : tombstone_free (oa_fresh n m).
Proof.
  intros slot Hin _. unfold oa_fresh in Hin. cbn [_buckets] in Hin.
  apply elem_of_replicate in Hin as [-> _]. reflexivity.
Qed.

Lemma filled_tombstone_free (n : Z) m m' :
  filled n m m' -> tombstone_free m -> tombstone_free m'.
Proof.
  intros (_&_&_&_&_&_&Hslots) Hm slot Hin Hfree.
  destruct (Hslots slot Hin) as [Hold|Hlive]; [auto|congruence].
Qed.

Lemma oa_fresh_wf (n : Z) m :
  Z.prime n -> n mod 2 = 1 \/ n = 2 -> oa_wf (oa_fresh n m).
Proof.
  intros Hp Hodd. pose proof (Z.prime_ge_2 n Hp).
  split; unfold oa_fresh; cbn [_buckets _capacity _size].
  - apply length_replicate.
  - assumption.
  - auto.
  - rewrite live_count_replicate. reflexivity.
  - lia.
Qed.

Lemma filled_wf (n : Z) m m' :
  oa_wf m -> filled n m m' ->
  (0 < _capacity m -> 2 * (_size m' - 1) < _capacity m) -> oa_wf m'.
Proof.
  intros [Hlen Hodd Hprime Hsize Hload] (Hc & _ & _ & Hl & Hlive & Hsz & _) Hload'.
  split; rewrite ?Hc; auto; try congruence; lia.
Qed.

Lemma oa_sat_put_load (fuel : nat) (k : K) (v : V) m :
  oa_wf m -> 0 < _capacity m ->
  sat (put (S (S fuel)) k v) m
      (fun _ m' => oa_put_post m m' /\ oa_put_load m m').
Proof.
  intros Hwf Hcap. pose proof Hwf as [Hlen Hodd Hprime Hsize Hload].
  pose proof (Z.prime_ge_2 _ (Hprime Hcap)) as Hge2.
  rewrite oa_put_unfold.
  apply sat_bind, oa_sat_table_load; [lia|].
  rewrite Qle_bool_div by assumption.
  destruct (Z.leb_spec (1 * _capacity m) (_size m * 2)) as [Hfull|Hlow].
  - destruct (next_prime_double _ Hcap) as (Hp & Hgt & Hnodd & Hacc).
    pose proof (live_count_bounds (_buckets m)) as Hlive.
    pose proof (live_pairs_length (_buckets m)) as Hpairs.
    apply sat_bind. apply sat_bind, sat_get_self.
    apply oa_sat_resize_table_with; [assumption|lia|].
    rewrite (coerce_accepted _ Hacc).
    eapply sat_conseq.
    { apply sat_refill_below; unfold oa_fresh; cbn [_buckets _capacity _size].
      - apply length_replicate.
      - lia.
      - lia. }
    intros [] m1 Hm1. pose proof Hm1 as (Hc1 & Hh1 & _ & Hl1 & Hlive1 & Hsz1 & _).
    unfold oa_fresh in Hc1, Hh1, Hl1, Hlive1, Hsz1.
    cbn [_buckets _capacity _size _hash_function] in Hc1, Hh1, Hl1, Hlive1, Hsz1.
    rewrite live_count_replicate in Hlive1. rewrite length_replicate in Hl1.
    apply sat_bind, sat_get_self. apply sat_bind, sat_py_mod; [lia|].
    eapply sat_conseq.
    { apply sat_put_probe; [lia|lia| |lia]. apply Z.mod_pos_bound. lia. }
    intros [] m' Hm'. pose proof Hm' as (Hc' & Hh' & _ & Hl' & Hlive' & Hsz' & _).
    split; [|right; lia].
    split; [|split; [lia|split; [congruence|split; [lia|]]]].
    + split; rewrite ?Hc', ?Hc1; auto; try lia.
    + intros _. eapply filled_tombstone_free; [exact Hm'|].
      eapply filled_tombstone_free; [exact Hm1|]. apply fresh_tombstone_free.
  - apply sat_bind, sat_ret. apply sat_bind, sat_get_self.
    apply sat_bind, sat_py_mod; [lia|].
    eapply sat_conseq.
    { apply sat_put_probe; [assumption|lia| |lia]. apply Z.mod_pos_bound. lia. }
    intros [] m' Hm'. pose proof Hm' as (Hc' & Hh' & _ & Hl' & Hlive' & Hsz' & _).
    split; [|left; lia].
    split; [|split; [lia|split; [congruence|split; [lia|]]]].
    + eapply filled_wf; [exact Hwf|exact Hm'|lia].
    + apply (filled_tombstone_free _ _ _ Hm').
Qed.

Lemma oa_sat_put (fuel : nat) (k : K) (v : V) m :
  oa_wf m -> 0 < _capacity m ->
  sat (put (S (S fuel)) k v) m (fun _ m' => oa_put_post m m').
Proof.
  intros Hwf Hcap. eapply sat_conseq; [apply oa_sat_put_load; assumption|].
  intros [] m' [Hpost _]. exact Hpost.
Qed.

(** The rebuild: re-inserting the live pairs into the fresh table. *)
Lemma oa_sat_rebuild (fuel : nat) (x : Z) m :
  oa_wf m -> _size m <= x ->
  sat (refill (put (S (S fuel))) (live_pairs (_buckets m)))
      (oa_fresh (coerce x) m) (fun _ m' => oa_resize_post x m m').
Proof.
  intros Hwf Hx. pose proof Hwf as [Hlen Hodd Hprime Hsize Hload].
  pose proof (live_count_bounds (_buckets m)) as Hlive.
  pose proof (live_pairs_length (_buckets m)) as Hpairs.
  destruct (coerce_prime x ltac:(lia)) as [Hcp Hcx].
  pose proof (Z.prime_ge_2 _ Hcp).
  eapply sat_conseq.
  - apply (sat_refill _
             (fun l s => oa_wf s /\ coerce x <= _capacity s /\
                         _hash_function s = _hash_function m /\
                         _size s + Z.of_nat (length l) <= _size m /\
                         tombstone_free s)).
    + split; [apply oa_fresh_wf; [assumption|apply coerce_odd]|].
      split; [reflexivity|]. split; [reflexivity|].
      split; [cbn [oa_fresh _size]; lia|apply fresh_tombstone_free].
    + intros kv l s (Hs & Hcs & Hhs & Hss & Hts). simpl length in Hss.
      eapply sat_conseq; [apply oa_sat_put; [assumption|lia]|].
      intros [] s' (Hs' & Hc' & Hh' & Hsz' & Ht').
      split; [assumption|]. split; [lia|]. split; [congruence|]. split; [lia|auto].
  - intros [] s' (Hs' & Hc' & Hh' & Hsz' & Ht'). simpl in Hsz'.
    split; [assumption|]. split; [assumption|]. split; [assumption|]. split; [lia|assumption].
Qed.

Lemma oa_sat_resize_table (fuel : nat) (x : Z) m :
  oa_wf m -> _size m <= x ->
  sat (resize_table (S (S (S fuel))) x) m
      (fun _ m' =>
         refill (put (S (S fuel))) (live_pairs (_buckets m))
           (oa_fresh (coerce x) m) = Return tt m' /\
         oa_resize_post x m m').
Proof.
  intros Hwf Hx. cbn [resize_table].
  apply oa_sat_resize_table_with; [apply Hwf|assumption|].
  eapply sat_conseq; [apply sat_self, oa_sat_rebuild; assumption|].
  intros [] m' Hm'. exact Hm'.
Qed.

Lemma oa_resize_table_rejected (fuel : nat) (x : Z) m :
  x < _size m -> resize_table (S fuel) x m = Return tt m.
Proof.
  intros Hx. cbn [resize_table]. unfold resize_table_with, bind, get_self.
  destruct (Z.ltb_spec x (_size m)); [reflexivity|lia].
Qed.

(** *** [remove] and the observers *)

Local Ltac probe_next m probe :=
  apply sat_bind, sat_next_probe; [assumption|]; apply sat_ret;
  exists (Z.to_nat (_capacity m - (probe + 1))); split; [lia|];
  cbn beta iota; repeat split; try lia; apply Z.mod_pos_bound; lia.

Lemma oa_sat_remove (k : K) m :
  oa_wf m ->
  sat (remove k) m
      (fun _ m' => oa_wf m' /\ _capacity m' = _capacity m /\
                   _hash_function m' = _hash_function m /\
                   _size m - 1 <= _size m' <= _size m).
Proof.
  intros Hwf. pose proof Hwf as [Hlen Hodd Hprime Hsize Hload].
  assert (Hc0 : _capacity m <> 0) by (destruct Hodd as [E|E]; rewrite ?E; [intros E0; rewrite E0 in E; discriminate|lia]).
  unfold remove. apply sat_bind, sat_get_self. apply sat_bind, sat_py_mod; [assumption|].
  set (h := _hash_function m k mod _capacity m).
  apply (sat_while
           (fun n '(probe, index) s =>
              s = m /\ 0 <= probe /\ (0 < _capacity m -> 0 <= index < _capacity m) /\
              n = Z.to_nat (_capacity m - probe))
           _ _ _ (Z.to_nat (_capacity m))).
  - repeat split; try lia; apply Z.mod_pos_bound; assumption.
  - lia.
  - intros n [probe index] s (-> & Hprobe & Hindex & ->).
    apply sat_bind, sat_get_self.
    destruct (Z.ltb_spec probe (_capacity m)) as [Hlt|Hge].
    2:{ apply sat_ret. split; [assumption|]. split; [reflexivity|].
        split; [reflexivity|lia]. }
    specialize (Hindex ltac:(lia)).
    destruct (lookup_lt_is_Some_2 (_buckets m) (Z.to_nat index)) as [slot Hslot];
      [lia|].
    apply sat_bind. eapply oa_sat_bucket_getitem; [lia|exact Hslot|].
    destruct slot as [e|]; [|probe_next m probe].
    destruct (bool_decide (key e = k) && negb (is_tombstone e)) eqn:Hmatch;
      [|probe_next m probe].
    apply andb_prop in Hmatch as [_ Hlive]. apply negb_true_iff in Hlive.
    apply sat_bind. eapply sat_entry_update; [lia|exact Hslot|].
    apply sat_bind, sat_get_self. apply sat_bind, oa_sat_set_size, sat_ret.
    cbn [with_size with_buckets _buckets _capacity _size _hash_function].
    split; [|split; [reflexivity|split; [reflexivity|lia]]].
    split; cbn [with_size with_buckets _buckets _capacity _size _hash_function];
      auto.
    + rewrite length_insert. assumption.
    + rewrite (live_count_insert _ _ _ _ Hslot). simpl. rewrite Hlive. lia.
    + intros Hpos. specialize (Hload Hpos). lia.
Qed.

Lemma oa_capacity_nonzero m : oa_wf m -> _capacity m <> 0.
Proof.
  intros [_ [E|E] _ _ _]; [|lia]. intros E0. rewrite E0 in E. discriminate.
Qed.

Lemma oa_sat_get (k : K) m :
  oa_wf m -> sat (get k) m (fun _ m' => m' = m).
Proof.
  intros Hwf. pose proof Hwf as [Hlen Hodd Hprime Hsize Hload].
  pose proof (oa_capacity_nonzero m Hwf) as Hc0.
  unfold get. apply sat_bind, sat_get_self. apply sat_bind, sat_py_mod; [assumption|].
  set (h := _hash_function m k mod _capacity m).
  apply (sat_while
           (fun n '(probe, index) s =>
              s = m /\ 0 <= probe /\ (0 < _capacity m -> 0 <= index < _capacity m) /\
              n = Z.to_nat (_capacity m - probe))
           _ _ _ (Z.to_nat (_capacity m))).
  - repeat split; try lia; apply Z.mod_pos_bound; assumption.
  - lia.
  - intros n [probe index] s (-> & Hprobe & Hindex & ->).
    apply sat_bind, sat_get_self.
    destruct (Z.ltb_spec probe (_capacity m)) as [Hlt|Hge]; [|apply sat_ret; reflexivity].
    specialize (Hindex ltac:(lia)).
    destruct (lookup_lt_is_Some_2 (_buckets m) (Z.to_nat index)) as [slot Hslot];
      [lia|].
    apply sat_bind. eapply oa_sat_bucket_getitem; [lia|exact Hslot|].
    destruct slot as [e|]; [|probe_next m probe].
    destruct (negb (is_tombstone e) && bool_decide (key e = k));
      [apply sat_ret; reflexivity|probe_next m probe].
Qed.

Lemma oa_sat_contains_key (k : K) m :
  oa_wf m -> sat (contains_key k) m (fun _ m' => m' = m).
Proof.
  intros Hwf. pose proof Hwf as [Hlen Hodd Hprime Hsize Hload].
  pose proof (oa_capacity_nonzero m Hwf) as Hc0.
  unfold contains_key. apply sat_bind, sat_get_self.
  apply sat_bind, sat_py_mod; [assumption|].
  set (h := _hash_function m k mod _capacity m).
  apply (sat_while
           (fun n '(probe, index) s =>
              s = m /\ 0 <= probe /\ (0 < _capacity m -> 0 <= index < _capacity m) /\
              n = Z.to_nat (_capacity m - probe))
           _ _ _ (Z.to_nat (_capacity m))).
  - repeat split; try lia; apply Z.mod_pos_bound; assumption.
  - lia.
  - intros n [probe index] s (-> & Hprobe & Hindex & ->).
    apply sat_bind, sat_get_self.
    destruct (Z.ltb_spec probe (_capacity m)) as [Hlt|Hge]; [|apply sat_ret; reflexivity].
    specialize (Hindex ltac:(lia)).
    destruct (lookup_lt_is_Some_2 (_buckets m) (Z.to_nat index)) as [slot Hslot];
      [lia|].
    apply sat_bind. eapply oa_sat_bucket_getitem; [lia|exact Hslot|].
    destruct slot as [e|]; [|probe_next m probe].
    destruct (bool_decide (key e = k) && negb (is_tombstone e));
      [apply sat_ret; reflexivity|probe_next m probe].
Qed.

Lemma oa_sat_empty_buckets m :
  length (_buckets m) = Z.to_nat (_capacity m) ->
  sat empty_buckets m (fun r m' => r = free_count (_buckets m) /\ m' = m).
Proof.
  intros Hlen. unfold empty_buckets. apply sat_bind, sat_get_self.
  eapply sat_conseq.
  - apply (sat_for_range
             (fun i count s =>
                s = m /\ count = free_count (take (Z.to_nat i) (_buckets m)))).
    + split; reflexivity.
    + intros i count s Hi [-> ->].
      destruct (lookup_lt_is_Some_2 (_buckets m) (Z.to_nat i)) as [slot Hslot];
        [lia|].
      apply sat_bind. eapply oa_sat_bucket_getitem; [lia|exact Hslot|].
      replace (Z.to_nat (i + 1)) with (S (Z.to_nat i)) by lia.
      rewrite (take_S_r _ _ _ Hslot), free_count_app. simpl.
      destruct (is_free slot); apply sat_ret; split; auto; lia.
  - intros r s [-> ->]. split; [|reflexivity].
    rewrite take_ge by lia. reflexivity.
Qed.

(** *** Fuel *)

Lemma oa_resize_table_with_fuel_le (put1 put2 : K -> V -> M (HashMap K V) unit)
  (x : Z) m :
  (forall k v s, fuel_le (put1 k v s) (put2 k v s)) ->
  fuel_le (resize_table_with put1 x m) (resize_table_with put2 x m).
Proof.
  intros Hput. unfold resize_table_with.
  apply fuel_le_bind; [apply fuel_le_refl|]. intros self s1.
  destruct (x <? _size self); [apply fuel_le_refl|].
  apply fuel_le_bind; [apply fuel_le_refl|]. intros da s2.
  apply fuel_le_bind; [apply fuel_le_refl|]. intros [] s3.
  apply fuel_le_bind; [apply fuel_le_refl|]. intros [] s4.
  apply fuel_le_bind; [apply fuel_le_refl|]. intros [] s5.
  apply fuel_le_bind; [apply fuel_le_refl|]. intros [] s6.
  apply fuel_le_for_each. intros pair [] s7.
  apply fuel_le_bind; [apply fuel_le_refl|]. intros kv s8. apply Hput.
Qed.

Lemma oa_put_fuel_succ (fuel : nat) (k : K) (v : V) m :
  fuel_le (put fuel k v m) (put (S fuel) k v m).
Proof.
  revert k v m. induction fuel as [|fuel IH]; intros k v m; [left; reflexivity|].
  rewrite !oa_put_unfold.
  apply fuel_le_bind; [apply fuel_le_refl|]. intros load s1.
  apply fuel_le_bind; [|intros; apply fuel_le_refl].
  destruct (Qle_bool (1 # 2) load); [|apply fuel_le_refl].
  apply fuel_le_bind; [apply fuel_le_refl|]. intros self s2.
  apply oa_resize_table_with_fuel_le. exact IH.
Qed.

Lemma oa_put_fuel_le (fuel fuel' : nat) (k : K) (v : V) m :
  (fuel <= fuel')%nat -> fuel_le (put fuel k v m) (put fuel' k v m).
Proof.
  induction 1 as [|fuel' _ IH]; [apply fuel_le_refl|].
  eapply fuel_le_trans; [exact IH|apply oa_put_fuel_succ].
Qed.

Lemma oa_resize_table_fuel_le (fuel fuel' : nat) (x : Z) m :
  (fuel <= fuel')%nat ->
  fuel_le (resize_table fuel x m) (resize_table fuel' x m).
Proof.
  intros Hle. destruct fuel as [|fuel]; [left; reflexivity|].
  destruct fuel' as [|fuel']; [lia|]. cbn [resize_table].
  apply oa_resize_table_with_fuel_le. intros k v s. apply oa_put_fuel_le. lia.
Qed.

(** *** Iteration only moves the cursor *)

Lemma same_but_index_refl m : same_but_index m m.
Proof. repeat split. Qed.

Lemma same_but_index_trans m1 m2 m3 :
  same_but_index m1 m2 -> same_but_index m2 m3 -> same_but_index m1 m3.
Proof. unfold same_but_index. intros (?&?&?&?) (?&?&?&?). repeat split; congruence. Qed.

Lemma same_but_index_wf m m' : same_but_index m m' -> oa_wf m -> oa_wf m'.
Proof.
  intros (Hb & Hc & Hh & Hs) [Hlen Hodd Hprime Hsize Hload].
  split; rewrite ?Hb, ?Hc, ?Hs; assumption.
Qed.

Lemma keeps_set_index (i : Z) : keeps same_but_index (set_index (K := K) (V := V) i).
Proof. intros s s' [= <-]. repeat split. Qed.

Local Ltac keeps_index :=
  repeat first
    [ apply keeps_set_index
    | apply (keeps_ret _ same_but_index_refl)
    | apply (keeps_raise _ same_but_index_refl)
    | apply (keeps_get_self _ same_but_index_refl)
    | apply (keeps_lift _ same_but_index_refl)
    | apply (keeps_bind _ same_but_index_trans)
    | apply (keeps_try_except _ same_but_index_trans)
    | apply (keeps_while _ same_but_index_refl same_but_index_trans)
    | match goal with
      | |- forall _, _ => intros ?
      | |- keeps _ (if ?c then _ else _) => destruct c
      | |- keeps _ (match ?c with _ => _ end) => destruct c
      end ].

Lemma keeps_iter : keeps same_but_index (__iter__ (K := K) (V := V)).
Proof. unfold __iter__, read_index, bucket_getitem. keeps_index. Qed.

Lemma keeps_next : keeps same_but_index (__next__ (K := K) (V := V)).
Proof. unfold __next__, read_index, bucket_getitem. keeps_index. Qed.

(** *** Every reachable state satisfies the invariant *)

Lemma oa_init_wf (c : Z) (f : K -> Z) : oa_wf (__init__ (V := V) c f).
Proof.
  destruct (next_prime_accepts c) as (Hacc & Hge & Hodd).
  split.
  - rewrite oa_init_buckets. apply length_replicate.
  - left. exact Hodd.
  - intros Hpos. apply is_prime_spec; [cbn [__init__ _capacity] in *; lia|exact Hacc].
  - rewrite oa_init_buckets, live_count_replicate. reflexivity.
  - cbn [__init__ _capacity _size]. lia.
Qed.

Lemma wf_negative_size m : oa_wf m -> _capacity m < 0 -> _size m = 0.
Proof.
  intros [Hlen _ _ Hsize _] Hneg. rewrite Hsize.
  destruct (_buckets m); [reflexivity|simpl in Hlen; lia].
Qed.

Lemma oa_clear_wf m :
  oa_wf m ->
  oa_wf (with_size 0 (with_buckets (replicate (length (_buckets m)) None) m)).
Proof.
  intros [Hlen Hodd Hprime Hsize Hload].
  split; cbn [with_size with_buckets _buckets _capacity _size]; auto.
  - rewrite length_replicate. assumption.
  - rewrite live_count_replicate. reflexivity.
  - lia.
Qed.

Lemma oa_put_final_wf (fuel : nat) (k : K) (v : V) m m' :
  oa_wf m -> final (put fuel k v m) = Some m' ->
  oa_wf m' /\ (0 < _capacity m -> oa_put_post m m') /\
  (_capacity m < 0 -> m' = m).
Proof.
  intros Hwf Hfin. pose proof (oa_capacity_nonzero m Hwf) as Hc0.
  destruct (Z.lt_ge_cases 0 (_capacity m)) as [Hpos|Hneg].
  - apply (fuel_le_final _ _ _ (oa_put_fuel_le fuel (S (S fuel)) k v m ltac:(lia)))
      in Hfin.
    destruct (sat_final _ _ _ _ (oa_sat_put fuel k v m Hwf Hpos) Hfin) as [_ Hpost].
    split; [apply Hpost|]. split; [auto|lia].
  - destruct fuel as [|fuel]; [discriminate|].
    rewrite oa_put_negative_capacity in Hfin;
      [|lia|apply wf_negative_size; [assumption|lia]].
    injection Hfin as <-. split; [assumption|]. split; [lia|reflexivity].
Qed.

Lemma oa_resize_table_final_wf (fuel : nat) (x : Z) m m' :
  oa_wf m -> final (resize_table fuel x m) = Some m' ->
  oa_wf m' /\ (x < _size m -> m' = m) /\
  (_size m <= x -> oa_resize_post x m m').
Proof.
  intros Hwf Hfin.
  destruct (Z.lt_ge_cases x (_size m)) as [Hlt|Hge].
  - destruct fuel as [|fuel]; [discriminate|].
    rewrite oa_resize_table_rejected in Hfin by assumption.
    injection Hfin as <-. split; [assumption|]. split; [reflexivity|lia].
  - apply (fuel_le_final _ _ _
             (oa_resize_table_fuel_le fuel (S (S (S fuel))) x m ltac:(lia))) in Hfin.
    destruct (sat_final _ _ _ _ (oa_sat_resize_table fuel x m Hwf Hge) Hfin)
      as [_ [_ Hpost]].
    split; [apply Hpost|]. split; [lia|auto].
Qed.

Lemma oa_after_wf (fuel : nat) (c : method K V) m m' :
  oa_wf m -> after fuel c m = Some m' -> oa_wf m'.
Proof.
  intros Hwf Hafter. pose proof Hwf as [Hlen Hodd Hprime Hsize Hload].
  pose proof (oa_capacity_nonzero m Hwf) as Hc0.
  destruct c as [k v|k|k|k| |x| | | | | | |]; cbn [after] in Hafter.
  - exact (proj1 (oa_put_final_wf fuel k v m m' Hwf Hafter)).
  - destruct (sat_final _ _ _ _ (oa_sat_get k m Hwf) Hafter) as [_ ->]. assumption.
  - destruct (sat_final _ _ _ _ (oa_sat_contains_key k m Hwf) Hafter) as [_ ->].
    assumption.
  - destruct (sat_final _ _ _ _ (oa_sat_remove k m Hwf) Hafter) as [_ Hpost].
    apply Hpost.
  - destruct (sat_final _ _ _ _ (oa_sat_clear m Hlen) Hafter) as [_ ->].
    apply oa_clear_wf. assumption.
  - exact (proj1 (oa_resize_table_final_wf fuel x m m' Hwf Hafter)).
  - assert (Hl : sat table_load m (fun _ m' => m' = m))
      by (apply oa_sat_table_load; [assumption|reflexivity]).
    destruct (sat_final _ _ _ _ Hl Hafter) as [_ ->]. assumption.
  - destruct (sat_final _ _ _ _ (oa_sat_empty_buckets m Hlen) Hafter) as [_ [_ ->]].
    assumption.
  - injection Hafter as <-. assumption.
  - injection Hafter as <-. assumption.
  - destruct (sat_final _ _ _ _ (oa_sat_get_keys_and_values m Hlen) Hafter)
      as [_ [_ ->]].
    eapply same_but_index_wf; [|exact Hwf]. repeat split.
  - eapply same_but_index_wf; [|exact Hwf]. apply (keeps_iter _ _ Hafter).
  - eapply same_but_index_wf; [|exact Hwf]. apply (keeps_next _ _ Hafter).
Qed.

Lemma oa_reachable_wf m : reachable m -> oa_wf m.
Proof.
  induction 1 as [c f|m m' fuel c _ IH Hafter].
  - apply oa_init_wf.
  - eapply oa_after_wf; eassumption.
Qed.

(** *** What [put] stores, [get] finds *)

(** Quadratic probes from one home index do not meet again before half
    of a prime capacity is probed. *)
Lemma quadratic_probes_distinct (p h i j : Z) :
  Z.prime p -> 0 <= i < j -> i + j < p ->
  (h + i ^ 2) mod p <> (h + j ^ 2) mod p.
Proof.
  intros Hp Hij Hsum Heq. symmetry in Heq.
  apply Z.cong_iff_ex in Heq as [n Hn].
  assert (Hdiv : (p | (j - i) * (j + i))) by (exists n; lia).
  apply Z.divide_prime_mul in Hdiv as [Hd|Hd]; [| |assumption];
    apply Z.divide_pos_le in Hd; lia.
Qed.

(** As many live slots as quadratic probes that all meet one. *)
Lemma live_probes (p h : Z) (n : nat) b :
  Z.prime p -> 2 * Z.of_nat n < p + 2 ->
  (forall i, 0 <= i < Z.of_nat n ->
     exists slot, b !! Z.to_nat ((h + i ^ 2) mod p) = Some slot /\
                  is_free slot = false) ->
  Z.of_nat n <= live_count b.
Proof.
  intros Hp. pose proof (Z.prime_ge_2 p Hp) as Hp2.
  revert b. induction n as [|n IH]; intros b Hn Hlive.
  - apply live_count_bounds.
  - destruct (Hlive (Z.of_nat n) ltac:(lia)) as (slot & Hslot & Hfree).
    pose proof (live_count_insert b _ slot None Hslot) as Hcount.
    rewrite Hfree in Hcount. simpl in Hcount.
    enough (Z.of_nat n <= live_count (<[Z.to_nat ((h + Z.of_nat n ^ 2) mod p) := None]> b))
      by lia.
    apply IH; [lia|]. intros i Hi.
    destruct (Hlive i ltac:(lia)) as (slot' & Hslot' & Hfree').
    exists slot'. split; [|assumption].
    rewrite list_lookup_insert_ne; [assumption|].
    pose proof (quadratic_probes_distinct p h i (Z.of_nat n) Hp ltac:(lia) ltac:(lia)).
    pose proof (Z.mod_pos_bound (h + i ^ 2) p ltac:(lia)).
    pose proof (Z.mod_pos_bound (h + Z.of_nat n ^ 2) p ltac:(lia)).
    lia.
Qed.

(** On a table loaded below one half, the probe loop of [put] stores
    the pair where [get] will look for it. *)
Lemma sat_put_probe_stores (k : K) (v : V) m :
  length (_buckets m) = Z.to_nat (_capacity m) ->
  Z.prime (_capacity m) ->
  _size m = live_count (_buckets m) ->
  2 * _size m < _capacity m ->
  sat (while (S (Z.to_nat (_capacity m)))
         (put_round k v (_hash_function m k mod _capacity m))
         (0, _hash_function m k mod _capacity m)) m
      (fun _ m' => filled 1 m m' /\ exists j, stored_at k v m' j).
Proof.
  intros Hlen Hp Hsize Hload. pose proof (Z.prime_ge_2 _ Hp) as Hp2.
  set (h := _hash_function m k mod _capacity m).
  assert (Hidx : forall i, 0 <= probe_index m k i < _capacity m)
    by (intros i; apply Z.mod_pos_bound; lia).
  apply (sat_while
           (fun n '(probe, index) s =>
              s = m /\ 0 <= probe <= _size m /\ index = probe_index m k probe /\
              (forall i, 0 <= i < probe ->
                 exists e, _buckets m !! Z.to_nat (probe_index m k i) = Some (Some e)
                           /\ is_tombstone e = false /\ key e <> k) /\
              n = Z.to_nat (_capacity m - probe))
           _ _ _ (Z.to_nat (_capacity m))).
  - split; [reflexivity|]. pose proof (live_count_bounds (_buckets m)).
    split; [lia|]. split; [|split; [intros; lia|lia]].
    unfold probe_index. fold h. unfold h. rewrite Z.add_0_r, Z.mod_mod by lia.
    reflexivity.
  - lia.
  - intros n [probe index] s (-> & Hprobe & -> & Hbefore & ->).
    unfold put_round. apply sat_bind, sat_get_self.
    destruct (Z.ltb_spec probe (_capacity m)) as [Hlt|Hge]; [|lia].
    specialize (Hidx probe) as Hi.
    destruct (lookup_lt_is_Some_2 (_buckets m) (Z.to_nat (probe_index m k probe)))
      as [slot Hslot]; [lia|].
    assert (Hother : forall i, 0 <= i < probe ->
              Z.to_nat (probe_index m k probe) <> Z.to_nat (probe_index m k i)).
    { intros i Hilt.
      pose proof (quadratic_probes_distinct (_capacity m) h i probe Hp
                    ltac:(lia) ltac:(lia)) as Hne.
      pose proof (Hidx i) as Hii. unfold probe_index in Hi, Hii |- *.
      fold h in Hi, Hii |- *. lia. }
    assert (Hkeep : forall slot' m',
              _buckets m' = <[Z.to_nat (probe_index m k probe) := slot']> (_buckets m) ->
              _capacity m' = _capacity m -> _hash_function m' = _hash_function m ->
              (exists e, slot' = Some e /\ is_tombstone e = false /\
                         key e = k /\ value e = v) ->
              exists j, stored_at k v m' j).
    { intros slot' m' Hb Hc Hh (e & -> & He).
      exists probe. unfold stored_at, probe_index. rewrite Hb, Hc, Hh.
      fold h. fold (probe_index m k probe).
      split; [lia|]. split.
      - intros i Hilt. fold (probe_index m k i).
        rewrite list_lookup_insert_ne by (apply Hother; assumption).
        apply Hbefore. assumption.
      - exists e. rewrite list_lookup_insert_eq by lia. auto. }
    apply sat_bind. eapply oa_sat_bucket_getitem; [lia|exact Hslot|].
    destruct (is_free slot) eqn:Hfree.
    + apply sat_bind, oa_sat_bucket_setitem; [lia|].
      apply sat_bind. eapply sat_entry_update; [lia| |].
      { simpl. apply list_lookup_insert_eq. lia. }
      apply sat_bind, sat_get_self. apply sat_bind, oa_sat_set_size, sat_ret.
      split.
      * unfold filled. simpl. rewrite list_insert_insert_eq, length_insert.
        rewrite (live_count_insert _ _ _ _ Hslot), Hfree. simpl.
        repeat split; auto; try lia.
        intros slot' Hin. apply elem_of_insert_inv in Hin as [Hin| ->]; auto.
      * eapply Hkeep; [simpl; rewrite list_insert_insert_eq; reflexivity
                      |reflexivity|reflexivity|].
        eexists. split; [reflexivity|]. simpl. auto.
    + destruct slot as [e|]; [|discriminate]. simpl in Hfree.
      destruct (decide (key e = k)) as [Hk|Hk].
      * apply sat_bind. eapply sat_entry_update; [lia|exact Hslot|].
        apply sat_ret. split.
        -- unfold filled. simpl. rewrite length_insert.
           rewrite (live_count_insert _ _ _ _ Hslot). simpl. rewrite Hfree.
           repeat split; auto; try lia.
           intros slot' Hin. apply elem_of_insert_inv in Hin as [Hin| ->]; auto.
        -- eapply Hkeep; [reflexivity|reflexivity|reflexivity|].
           eexists. split; [reflexivity|]. simpl. auto.
      * assert (Hnext : probe + 1 <= _size m).
        { rewrite Hsize.
          replace (probe + 1) with (Z.of_nat (Z.to_nat (probe + 1))) by lia.
          apply (live_probes (_capacity m) h); [assumption|lia|].
          intros i Hilt. fold (probe_index m k i).
          destruct (Z.eq_dec i probe) as [->|Hne].
          - exists (Some e). split; [assumption|exact Hfree].
          - destruct (Hbefore i ltac:(lia)) as (e' & He' & Hlive' & _).
            exists (Some e'). split; [assumption|exact Hlive']. }
        apply sat_bind, sat_next_probe; [lia|]. apply sat_ret.
        exists (Z.to_nat (_capacity m - (probe + 1))).
        split; [lia|]. split; [reflexivity|]. split; [lia|].
        split; [reflexivity|]. split; [|reflexivity].
        intros i Hilt. destruct (Z.eq_dec i probe) as [->|Hne].
        -- exists e. auto.
        -- apply Hbefore. lia.
Qed.

(** [get] and [contains_key] find what is stored along the probes. *)
Lemma oa_get_stored (k : K) (v : V) m (j : Z) :
  stored_at k v m j ->
  get k m = Return (Some v) m /\ contains_key k m = Return true m.
Proof.
  intros (Hj & Hbefore & e & He & Hlive & Hkey & Hval).
  assert (Hc0 : _capacity m <> 0) by lia.
  assert (Hidx : forall i, 0 <= probe_index m k i < _capacity m)
    by (intros i; apply Z.mod_pos_bound; lia).
  assert (H0 : _hash_function m k mod _capacity m = probe_index m k 0).
  { unfold probe_index. rewrite Z.add_0_r, Z.mod_mod by lia. reflexivity. }
  split.
  - enough (sat (get k) m (fun r m' => r = Some v /\ m' = m)) as Hsat.
    { apply sat_returns in Hsat as (r & m' & Hret & -> & ->). exact Hret. }
    unfold get. apply sat_bind, sat_get_self.
    apply sat_bind, sat_py_mod; [assumption|].
    apply (sat_while
             (fun n '(probe, index) s =>
                s = m /\ 0 <= probe <= j /\ index = probe_index m k probe /\
                n = Z.to_nat (_capacity m - probe))
             _ _ _ (Z.to_nat (_capacity m))).
    + repeat split; try lia; exact H0.
    + lia.
    + intros n [probe index] s (-> & Hprobe & -> & ->).
      apply sat_bind, sat_get_self.
      destruct (Z.ltb_spec probe (_capacity m)) as [Hlt|Hge]; [|lia].
      destruct (Z.eq_dec probe j) as [->|Hne].
      * apply sat_bind. eapply oa_sat_bucket_getitem;
          [apply Hidx|exact He|]. cbn beta iota.
        rewrite Hlive, bool_decide_eq_true_2 by assumption. simpl.
        apply sat_ret. rewrite Hval. auto.
      * destruct (Hbefore probe ltac:(lia)) as (e' & He' & Hlive' & Hkey').
        apply sat_bind. eapply oa_sat_bucket_getitem;
          [apply Hidx|exact He'|]. cbn beta iota.
        rewrite Hlive', bool_decide_eq_false_2 by assumption. simpl.
        apply sat_bind, sat_next_probe; [assumption|]. apply sat_ret.
        exists (Z.to_nat (_capacity m - (probe + 1))).
        split; [lia|]. repeat split; lia.
  - enough (sat (contains_key k) m (fun r m' => r = true /\ m' = m)) as Hsat.
    { apply sat_returns in Hsat as (r & m' & Hret & -> & ->). exact Hret. }
    unfold contains_key. apply sat_bind, sat_get_self.
    apply sat_bind, sat_py_mod; [assumption|].
    apply (sat_while
             (fun n '(probe, index) s =>
                s = m /\ 0 <= probe <= j /\ index = probe_index m k probe /\
                n = Z.to_nat (_capacity m - probe))
             _ _ _ (Z.to_nat (_capacity m))).
    + repeat split; try lia; exact H0.
    + lia.
    + intros n [probe index] s (-> & Hprobe & -> & ->).
      apply sat_bind, sat_get_self.
      destruct (Z.ltb_spec probe (_capacity m)) as [Hlt|Hge]; [|lia].
      destruct (Z.eq_dec probe j) as [->|Hne].
      * apply sat_bind. eapply oa_sat_bucket_getitem;
          [apply Hidx|exact He|]. cbn beta iota.
        rewrite Hlive, bool_decide_eq_true_2 by assumption. simpl.
        apply sat_ret. auto.
      * destruct (Hbefore probe ltac:(lia)) as (e' & He' & Hlive' & Hkey').
        apply sat_bind. eapply oa_sat_bucket_getitem;
          [apply Hidx|exact He'|]. cbn beta iota.
        rewrite Hlive', bool_decide_eq_false_2 by assumption. simpl.
        apply sat_bind, sat_next_probe; [assumption|]. apply sat_ret.
        exists (Z.to_nat (_capacity m - (probe + 1))).
        split; [lia|]. repeat split; lia.
Qed.

Lemma oa_sat_put_stores (fuel : nat) (k : K) (v : V) m :
  oa_wf m -> 0 < _capacity m ->
  sat (put (S (S fuel)) k v) m
      (fun _ m' => oa_put_post m m' /\ exists j, stored_at k v m' j).
Proof.
  intros Hwf Hcap. pose proof Hwf as [Hlen Hodd Hprime Hsize Hload].
  rewrite oa_put_unfold.
  apply sat_bind, oa_sat_table_load; [lia|].
  rewrite Qle_bool_div by assumption.
  destruct (Z.leb_spec (1 * _capacity m) (_size m * 2)) as [Hfull|Hlow].
  - destruct (next_prime_double _ Hcap) as (Hp & Hgt & Hnodd & Hacc).
    pose proof (live_count_bounds (_buckets m)) as Hlive.
    pose proof (live_pairs_length (_buckets m)) as Hpairs.
    apply sat_bind. apply sat_bind, sat_get_self.
    apply oa_sat_resize_table_with; [assumption|lia|].
    rewrite (coerce_accepted _ Hacc).
    eapply sat_conseq.
    { apply sat_refill_below; unfold oa_fresh; cbn [_buckets _capacity _size].
      - apply length_replicate.
      - lia.
      - lia. }
    intros [] m1 Hm1. pose proof Hm1 as (Hc1 & Hh1 & _ & Hl1 & Hlive1 & Hsz1 & _).
    unfold oa_fresh in Hc1, Hh1, Hl1, Hlive1, Hsz1.
    cbn [_buckets _capacity _size _hash_function] in Hc1, Hh1, Hl1, Hlive1, Hsz1.
    rewrite live_count_replicate in Hlive1. rewrite length_replicate in Hl1.
    apply sat_bind, sat_get_self. apply sat_bind, sat_py_mod; [lia|].
    eapply sat_conseq.
    { apply sat_put_probe_stores; [lia|rewrite Hc1; assumption|lia|lia]. }
    intros [] m' [Hm' Hst].
    pose proof Hm' as (Hc' & Hh' & _ & Hl' & Hlive' & Hsz' & _).
    split; [|exact Hst].
    split; [|split; [lia|split; [congruence|split; [lia|]]]].
    + split; rewrite ?Hc', ?Hc1; auto; try lia.
    + intros _. eapply filled_tombstone_free; [exact Hm'|].
      eapply filled_tombstone_free; [exact Hm1|]. apply fresh_tombstone_free.
  - apply sat_bind, sat_ret. apply sat_bind, sat_get_self.
    apply sat_bind, sat_py_mod; [lia|].
    eapply sat_conseq.
    { apply sat_put_probe_stores; [assumption|auto|assumption|lia]. }
    intros [] m' [Hm' Hst].
    pose proof Hm' as (Hc' & Hh' & _ & Hl' & Hlive' & Hsz' & _).
    split; [|exact Hst].
    split; [|split; [lia|split; [congruence|split; [lia|]]]].
    + eapply filled_wf; [exact Hwf|exact Hm'|lia].
    + apply (filled_tombstone_free _ _ _ Hm').
Qed.

(** *** The search that [get], [contains_key] and [remove] share *)

Lemma first_hit_unique m k j e j' e' :
  first_hit m k j e -> first_hit m k j' e' -> j = j' /\ e = e'.
Proof.
  intros (Hj & He & Hhit & Hbefore) (Hj' & He' & Hhit' & Hbefore').
  assert (j = j') as <-.
  { destruct (Z.lt_trichotomy j j') as [Hlt|[Heq|Hgt]]; [|assumption|].
    - destruct (Hbefore' j ltac:(lia)) as (slot & Hslot & Hmiss). congruence.
    - destruct (Hbefore j' ltac:(lia)) as (slot & Hslot & Hmiss). congruence. }
  split; [reflexivity|congruence].
Qed.

Lemma first_hit_no_hit m k j e : first_hit m k j e -> no_hit m k -> False.
Proof.
  intros (Hj & He & Hhit & _) Hno.
  destruct (Hno j Hj) as (slot & Hslot & Hmiss). congruence.
Qed.

Lemma stored_at_first_hit (k : K) (v : V) m (j : Z) :
  stored_at k v m j -> exists e, first_hit m k j e /\ value e = v.
Proof.
  intros (Hj & Hbefore & e & He & Hlive & Hkey & Hval).
  exists e. split; [|assumption]. split; [assumption|]. split; [assumption|].
  split.
  - simpl. rewrite Hlive, bool_decide_eq_true_2 by assumption. reflexivity.
  - intros i Hi. destruct (Hbefore i Hi) as (e' & He' & Hlive' & Hkey').
    exists (Some e'). split; [assumption|]. simpl.
    rewrite bool_decide_eq_false_2 by assumption. reflexivity.
Qed.

Lemma probe_index_zero m (k : K) :
  _capacity m <> 0 ->
  _hash_function m k mod _capacity m = probe_index m k 0.
Proof.
  intros Hc. unfold probe_index. rewrite Z.add_0_r, Z.mod_mod by assumption.
  reflexivity.
Qed.

Lemma probe_index_slot m (k : K) (i : Z) :
  length (_buckets m) = Z.to_nat (_capacity m) -> 0 < _capacity m ->
  0 <= probe_index m k i < _capacity m /\
  exists slot, _buckets m !! Z.to_nat (probe_index m k i) = Some slot.
Proof.
  intros Hlen Hpos.
  assert (0 <= probe_index m k i < _capacity m)
    by (apply Z.mod_pos_bound; assumption).
  split; [assumption|]. apply lookup_lt_is_Some_2. lia.
Qed.

Lemma searching_next m (k : K) (probe : Z) slot :
  0 <= probe < _capacity m ->
  (forall i, 0 <= i < probe ->
     exists slot, _buckets m !! Z.to_nat (probe_index m k i) = Some slot /\
                  hit k slot = false) ->
  _buckets m !! Z.to_nat (probe_index m k probe) = Some slot ->
  hit k slot = false ->
  exists n', (n' < Z.to_nat (_capacity m - probe))%nat /\
    searching m k n'
      (probe + 1,
       (_hash_function m k mod _capacity m + (probe + 1) ^ 2) mod _capacity m) m.
Proof.
  intros Hprobe Hbefore Hslot Hmiss.
  exists (Z.to_nat (_capacity m - (probe + 1))). split; [lia|].
  split; [reflexivity|]. split; [simpl; lia|]. split; [reflexivity|].
  split; [|reflexivity]. simpl. intros i Hi.
  destruct (Z.eq_dec i probe) as [->|Hne]; [eauto|apply Hbefore; lia].
Qed.

Local Ltac search_next :=
  apply sat_bind, sat_next_probe; [assumption|]; apply sat_ret;
  eapply searching_next; [lia|eassumption|eassumption|];
  first [eassumption|reflexivity].

Lemma sat_get_search (k : K) m :
  oa_wf m ->
  sat (get k) m
      (fun r m' => m' = m /\
         ((exists j e, first_hit m k j e /\ r = Some (value e)) \/
          (no_hit m k /\ r = None))).
Proof.
  intros Hwf. pose proof (oa_wf_length m Hwf) as Hlen.
  pose proof (oa_capacity_nonzero m Hwf) as Hc0.
  unfold get. apply sat_bind, sat_get_self.
  apply sat_bind, sat_py_mod; [assumption|].
  apply (sat_while (searching m k) _ _ _ (Z.to_nat (_capacity m))).
  - split; [reflexivity|]. split; [simpl; lia|].
    split; [apply probe_index_zero; assumption|].
    split; [simpl; intros; lia|simpl; lia].
  - lia.
  - intros n [probe index] s (-> & Hprobe & Hindex & Hbefore & ->).
    simpl in Hprobe, Hindex, Hbefore |- *. subst index.
    apply sat_bind, sat_get_self.
    destruct (Z.ltb_spec probe (_capacity m)) as [Hlt|Hge].
    2:{ apply sat_ret. split; [reflexivity|]. right. split; [|reflexivity].
        intros i Hi. apply Hbefore. lia. }
    destruct (probe_index_slot m k probe Hlen ltac:(lia)) as (Hi & slot & Hslot).
    apply sat_bind. eapply oa_sat_bucket_getitem; [lia|exact Hslot|].
    destruct slot as [e|]; [|search_next].
    destruct (hit k (Some e)) eqn:Hhit; pose proof Hhit as Hcond;
      simpl in Hcond; rewrite ?(andb_comm (negb _)), Hcond; [|search_next].
    apply sat_ret. split; [reflexivity|].
    left. exists probe, e. split; [|reflexivity].
    split; [lia|]. split; [assumption|]. split; [exact Hhit|assumption].
Qed.

Lemma sat_contains_key_search (k : K) m :
  oa_wf m ->
  sat (contains_key k) m
      (fun r m' => m' = m /\
         ((exists j e, first_hit m k j e /\ r = true) \/
          (no_hit m k /\ r = false))).
Proof.
  intros Hwf. pose proof (oa_wf_length m Hwf) as Hlen.
  pose proof (oa_capacity_nonzero m Hwf) as Hc0.
  unfold contains_key. apply sat_bind, sat_get_self.
  apply sat_bind, sat_py_mod; [assumption|].
  apply (sat_while (searching m k) _ _ _ (Z.to_nat (_capacity m))).
  - split; [reflexivity|]. split; [simpl; lia|].
    split; [apply probe_index_zero; assumption|].
    split; [simpl; intros; lia|simpl; lia].
  - lia.
  - intros n [probe index] s (-> & Hprobe & Hindex & Hbefore & ->).
    simpl in Hprobe, Hindex, Hbefore |- *. subst index.
    apply sat_bind, sat_get_self.
    destruct (Z.ltb_spec probe (_capacity m)) as [Hlt|Hge].
    2:{ apply sat_ret. split; [reflexivity|]. right. split; [|reflexivity].
        intros i Hi. apply Hbefore. lia. }
    destruct (probe_index_slot m k probe Hlen ltac:(lia)) as (Hi & slot & Hslot).
    apply sat_bind. eapply oa_sat_bucket_getitem; [lia|exact Hslot|].
    destruct slot as [e|]; [|search_next].
    destruct (hit k (Some e)) eqn:Hhit; pose proof Hhit as Hcond;
      simpl in Hcond; rewrite Hcond; [|search_next].
    apply sat_ret. split; [reflexivity|].
    left. exists probe, e. split; [|reflexivity].
    split; [lia|]. split; [assumption|]. split; [exact Hhit|assumption].
Qed.

Lemma sat_remove_search (k : K) m :
  oa_wf m ->
  sat (remove k) m
      (fun _ m' =>
         (exists j e, first_hit m k j e /\ m' = tombstoned_at m k j e) \/
         (no_hit m k /\ m' = m)).
Proof.
  intros Hwf. pose proof (oa_wf_length m Hwf) as Hlen.
  pose proof (oa_capacity_nonzero m Hwf) as Hc0.
  unfold remove. apply sat_bind, sat_get_self.
  apply sat_bind, sat_py_mod; [assumption|].
  apply (sat_while (searching m k) _ _ _ (Z.to_nat (_capacity m))).
  - split; [reflexivity|]. split; [simpl; lia|].
    split; [apply probe_index_zero; assumption|].
    split; [simpl; intros; lia|simpl; lia].
  - lia.
  - intros n [probe index] s (-> & Hprobe & Hindex & Hbefore & ->).
    simpl in Hprobe, Hindex, Hbefore |- *. subst index.
    apply sat_bind, sat_get_self.
    destruct (Z.ltb_spec probe (_capacity m)) as [Hlt|Hge].
    2:{ apply sat_ret. right. split; [|reflexivity].
        intros i Hi. apply Hbefore. lia. }
    destruct (probe_index_slot m k probe Hlen ltac:(lia)) as (Hi & slot & Hslot).
    apply sat_bind. eapply oa_sat_bucket_getitem; [lia|exact Hslot|].
    destruct slot as [e|]; [|search_next].
    destruct (hit k (Some e)) eqn:Hhit; pose proof Hhit as Hcond;
      simpl in Hcond; rewrite Hcond; [|search_next].
    apply sat_bind. eapply sat_entry_update; [lia|exact Hslot|].
    apply sat_bind, sat_get_self. apply sat_bind, oa_sat_set_size, sat_ret.
    left. exists probe, e. split; [|reflexivity].
    split; [lia|]. split; [assumption|]. split; [exact Hhit|assumption].
Qed.

Lemma elem_of_live_pairs b (i : nat) e :
  b !! i = Some (Some e) -> is_tombstone e = false ->
  (key e, value e) ∈ live_pairs b.
Proof.
  revert i. induction b as [|slot b IH]; intros [|i] Hi Hlive; simpl in *;
    try discriminate.
  - injection Hi as ->. rewrite Hlive. apply elem_of_cons. auto.
  - specialize (IH i Hi Hlive).
    destruct slot as [e'|]; [|assumption].
    destruct (is_tombstone e'); [assumption|]. apply elem_of_cons. auto.
Qed.

End OAFacts.
End OAFacts.

(** ** The chaining map *)

Module LinkedListFacts.
Import LinkedList LinkedListSpec.
Section LinkedListFacts.
Context {K V : Type} `{EqDecision K}.
Implicit Types ll : LinkedList K V.
Implicit Types node : SLNode K V.

Lemma contains_Some ll k node :
  contains ll k = Some node -> node ∈ ll /\ key node = k.
Proof.
  induction ll as [|n ll IH]; simpl; [discriminate|].
  destruct (decide (key n = k)) as [E|E].
  - intros [= <-]. split; [apply elem_of_cons; auto|assumption].
  - intros Hc. destruct (IH Hc). split; [apply elem_of_cons; auto|assumption].
Qed.

Lemma contains_None ll k : contains ll k = None <-> k ∉ keys ll.
Proof.
  induction ll as [|n ll IH]; simpl.
  - split; [intros _; apply not_elem_of_nil|reflexivity].
  - destruct (decide (key n = k)) as [E|E].
    + split; [discriminate|]. intros Hn. exfalso. apply Hn, elem_of_cons. auto.
    + rewrite IH. unfold keys. simpl. rewrite not_elem_of_cons.
      split; [intros; split; [congruence|assumption]|intros [_ ?]; assumption].
Qed.

Lemma contains_insert ll k v k' :
  contains (insert ll k v) k'
  = match contains ll k' with
    | Some node => Some node
    | None => if decide (k = k') then Some {| key := k; value := v |} else None
    end.
Proof.
  unfold insert. induction ll as [|n ll IH]; simpl; [reflexivity|].
  destruct (decide (key n = k')); [reflexivity|exact IH].
Qed.

Lemma keys_insert ll k v : keys (insert ll k v) = keys ll ++ [k].
Proof. unfold keys, insert. rewrite fmap_app. reflexivity. Qed.

Lemma keys_set_contained_value ll k v :
  keys (set_contained_value ll k v) = keys ll.
Proof.
  unfold keys. induction ll as [|n ll IH]; simpl; [reflexivity|].
  destruct (decide (key n = k)); simpl; [reflexivity|]. f_equal. exact IH.
Qed.

Lemma length_set_contained_value ll k v :
  List.length (set_contained_value ll k v) = List.length ll.
Proof.
  induction ll as [|n ll IH]; simpl; [reflexivity|].
  destruct (decide (key n = k)); simpl; [reflexivity|]. rewrite IH. reflexivity.
Qed.

Lemma contains_set_contained_value ll k v k' :
  is_Some (contains ll k) ->
  value <$> contains (set_contained_value ll k v) k'
  = if decide (k' = k) then Some v else value <$> contains ll k'.
Proof.
  induction ll as [|n ll IH]; simpl; [intros [? [=]]|].
  destruct (decide (key n = k)) as [E|E]; simpl.
  - intros _. destruct (decide (k' = k)) as [->|Hne].
    + rewrite decide_True by assumption. reflexivity.
    + rewrite !decide_False by congruence. reflexivity.
  - intros Hc. destruct (decide (key n = k')) as [E'|E'].
    + rewrite decide_False by congruence. reflexivity.
    + apply IH. exact Hc.
Qed.

Lemma keys_remove_subseteq ll k : keys (remove ll k) ⊆ keys ll.
Proof.
  unfold keys. induction ll as [|n ll IH]; simpl; [reflexivity|].
  destruct (decide (key n = k)); simpl.
  - intros x Hx. apply elem_of_cons. auto.
  - intros x Hx. apply elem_of_cons in Hx as [->|Hx]; apply elem_of_cons; auto.
Qed.

Lemma NoDup_keys_remove ll k : NoDup (keys ll) -> NoDup (keys (remove ll k)).
Proof.
  unfold keys. induction ll as [|n ll IH]; simpl; [auto|].
  intros Hnd. apply NoDup_cons in Hnd as [Hn Hnd].
  destruct (decide (key n = k)); simpl; [assumption|].
  apply NoDup_cons. split; [|auto].
  intros Hin. apply Hn. apply (keys_remove_subseteq ll k). exact Hin.
Qed.

Lemma elem_of_remove ll k node : node ∈ remove ll k -> node ∈ ll.
Proof.
  induction ll as [|n ll IH]; simpl; [auto|].
  destruct (decide (key n = k)).
  - intros Hin. apply elem_of_cons. auto.
  - intros Hin. apply elem_of_cons in Hin as [->|Hin]; apply elem_of_cons; auto.
Qed.

Lemma contains_remove ll k k' :
  NoDup (keys ll) ->
  contains (remove ll k) k' = if decide (k' = k) then None else contains ll k'.
Proof.
  unfold keys. induction ll as [|n ll IH]; simpl.
  - intros _. destruct (decide (k' = k)); reflexivity.
  - intros Hnd. apply NoDup_cons in Hnd as [Hn Hnd].
    destruct (decide (key n = k)) as [E|E]; simpl.
    + destruct (decide (k' = k)) as [->|Hne].
      * apply contains_None. rewrite <- E. exact Hn.
      * rewrite decide_False by congruence. reflexivity.
    + destruct (decide (key n = k')) as [E'|E'].
      * rewrite decide_False by congruence. reflexivity.
      * apply IH. exact Hnd.
Qed.

Lemma length_remove ll k :
  Z.of_nat (List.length (remove ll k))
  = Z.of_nat (List.length ll) - (if contains ll k is Some _ then 1 else 0).
Proof.
  induction ll as [|n ll IH]; simpl List.length; simpl contains; simpl remove;
    [reflexivity|].
  destruct (decide (key n = k)); simpl List.length; [lia|].
  rewrite Nat2Z.inj_succ, IH. lia.
Qed.

Lemma elem_of_set_contained_value ll k v node :
  node ∈ set_contained_value ll k v -> key node ∈ keys ll.
Proof.
  intros Hin. rewrite <- (keys_set_contained_value ll k v).
  unfold keys. apply list_elem_of_fmap_2. exact Hin.
Qed.

End LinkedListFacts.
End LinkedListFacts.

Module SCFacts.
Import Primality SC LinkedListSpec LinkedListFacts SCSpec.
Section SCFacts.
Context {K V : Type} `{EqDecision K}.
Implicit Types m : HashMap K V.
Implicit Types ll : LinkedList.LinkedList K V.
Implicit Types b : list (LinkedList.LinkedList K V).

Lemma chain_total_nonneg b : 0 <= chain_total b.
Proof.
  induction b as [|ll b IH]; simpl; [lia|]. unfold LinkedList.length. lia.
Qed.

Lemma chain_total_insert b (i : nat) ll ll' :
  b !! i = Some ll ->
  chain_total (<[i := ll']> b)
  = chain_total b - LinkedList.length ll + LinkedList.length ll'.
Proof.
  revert i; induction b as [|l b IH]; intros [|i] Hi; simpl in *; try discriminate.
  - injection Hi as ->. lia.
  - rewrite (IH i Hi). lia.
Qed.

Lemma chain_total_replicate (n : nat) :
  chain_total (replicate n (LinkedList.new : LinkedList.LinkedList K V)) = 0.
Proof. induction n as [|n IH]; simpl; [reflexivity|]. rewrite IH. reflexivity. Qed.

Lemma chain_total_app b1 b2 : chain_total (b1 ++ b2) = chain_total b1 + chain_total b2.
Proof. induction b1 as [|ll b1 IH]; simpl; [lia|]. rewrite IH. lia. Qed.

Lemma empty_count_app b1 b2 : empty_count (b1 ++ b2) = empty_count b1 + empty_count b2.
Proof. induction b1 as [|ll b1 IH]; simpl; [lia|]. rewrite IH. lia. Qed.

Lemma all_pairs_app b1 b2 : all_pairs (b1 ++ b2) = all_pairs b1 ++ all_pairs b2.
Proof.
  induction b1 as [|ll b1 IH]; simpl; [reflexivity|].
  rewrite IH, app_assoc. reflexivity.
Qed.

Lemma all_pairs_length b : Z.of_nat (length (all_pairs b)) = chain_total b.
Proof.
  induction b as [|ll b IH]; simpl; [reflexivity|].
  rewrite length_app, Nat2Z.inj_add, IH. unfold chain_pairs, LinkedList.length.
  rewrite length_fmap. reflexivity.
Qed.

Lemma chain_total_zero b ll : chain_total b = 0 -> ll ∈ b -> ll = [].
Proof.
  induction b as [|l b IH]; simpl; intros Hz Hin; [inversion Hin|].
  pose proof (chain_total_nonneg b). unfold LinkedList.length in Hz.
  apply elem_of_cons in Hin as [->|Hin].
  - destruct l; [reflexivity|simpl in Hz; lia].
  - apply IH; [lia|assumption].
Qed.

Lemma assoc_app (l1 l2 : list (K * V)) k :
  assoc (l1 ++ l2) k
  = match assoc l1 k with Some v => Some v | None => assoc l2 k end.
Proof.
  induction l1 as [|kv l1 IH]; simpl; [reflexivity|].
  destruct (decide (fst kv = k)); [reflexivity|exact IH].
Qed.

Lemma assoc_chain_pairs ll k :
  assoc (chain_pairs ll) k = LinkedList.value <$> LinkedList.contains ll k.
Proof.
  induction ll as [|node ll IH]; simpl; [reflexivity|].
  destruct (decide (LinkedList.key node = k)); [reflexivity|exact IH].
Qed.

Lemma assoc_None (l : list (K * V)) k : assoc l k = None <-> k ∉ l.*1.
Proof.
  induction l as [|kv l IH]; simpl.
  - split; [intros _; apply not_elem_of_nil|reflexivity].
  - destruct (decide (fst kv = k)) as [E|E].
    + split; [discriminate|]. intros Hn. exfalso. apply Hn, elem_of_cons. auto.
    + rewrite IH, not_elem_of_cons.
      split; [intros; split; [congruence|assumption]|intros [_ ?]; assumption].
Qed.

Lemma chain_pairs_keys ll : (chain_pairs ll).*1 = keys ll.
Proof.
  unfold chain_pairs, keys. rewrite <- list_fmap_compose. reflexivity.
Qed.

Lemma elem_of_all_pairs_keys b k :
  k ∈ (all_pairs b).*1 <-> exists (i : nat) ll, b !! i = Some ll /\ k ∈ keys ll.
Proof.
  induction b as [|l b IH]; simpl.
  - split; [intros Hin; inversion Hin|intros (i & ll & Hi & _); discriminate].
  - rewrite fmap_app, elem_of_app, chain_pairs_keys, IH. split.
    + intros [Hin|(i & ll & Hi & Hin)]; [exists O, l; auto|exists (S i), ll; auto].
    + intros ([|i] & ll & Hi & Hin); simpl in Hi.
      * injection Hi as ->. auto.
      * right. eauto.
Qed.

Lemma NoDup_all_pairs_keys b :
  (forall (i : nat) ll, b !! i = Some ll -> NoDup (keys ll)) ->
  (forall (i j : nat) lli llj k,
      b !! i = Some lli -> b !! j = Some llj ->
      k ∈ keys lli -> k ∈ keys llj -> i = j) ->
  NoDup (all_pairs b).*1.
Proof.
  induction b as [|l b IH]; intros Hnd Hdisj; simpl; [apply NoDup_nil_2|].
  rewrite fmap_app, chain_pairs_keys. apply NoDup_app. split; [|split].
  - apply (Hnd O). reflexivity.
  - intros k Hk Hin. apply elem_of_all_pairs_keys in Hin as (j & llj & Hj & Hkj).
    assert (O = S j) by (eapply (Hdisj O (S j)); eauto). discriminate.
  - apply IH.
    + intros i ll Hi. apply (Hnd (S i)). exact Hi.
    + intros i j lli llj k Hi Hj Hki Hkj.
      assert (S i = S j) by (eapply (Hdisj (S i) (S j)); eauto). lia.
Qed.

Lemma assoc_Some_elem (l : list (K * V)) k v :
  NoDup l.*1 -> (k, v) ∈ l -> assoc l k = Some v.
Proof.
  induction l as [|kv l IH]; simpl; intros Hnd Hin; [inversion Hin|].
  apply NoDup_cons in Hnd as [Hn Hnd].
  apply elem_of_cons in Hin as [<-|Hin].
  - simpl. rewrite decide_True by reflexivity. reflexivity.
  - destruct (decide (fst kv = k)) as [E|E]; [|auto].
    exfalso. apply Hn. rewrite E.
    apply (list_elem_of_fmap_2 fst l (k, v)). exact Hin.
Qed.

Lemma sc_wf_disjoint m (i j : nat) lli llj k :
  sc_wf m -> _buckets m !! i = Some lli -> _buckets m !! j = Some llj ->
  k ∈ keys lli -> k ∈ keys llj -> i = j.
Proof.
  intros Hwf Hi Hj Hki Hkj.
  pose proof (sc_wf_placed m Hwf i lli k Hi Hki).
  pose proof (sc_wf_placed m Hwf j llj k Hj Hkj). lia.
Qed.

Lemma NoDup_all_pairs m : sc_wf m -> NoDup (all_pairs (_buckets m)).*1.
Proof.
  intros Hwf. apply NoDup_all_pairs_keys.
  - apply (sc_wf_nodup m Hwf).
  - intros i j lli llj k. apply sc_wf_disjoint. assumption.
Qed.

Lemma sc_lookup_None m k :
  sc_wf m ->
  sc_lookup m k = None <->
  forall (i : nat) ll, _buckets m !! i = Some ll -> k ∉ keys ll.
Proof.
  intros Hwf. unfold sc_lookup. split.
  - intros Hnone i ll Hi Hk.
    pose proof (sc_wf_placed m Hwf i ll k Hi Hk) as Hb.
    rewrite Hb, Nat2Z.id, Hi in Hnone.
    apply fmap_None, contains_None in Hnone. contradiction.
  - intros Hall. destruct (_buckets m !! Z.to_nat (bucket_of m k)) as [ll|] eqn:E;
      [|reflexivity].
    apply fmap_None, contains_None. eapply Hall. exact E.
Qed.

Lemma assoc_all_pairs m k :
  sc_wf m -> assoc (all_pairs (_buckets m)) k = sc_lookup m k.
Proof.
  intros Hwf. destruct (sc_lookup m k) as [v|] eqn:E.
  - apply assoc_Some_elem; [apply NoDup_all_pairs; assumption|].
    unfold sc_lookup in E.
    destruct (_buckets m !! Z.to_nat (bucket_of m k)) as [ll|] eqn:Hll;
      [|discriminate].
    destruct (LinkedList.contains ll k) as [node|] eqn:Hc; [|discriminate].
    injection E as <-. apply contains_Some in Hc as [Hin <-].
    apply list_elem_of_lookup_2 in Hll.
    clear -Hin Hll. induction (_buckets m) as [|l b IH]; [inversion Hll|].
    simpl. apply elem_of_app. apply elem_of_cons in Hll as [<-|Hll].
    + left. unfold chain_pairs.
      apply (list_elem_of_fmap_2
               (fun node => (LinkedList.key node, LinkedList.value node))).
      exact Hin.
    + right. auto.
  - apply assoc_None. intros Hin.
    apply elem_of_all_pairs_keys in Hin as (i & ll & Hi & Hk).
    apply (proj1 (sc_lookup_None m k Hwf) E i ll Hi Hk).
Qed.

(** *** The accessors *)

Lemma sc_sat_bucket_getitem (i : Z) m ll
  (Q : LinkedList.LinkedList K V -> HashMap K V -> Prop) :
  0 <= i -> _buckets m !! Z.to_nat i = Some ll -> Q ll m ->
  sat (bucket_getitem i) m Q.
Proof.
  intros Hi Hl HQ. unfold bucket_getitem. apply sat_bind, sat_get_self.
  eapply sat_lift; [apply getitem_lookup; eassumption|exact HQ].
Qed.

Lemma sc_sat_bucket_setitem (i : Z) ll m (Q : unit -> HashMap K V -> Prop) :
  0 <= i < Z.of_nat (length (_buckets m)) ->
  Q tt (with_buckets (<[Z.to_nat i := ll]> (_buckets m)) m) ->
  sat (bucket_setitem i ll) m Q.
Proof.
  intros Hi HQ. unfold bucket_setitem. apply sat_bind, sat_get_self.
  apply sat_bind. eapply sat_lift; [apply setitem_in_bounds; assumption|].
  unfold set_buckets. apply sat_bind, sat_get_self. exact HQ.
Qed.

Lemma sat_bucket_mutate (i : Z)
  (f : LinkedList.LinkedList K V -> LinkedList.LinkedList K V) m ll
  (Q : unit -> HashMap K V -> Prop) :
  0 <= i -> _buckets m !! Z.to_nat i = Some ll ->
  Q tt (with_buckets (<[Z.to_nat i := f ll]> (_buckets m)) m) ->
  sat (bucket_mutate i f) m Q.
Proof.
  intros Hi Hl HQ. unfold bucket_mutate. apply sat_bind.
  eapply sc_sat_bucket_getitem; [assumption|eassumption|].
  apply sc_sat_bucket_setitem; [|exact HQ].
  apply lookup_lt_Some in Hl. lia.
Qed.

Lemma sc_sat_set_size (n : Z) m (Q : unit -> HashMap K V -> Prop) :
  Q tt (with_size n m) -> sat (set_size n) m Q.
Proof. intros HQ. exact HQ. Qed.

Lemma sc_sat_table_load m (Q : Q -> HashMap K V -> Prop) :
  _capacity m <> 0 ->
  Q (inject_Z (_size m) / inject_Z (_capacity m))%Q m ->
  sat table_load m Q.
Proof.
  intros Hc HQ. unfold table_load. apply sat_bind, sat_get_self.
  eapply sat_lift; [apply py_div_nonzero; assumption|exact HQ].
Qed.

Lemma sc_capacity_nonzero m : sc_wf m -> _capacity m <> 0.
Proof.
  intros Hwf. destruct (sc_wf_capacity m Hwf) as [E|E]; [|lia].
  intros E0. rewrite E0 in E. discriminate.
Qed.

Lemma sc_wf_negative m :
  sc_wf m -> _capacity m < 0 -> _buckets m = [] /\ _size m = 0.
Proof.
  intros Hwf Hneg. pose proof (sc_wf_length m Hwf) as Hlen.
  pose proof (sc_wf_size m Hwf) as Hsize.
  destruct (_buckets m); [auto|simpl in Hlen; lia].
Qed.

Lemma sc_wf_bucket m k :
  sc_wf m -> 0 < _capacity m ->
  0 <= bucket_of m k < _capacity m /\
  exists ll, _buckets m !! Z.to_nat (bucket_of m k) = Some ll.
Proof.
  intros Hwf Hpos.
  assert (0 <= bucket_of m k < _capacity m) by (apply Z.mod_pos_bound; assumption).
  split; [assumption|]. apply lookup_lt_is_Some_2.
  rewrite (sc_wf_length m Hwf). lia.
Qed.

Lemma sc_wf_size_zero m k : sc_wf m -> _size m = 0 -> sc_lookup m k = None.
Proof.
  intros Hwf Hz. unfold sc_lookup.
  destruct (_buckets m !! Z.to_nat (bucket_of m k)) as [ll|] eqn:E; [|reflexivity].
  rewrite (chain_total_zero (_buckets m) ll); [reflexivity| |].
  - rewrite <- (sc_wf_size m Hwf). assumption.
  - eapply list_elem_of_lookup_2. exact E.
Qed.

(** *** The observers *)

Lemma sc_sat_contains_key (k : K) m :
  sc_wf m ->
  sat (contains_key k) m
      (fun r m' => r = bool_decide (is_Some (sc_lookup m k)) /\ m' = m).
Proof.
  intros Hwf. unfold contains_key. apply sat_bind, sat_get_self.
  destruct (Z.eqb_spec (_size m) 0) as [Hz|Hnz].
  - apply sat_ret. rewrite (sc_wf_size_zero m k Hwf Hz). split; reflexivity.
  - assert (Hpos : 0 < _capacity m).
    { destruct (Z.lt_ge_cases 0 (_capacity m)) as [|Hle]; [assumption|].
      pose proof (sc_capacity_nonzero m Hwf).
      destruct (sc_wf_negative m Hwf ltac:(lia)). contradiction. }
    destruct (sc_wf_bucket m k Hwf Hpos) as (Hb & ll & Hll).
    apply sat_bind, sat_py_mod; [lia|].
    apply sat_bind. eapply sc_sat_bucket_getitem; [apply Hb|exact Hll|].
    unfold sc_lookup, bucket_of. fold (bucket_of m k). rewrite Hll.
    destruct (LinkedList.contains ll k); apply sat_ret; split; reflexivity.
Qed.

Lemma for_each_find ll (k : K) (found : option V) m :
  for_each ll
    (fun node found =>
       match found with
       | Some v => ret (Some v)
       | None => if decide (LinkedList.key node = k)
                 then ret (Some (LinkedList.value node))
                 else ret None
       end) found m
  = Return (match found with
            | Some v => Some v
            | None => LinkedList.value <$> LinkedList.contains ll k
            end) m.
Proof.
  revert found. induction ll as [|node ll IH]; intros found; simpl.
  - destruct found; reflexivity.
  - unfold bind. destruct found as [v|]; [exact (IH (Some v))|].
    destruct (decide (LinkedList.key node = k)); [exact (IH (Some _))|exact (IH None)].
Qed.

Lemma sc_sat_get (k : K) m :
  sc_wf m -> sat (get k) m (fun r m' => r = sc_lookup m k /\ m' = m).
Proof.
  intros Hwf. unfold get. apply sat_bind.
  eapply sat_conseq; [apply sc_sat_contains_key; assumption|].
  intros r s [-> ->].
  destruct (sc_lookup m k) as [v|] eqn:E.
  2:{ rewrite bool_decide_eq_false_2 by (intros [? [=]]). apply sat_ret. auto. }
  rewrite bool_decide_eq_true_2 by eauto. simpl negb. cbv iota.
  assert (Hpos : 0 < _capacity m).
  { destruct (Z.lt_ge_cases 0 (_capacity m)) as [|Hle]; [assumption|].
    pose proof (sc_capacity_nonzero m Hwf).
    destruct (sc_wf_negative m Hwf ltac:(lia)) as [_ Hz].
    rewrite (sc_wf_size_zero m k Hwf Hz) in E. discriminate. }
  destruct (sc_wf_bucket m k Hwf Hpos) as (Hb & ll & Hll).
  apply sat_bind, sat_get_self. apply sat_bind, sat_py_mod; [lia|].
  apply sat_bind. eapply sc_sat_bucket_getitem; [apply Hb|exact Hll|].
  unfold sat. rewrite for_each_find. unfold sc_lookup in E. rewrite Hll in E.
  split; [congruence|reflexivity].
Qed.

Lemma sc_sat_empty_buckets m :
  length (_buckets m) = Z.to_nat (_capacity m) ->
  sat empty_buckets m (fun r m' => r = empty_count (_buckets m) /\ m' = m).
Proof.
  intros Hlen. unfold empty_buckets. apply sat_bind, sat_get_self.
  eapply sat_conseq.
  - apply (sat_for_range
             (fun i count s =>
                s = m /\ count = empty_count (take (Z.to_nat i) (_buckets m)))).
    + split; reflexivity.
    + intros i count s Hi [-> ->].
      destruct (lookup_lt_is_Some_2 (_buckets m) (Z.to_nat i)) as [ll Hll]; [lia|].
      apply sat_bind. eapply sc_sat_bucket_getitem; [lia|exact Hll|].
      replace (Z.to_nat (i + 1)) with (S (Z.to_nat i)) by lia.
      rewrite (take_S_r _ _ _ Hll), empty_count_app. simpl.
      destruct (LinkedList.length ll =? 0); apply sat_ret; split; auto; lia.
  - intros r s [-> ->]. split; [|reflexivity].
    rewrite take_ge by lia. reflexivity.
Qed.

Lemma for_each_chain_pairs ll (acc : list (K * V)) m :
  for_each ll
    (fun node key_value_da =>
       ret (DynamicArray.append key_value_da
              (LinkedList.key node, LinkedList.value node))) acc m
  = Return (acc ++ chain_pairs ll) m.
Proof.
  revert acc. induction ll as [|node ll IH]; intros acc; simpl.
  - rewrite app_nil_r. reflexivity.
  - unfold bind, ret at 1. rewrite IH. unfold DynamicArray.append.
    rewrite <- app_assoc. reflexivity.
Qed.

Lemma sc_sat_get_keys_and_values m :
  length (_buckets m) = Z.to_nat (_capacity m) ->
  sat get_keys_and_values m
      (fun r m' => r = all_pairs (_buckets m) /\ m' = m).
Proof.
  intros Hlen. unfold get_keys_and_values. apply sat_bind, sat_get_self.
  eapply sat_conseq.
  - apply (sat_for_range
             (fun i acc s =>
                s = m /\ acc = all_pairs (take (Z.to_nat i) (_buckets m)))).
    + split; reflexivity.
    + intros i acc s Hi [-> ->].
      destruct (lookup_lt_is_Some_2 (_buckets m) (Z.to_nat i)) as [ll Hll]; [lia|].
      apply sat_bind. eapply sc_sat_bucket_getitem; [lia|exact Hll|].
      unfold sat. rewrite for_each_chain_pairs. split; [reflexivity|].
      replace (Z.to_nat (i + 1)) with (S (Z.to_nat i)) by lia.
      rewrite (take_S_r _ _ _ Hll), all_pairs_app. simpl.
      rewrite app_nil_r. reflexivity.
  - intros r s [-> ->]. split; [|reflexivity].
    rewrite take_ge by lia. reflexivity.
Qed.

(** *** [put] *)

Lemma with_chain_lookup (h : nat) ll' (n : Z) m k :
  (h < length (_buckets m))%nat ->
  sc_lookup (with_chain h ll' n m) k
  = if decide (Z.to_nat (bucket_of m k) = h)
    then LinkedList.value <$> LinkedList.contains ll' k
    else sc_lookup m k.
Proof.
  intros Hh. unfold sc_lookup, with_chain.
  change (bucket_of (with_size n (with_buckets (<[h:=ll']> (_buckets m)) m)) k)
    with (bucket_of m k).
  cbn [with_size with_buckets _buckets].
  destruct (decide (Z.to_nat (bucket_of m k) = h)) as [->|Hne].
  - rewrite list_lookup_insert_eq by assumption. reflexivity.
  - rewrite list_lookup_insert_ne by congruence. reflexivity.
Qed.

Lemma with_chain_wf (h : nat) ll ll' (n : Z) m :
  sc_wf m -> 0 < _capacity m ->
  _buckets m !! h = Some ll ->
  (forall k, k ∈ keys ll' -> k ∈ keys ll \/ bucket_of m k = Z.of_nat h) ->
  NoDup (keys ll') ->
  n = _size m - LinkedList.length ll + LinkedList.length ll' ->
  n <= _capacity m ->
  sc_wf (with_chain h ll' n m).
Proof.
  intros Hwf Hpos Hll Hkeys Hnd Hn Hload.
  pose proof Hwf as [Hlen Hodd Hprime Hsize _ Hplaced Hnodup].
  split; unfold with_chain; cbn [with_size with_buckets _buckets _capacity _size];
    auto.
  - rewrite length_insert. assumption.
  - rewrite (chain_total_insert _ _ _ _ Hll). lia.
  - intros i l k Hi Hk.
    change (bucket_of (with_size n (with_buckets (<[h:=ll']> (_buckets m)) m)) k)
      with (bucket_of m k).
    destruct (decide (i = h)) as [->|Hne].
    + rewrite list_lookup_insert_eq in Hi by (eapply lookup_lt_Some; eassumption).
      injection Hi as <-. destruct (Hkeys k Hk) as [Hold|]; [|assumption].
      eapply Hplaced; eassumption.
    + rewrite list_lookup_insert_ne in Hi by congruence.
      eapply Hplaced; eassumption.
  - intros i l Hi. destruct (decide (i = h)) as [->|Hne].
    + rewrite list_lookup_insert_eq in Hi by (eapply lookup_lt_Some; eassumption).
      injection Hi as <-. assumption.
    + rewrite list_lookup_insert_ne in Hi by congruence.
      eapply Hnodup; eassumption.
Qed.

Lemma sc_put_unfold (fuel : nat) (k : K) (v : V) :
  put (S fuel) k v
  = (load <- table_load ;;
     (if Qle_bool 1 load then
        self <- get_self ;;
        resize_table_with (put fuel) (_next_prime (_capacity self * 2))
      else ret tt) ;;
     put_tail k v).
Proof. reflexivity. Qed.

Lemma sat_put_tail (k : K) (v : V) m :
  sc_wf m -> 0 < _capacity m -> _size m < _capacity m ->
  sat (put_tail k v) m
      (fun _ m' => sc_put_post k v m m' /\ _capacity m' = _capacity m).
Proof.
  intros Hwf Hpos Hload.
  destruct (sc_wf_bucket m k Hwf Hpos) as (Hb & ll & Hll).
  pose proof (lookup_lt_Some _ _ _ Hll) as Hlt.
  unfold put_tail. apply sat_bind, sat_get_self.
  apply sat_bind, sat_py_mod; [lia|]. fold (bucket_of m k).
  apply sat_bind. eapply sc_sat_bucket_getitem; [apply Hb|exact Hll|].
  assert (Hlk : sc_lookup m k = LinkedList.value <$> LinkedList.contains ll k)
    by (unfold sc_lookup; rewrite Hll; reflexivity).
  destruct (LinkedList.contains ll k) as [node|] eqn:Hc.
  - eapply sat_bucket_mutate; [apply Hb|exact Hll|].
    change (with_buckets
              (<[Z.to_nat (bucket_of m k) := LinkedList.set_contained_value ll k v]>
                 (_buckets m)) m)
      with (with_chain (Z.to_nat (bucket_of m k))
              (LinkedList.set_contained_value ll k v) (_size m) m).
    split; [|reflexivity]. split; [|split; [reflexivity|split; [reflexivity|split]]].
    + eapply with_chain_wf; try eassumption.
      * intros k'. rewrite keys_set_contained_value. auto.
      * rewrite keys_set_contained_value. eapply sc_wf_nodup; eassumption.
      * unfold LinkedList.length. rewrite length_set_contained_value. lia.
      * lia.
    + intros k'. rewrite with_chain_lookup by assumption.
      destruct (decide (Z.to_nat (bucket_of m k') = Z.to_nat (bucket_of m k)))
        as [E|E].
      * rewrite contains_set_contained_value by (rewrite Hc; eauto).
        destruct (decide (k' = k)); [reflexivity|].
        unfold sc_lookup. rewrite E, Hll. reflexivity.
      * rewrite decide_False by congruence. reflexivity.
    + cbn [with_chain with_size _size]. rewrite Hlk. simpl. lia.
  - apply sat_bind. eapply sat_bucket_mutate; [apply Hb|exact Hll|].
    apply sat_bind, sat_get_self. apply sc_sat_set_size.
    change (with_size _ _)
      with (with_chain (Z.to_nat (bucket_of m k))
              (LinkedList.insert ll k v) (_size m + 1) m).
    split; [|reflexivity]. split; [|split; [reflexivity|split; [reflexivity|split]]].
    + eapply with_chain_wf; try eassumption.
      * intros k'. rewrite keys_insert, elem_of_app, list_elem_of_singleton.
        intros [?| ->]; [auto|right; lia].
      * rewrite keys_insert. apply NoDup_app. split; [|split].
        -- eapply sc_wf_nodup; eassumption.
        -- intros x Hx Hx'. apply list_elem_of_singleton in Hx' as ->.
           apply contains_None in Hc. contradiction.
        -- apply NoDup_singleton.
      * unfold LinkedList.length, LinkedList.insert. rewrite length_app. simpl. lia.
      * lia.
    + intros k'. rewrite with_chain_lookup by assumption.
      destruct (decide (Z.to_nat (bucket_of m k') = Z.to_nat (bucket_of m k)))
        as [E|E].
      * rewrite contains_insert. unfold sc_lookup. rewrite E, Hll.
        destruct (decide (k' = k)) as [->|Hne].
        -- rewrite Hc, decide_True by reflexivity. reflexivity.
        -- destruct (LinkedList.contains ll k'); [reflexivity|].
           rewrite decide_False by congruence. reflexivity.
      * rewrite decide_False by congruence. reflexivity.
    + cbn [with_chain with_size _size]. rewrite Hlk. simpl. lia.
Qed.

(** *** [clear] and [resize_table] *)

Lemma sc_sat_clear m :
  length (_buckets m) = Z.to_nat (_capacity m) ->
  sat clear m
    (fun _ m' => m' = with_size 0
                        (with_buckets
                           (replicate (length (_buckets m)) LinkedList.new) m)).
Proof.
  intros Hlen. unfold clear. apply sat_bind, sat_get_self. apply sat_bind.
  eapply sat_conseq.
  - apply (sat_for_range
             (fun i (_ : unit) s =>
                exists b', s = with_buckets b' m /\
                  length b' = length (_buckets m) /\
                  forall j : nat, Z.of_nat j < i -> b' !! j = Some LinkedList.new)).
    + exists (_buckets m). repeat split; [|lia]. destruct m; reflexivity.
    + intros i [] s Hi (b' & -> & Hlen' & Hnew).
      apply sc_sat_bucket_setitem; [cbn [_buckets with_buckets]; lia|].
      cbn [_buckets with_buckets].
      exists (<[Z.to_nat i := LinkedList.new]> b'). split; [reflexivity|].
      split; [rewrite length_insert; assumption|].
      intros j Hj. destruct (decide (j = Z.to_nat i)) as [->|Hne].
      * apply list_lookup_insert_eq. lia.
      * rewrite list_lookup_insert_ne by congruence. apply Hnew. lia.
  - intros [] s (b' & -> & Hlen' & Hnew). apply sc_sat_set_size.
    replace b' with (replicate (length (_buckets m))
                       (LinkedList.new : LinkedList.LinkedList K V));
      [reflexivity|].
    apply list_eq. intros j.
    destruct (decide (j < length (_buckets m))%nat) as [Hj|Hj].
    + rewrite lookup_replicate_2 by assumption. symmetry. apply Hnew. lia.
    + rewrite !lookup_ge_None_2; [reflexivity|lia|rewrite length_replicate; lia].
Qed.

Lemma sc_sat_resize_table_with (put : K -> V -> M (HashMap K V) unit) (x : Z) m
  (Q : unit -> HashMap K V -> Prop) :
  length (_buckets m) = Z.to_nat (_capacity m) ->
  1 <= x ->
  sat (refill put (all_pairs (_buckets m))) (sc_fresh (coerce x) m) Q ->
  sat (resize_table_with put x) m Q.
Proof.
  intros Hlen Hx Hfill. unfold resize_table_with.
  destruct (Z.ltb_spec x 1); [lia|].
  apply sat_bind. eapply sat_conseq; [apply sc_sat_get_keys_and_values; assumption|].
  intros r s [-> ->].
  apply sat_bind. eapply sat_conseq; [apply sc_sat_clear; assumption|].
  intros [] s ->. apply sat_bind. unfold set_buckets at 1.
  apply sat_bind, sat_get_self, sat_set_self.
  apply sat_bind. eapply sat_conseq.
  - apply (sat_for_range
             (fun i (_ : unit) s =>
                s = with_buckets (replicate (Z.to_nat i) LinkedList.new)
                      (with_size 0 m))).
    + reflexivity.
    + intros i [] s Hi ->. apply sat_bind, sat_get_self.
      unfold set_buckets. apply sat_bind, sat_get_self, sat_set_self.
      cbn [_buckets with_buckets]. unfold DynamicArray.append.
      rewrite replicate_snoc. replace (Z.to_nat (i + 1)) with (S (Z.to_nat i)) by lia.
      reflexivity.
  - intros [] s ->. apply sat_bind. unfold set_capacity.
    apply sat_bind, sat_get_self, sat_set_self.
    fold (coerce x).
    replace (Z.to_nat (Z.max (coerce x) 0)) with (Z.to_nat (coerce x)) by lia.
    exact Hfill.
Qed.

Lemma sc_resize_table_rejected (fuel : nat) (x : Z) m :
  x < 1 -> resize_table (S fuel) x m = Return tt m.
Proof.
  intros Hx. cbn [resize_table]. unfold resize_table_with.
  destruct (Z.ltb_spec x 1); [reflexivity|lia].
Qed.

Lemma fresh_lookup (n : Z) m k : sc_lookup (sc_fresh n m) k = None.
Proof.
  unfold sc_lookup.
  destruct (_buckets (sc_fresh n m) !! Z.to_nat (bucket_of (sc_fresh n m) k))
    as [ll|] eqn:E; [|reflexivity].
  cbn [sc_fresh _buckets] in E. apply lookup_replicate in E as [-> _]. reflexivity.
Qed.

Lemma sc_fresh_wf (n : Z) m :
  Z.prime n -> n mod 2 = 1 \/ n = 2 -> sc_wf (sc_fresh n m).
Proof.
  intros Hp Hodd. pose proof (Z.prime_ge_2 n Hp).
  split; unfold sc_fresh; cbn [_buckets _capacity _size].
  - apply length_replicate.
  - assumption.
  - auto.
  - rewrite chain_total_replicate. reflexivity.
  - lia.
  - intros i ll k Hi Hk. apply lookup_replicate in Hi as [-> _]. inversion Hk.
  - intros i ll Hi. apply lookup_replicate in Hi as [-> _]. apply NoDup_nil_2.
Qed.

(** Re-inserting the pairs of a map into an empty table: [J] is what
    the [put] at hand needs beyond the state invariant. *)
Lemma sat_refill_lookup (put : K -> V -> M (HashMap K V) unit)
  (J : list (K * V) -> HashMap K V -> Prop) (pairs : list (K * V)) m :
  (forall kv l s, sc_wf s -> J (kv :: l) s ->
     sat (put (fst kv) (snd kv)) s
         (fun _ s' => sc_put_post (fst kv) (snd kv) s s' /\ J l s')) ->
  sc_wf m -> J pairs m -> NoDup pairs.*1 ->
  (forall k, sc_lookup m k = None) ->
  sat (refill put pairs) m
      (fun _ m' => sc_wf m' /\ _capacity m <= _capacity m' /\
                   _hash_function m' = _hash_function m /\
                   (forall k, sc_lookup m' k = assoc pairs k) /\
                   _size m' = _size m + Z.of_nat (length pairs) /\ J [] m').
Proof.
  intros Hput Hwf HJ Hnd Hnone. eapply sat_conseq.
  - apply (sat_refill _
             (fun l s =>
                sc_wf s /\ _capacity m <= _capacity s /\
                _hash_function s = _hash_function m /\
                NoDup l.*1 /\
                (forall kv, kv ∈ l -> sc_lookup s (fst kv) = None) /\
                (forall k, assoc pairs k
                           = match sc_lookup s k with
                             | Some v => Some v
                             | None => assoc l k
                             end) /\
                _size s + Z.of_nat (length l)
                = _size m + Z.of_nat (length pairs) /\
                J l s)).
    + split; [assumption|]. split; [lia|]. split; [reflexivity|].
      split; [assumption|]. split; [intros; apply Hnone|].
      split; [intros k; rewrite Hnone; reflexivity|]. split; [reflexivity|assumption].
    + intros kv l s (Hs & Hcs & Hhs & Hndl & Hfresh & Hlk & Hsz & HJs).
      eapply sat_conseq; [apply Hput; eassumption|].
      intros [] s' [(Hs' & Hc' & Hh' & Hlk' & Hsz') HJ'].
      apply NoDup_cons in Hndl as [Hnin Hndl].
      rewrite (Hfresh kv) in Hsz' by (apply elem_of_cons; auto).
      split; [assumption|]. split; [lia|]. split; [congruence|].
      split; [assumption|]. split; [|split; [|split; [|assumption]]].
      * intros kv' Hin. rewrite Hlk'.
        destruct (decide (fst kv' = fst kv)) as [E|E].
        -- exfalso. apply Hnin. rewrite <- E.
           apply (list_elem_of_fmap_2 fst l kv'). exact Hin.
        -- apply Hfresh. apply elem_of_cons. auto.
      * intros k. rewrite Hlk, Hlk'. simpl assoc.
        destruct (decide (k = fst kv)) as [->|E].
        -- rewrite (Hfresh kv) by (apply elem_of_cons; auto).
           rewrite decide_True by reflexivity. reflexivity.
        -- rewrite decide_False by congruence. reflexivity.
      * simpl length in Hsz. lia.
  - intros [] s' (Hs & Hcs & Hhs & _ & _ & Hlk & Hsz & HJs).
    split; [assumption|]. split; [assumption|]. split; [assumption|].
    split; [|split; [simpl in Hsz; lia|assumption]].
    intros k. rewrite Hlk. simpl. destruct (sc_lookup s' k); reflexivity.
Qed.

(** Below the load threshold, [put] does not resize. *)
Lemma sc_sat_put_below (fuel : nat) (k : K) (v : V) m :
  sc_wf m -> 0 < _capacity m -> _size m < _capacity m ->
  sat (put (S fuel) k v) m
      (fun _ m' => sc_put_post k v m m' /\ _capacity m' = _capacity m).
Proof.
  intros Hwf Hcap Hload. rewrite sc_put_unfold.
  apply sat_bind, sc_sat_table_load; [lia|].
  rewrite (Qle_bool_div 1 1) by assumption.
  destruct (Z.leb_spec (1 * _capacity m) (_size m * 1)); [lia|].
  apply sat_bind, sat_ret. apply sat_put_tail; assumption.
Qed.

Lemma put_post_size (k : K) (v : V) m m' :
  sc_put_post k v m m' -> _size m' <= _size m + 1.
Proof.
  intros (_ & _ & _ & _ & ->). destruct (sc_lookup m k); lia.
Qed.

Lemma sc_sat_put_load (fuel : nat) (k : K) (v : V) m :
  sc_wf m -> 0 < _capacity m ->
  sat (put (S (S fuel)) k v) m
      (fun _ m' => sc_put_post k v m m' /\ sc_put_load m m').
Proof.
  intros Hwf Hcap. pose proof Hwf as [Hlen Hodd Hprime Hsize Hload _ _].
  rewrite sc_put_unfold.
  apply sat_bind, sc_sat_table_load; [lia|].
  rewrite (Qle_bool_div 1 1) by assumption.
  destruct (Z.leb_spec (1 * _capacity m) (_size m * 1)) as [Hfull|Hlow].
  - destruct (next_prime_double _ Hcap) as (Hp & Hgt & Hnodd & Hacc).
    pose proof (all_pairs_length (_buckets m)) as Hpairs.
    apply sat_bind. apply sat_bind, sat_get_self.
    apply sc_sat_resize_table_with; [assumption|lia|].
    rewrite (coerce_accepted _ Hacc).
    set (N := _next_prime (_capacity m * 2)) in *.
    eapply sat_conseq.
    { apply (sat_refill_lookup _
               (fun l s => _capacity s = N /\ _size s + Z.of_nat (length l) < N)).
      - intros kv l s Hs [Hcs Hss]. simpl length in Hss.
        eapply sat_conseq; [apply sc_sat_put_below; [assumption|lia|lia]|].
        intros [] s' [Hpost Hc']. split; [assumption|]. split; [congruence|].
        apply put_post_size in Hpost. lia.
      - apply sc_fresh_wf; auto.
      - split; [reflexivity|]. cbn [sc_fresh _size]. lia.
      - apply NoDup_all_pairs. assumption.
      - apply fresh_lookup. }
    intros [] m1 (Hwf1 & Hc1 & Hh1 & Hlk1 & Hsz1 & Hcap1 & _).
    cbn [sc_fresh _capacity _size _hash_function] in Hc1, Hh1, Hsz1.
    eapply sat_conseq; [apply sat_put_tail; [assumption|lia|lia]|].
    intros [] m' [(Hwf' & Hc' & Hh' & Hlk' & Hsz') Hcap'].
    assert (Hsame : forall k', sc_lookup m1 k' = sc_lookup m k').
    { intros k'. rewrite Hlk1. apply assoc_all_pairs. assumption. }
    split.
    2:{ right. subst N. split; [lia|]. rewrite Hsz'.
        destruct (sc_lookup m1 k); lia. }
    split; [assumption|]. split; [lia|]. split; [congruence|]. split.
    + intros k'. rewrite Hlk', Hsame. reflexivity.
    + rewrite Hsz', Hsame. lia.
  - apply sat_bind, sat_ret.
    eapply sat_conseq; [apply sat_put_tail; [assumption|lia|lia]|].
    intros [] m' [Hpost Hc']. split; [exact Hpost|]. left. lia.
Qed.

Lemma sc_sat_put (fuel : nat) (k : K) (v : V) m :
  sc_wf m -> 0 < _capacity m ->
  sat (put (S (S fuel)) k v) m (fun _ m' => sc_put_post k v m m').
Proof.
  intros Hwf Hcap. eapply sat_conseq; [apply sc_sat_put_load; assumption|].
  intros [] m' [Hpost _]. exact Hpost.
Qed.

(** The rebuild: re-inserting the pairs into the fresh table. *)
Lemma sc_sat_rebuild (fuel : nat) (x : Z) m :
  sc_wf m -> 1 <= x ->
  sat (refill (put (S (S fuel))) (all_pairs (_buckets m)))
      (sc_fresh (coerce x) m) (fun _ m' => sc_resize_post x m m').
Proof.
  intros Hwf Hx. pose proof Hwf as [Hlen Hodd Hprime Hsize Hload _ _].
  pose proof (all_pairs_length (_buckets m)) as Hpairs.
  destruct (coerce_prime x ltac:(lia)) as [Hcp Hcx].
  pose proof (Z.prime_ge_2 _ Hcp).
  eapply sat_conseq.
  - apply (sat_refill_lookup _ (fun _ s => 0 < _capacity s)).
    + intros kv l s Hs Hcs.
      eapply sat_conseq; [apply sc_sat_put; assumption|].
      intros [] s' Hpost. split; [assumption|].
      destruct Hpost as (_ & Hc' & _). lia.
    + apply sc_fresh_wf; [assumption|apply coerce_odd].
    + cbn [sc_fresh _capacity]. lia.
    + apply NoDup_all_pairs. assumption.
    + apply fresh_lookup.
  - intros [] m' (Hwf' & Hc' & Hh' & Hlk' & Hsz' & _).
    cbn [sc_fresh _capacity _size _hash_function] in Hc', Hh', Hsz'.
    split; [assumption|]. split; [assumption|]. split; [assumption|].
    split; [|lia].
    intros k. rewrite Hlk'. apply assoc_all_pairs. assumption.
Qed.

Lemma sc_sat_resize_table (fuel : nat) (x : Z) m :
  sc_wf m -> 1 <= x ->
  sat (resize_table (S (S (S fuel))) x) m
      (fun _ m' =>
         refill (put (S (S fuel))) (all_pairs (_buckets m))
           (sc_fresh (coerce x) m) = Return tt m' /\
         sc_resize_post x m m').
Proof.
  intros Hwf Hx. cbn [resize_table].
  apply sc_sat_resize_table_with; [apply Hwf|assumption|].
  eapply sat_conseq; [apply sat_self, sc_sat_rebuild; assumption|].
  intros [] m' Hm'. exact Hm'.
Qed.

(** On a map of negative capacity there is no bucket to index: [put]
    raises before it writes. *)
Lemma sc_put_negative_capacity (fuel : nat) (k : K) (v : V) m :
  _capacity m < 0 -> _size m = 0 -> _buckets m = [] ->
  put (S fuel) k v m = Raise DynamicArrayException m.
Proof.
  intros Hcap Hsize Hb. rewrite sc_put_unfold.
  unfold bind at 1, table_load, bind at 1, get_self at 1, py_div.
  destruct (Z.eqb_spec (_capacity m) 0); [lia|]. unfold lift at 1.
  rewrite Hsize. change 1%Q with (1 # 1). rewrite Qle_bool_div_zero by lia.
  unfold bind at 1, ret at 1, put_tail, bind at 1, get_self at 1, bind at 1, py_mod.
  destruct (Z.eqb_spec (_capacity m) 0); [lia|]. unfold lift at 1.
  unfold bind at 1, bucket_getitem, bind at 1, get_self at 1.
  rewrite getitem_out_of_bounds; [reflexivity|].
  rewrite Hb. simpl. pose proof (Z.mod_neg_bound (_hash_function m k) _ Hcap). lia.
Qed.

(** *** [remove] *)

Lemma sc_sat_remove (k : K) m :
  sc_wf m -> sat (remove k) m (fun _ m' => sc_remove_post k m m').
Proof.
  intros Hwf. unfold remove. apply sat_bind.
  eapply sat_conseq; [apply sc_sat_contains_key; assumption|].
  intros r s [-> ->].
  destruct (sc_lookup m k) as [v0|] eqn:E.
  2:{ rewrite bool_decide_eq_false_2 by (intros [? [=]]). apply sat_ret.
      split; [assumption|]. split; [reflexivity|]. split; [reflexivity|].
      split; [|rewrite E; lia]. intros k'. destruct (decide (k' = k)) as [->|]; auto. }
  rewrite bool_decide_eq_true_2 by eauto. simpl negb. cbv iota.
  assert (Hpos : 0 < _capacity m).
  { destruct (Z.lt_ge_cases 0 (_capacity m)) as [|Hle]; [assumption|].
    pose proof (sc_capacity_nonzero m Hwf).
    destruct (sc_wf_negative m Hwf ltac:(lia)) as [_ Hz].
    rewrite (sc_wf_size_zero m k Hwf Hz) in E. discriminate. }
  destruct (sc_wf_bucket m k Hwf Hpos) as (Hb & ll & Hll).
  pose proof (lookup_lt_Some _ _ _ Hll) as Hlt.
  pose proof (sc_wf_length m Hwf) as Hlen.
  assert (Hc : is_Some (LinkedList.contains ll k)).
  { unfold sc_lookup in E. rewrite Hll in E.
    destruct (LinkedList.contains ll k); [eauto|discriminate]. }
  set (h := bucket_of m k) in *.
  set (m2 := with_chain (Z.to_nat h) (LinkedList.remove ll k) (_size m - 1) m).
  assert (Hother : forall (i : nat) l,
             _buckets m !! i = Some l -> Z.of_nat i <> h ->
             LinkedList.contains l k = None).
  { intros i l Hi Hne. apply contains_None. intros Hk.
    apply Hne. symmetry. eapply sc_wf_placed; eassumption. }
  apply sat_bind, sat_get_self. eapply sat_conseq.
  - apply (sat_for_range
             (fun i (_ : unit) s => s = if i <=? h then m else m2)).
    + destruct (Z.leb_spec 0 h); [reflexivity|lia].
    + intros i [] s Hi ->.
      destruct (lookup_lt_is_Some_2 (_buckets m) (Z.to_nat i)) as [l Hl]; [lia|].
      destruct (Z.leb_spec i h) as [Hle|Hgt].
      * apply sat_bind. eapply sc_sat_bucket_getitem; [lia|exact Hl|].
        destruct (Z.eq_dec i h) as [->|Hne].
        -- assert (Some l = Some ll) as [= ->] by (rewrite <- Hl; exact Hll).
           destruct Hc as [node Hnode]. rewrite Hnode.
           apply sat_bind. eapply sat_bucket_mutate; [lia|exact Hll|].
           apply sat_bind, sat_get_self. apply sc_sat_set_size.
           destruct (Z.leb_spec (h + 1) h); [lia|]. reflexivity.
        -- rewrite (Hother (Z.to_nat i) l Hl) by lia. apply sat_ret.
           destruct (Z.leb_spec (i + 1) h); [reflexivity|lia].
      * assert (Hl2 : _buckets m2 !! Z.to_nat i = Some l).
        { unfold m2, with_chain. cbn [with_size with_buckets _buckets].
          rewrite list_lookup_insert_ne by lia. exact Hl. }
        apply sat_bind. eapply sc_sat_bucket_getitem; [lia|exact Hl2|].
        rewrite (Hother (Z.to_nat i) l Hl) by lia. apply sat_ret.
        destruct (Z.leb_spec (i + 1) h); [lia|reflexivity].
  - intros [] s ->. destruct (Z.leb_spec (Z.max (_capacity m) 0) h); [lia|].
    assert (Hlr := length_remove ll k). destruct Hc as [node Hnode].
    rewrite Hnode in Hlr.
    split; [|split; [reflexivity|split; [reflexivity|split]]].
    + eapply with_chain_wf; try eassumption.
      * intros k' Hk'. left. apply (keys_remove_subseteq ll k). exact Hk'.
      * apply NoDup_keys_remove. eapply sc_wf_nodup; eassumption.
      * unfold LinkedList.length. lia.
      * pose proof (sc_wf_load m Hwf Hpos). lia.
    + intros k'. unfold m2. rewrite with_chain_lookup by assumption.
      destruct (decide (Z.to_nat (bucket_of m k') = Z.to_nat h)) as [Eh|Eh].
      * rewrite contains_remove by (eapply sc_wf_nodup; eassumption).
        destruct (decide (k' = k)); [reflexivity|].
        unfold sc_lookup. rewrite Eh, Hll. reflexivity.
      * rewrite decide_False; [reflexivity|]. intros ->. apply Eh. reflexivity.
    + rewrite E. reflexivity.
Qed.

(** *** Fuel *)

Lemma sc_resize_table_with_fuel_le (put1 put2 : K -> V -> M (HashMap K V) unit)
  (x : Z) m :
  (forall k v s, fuel_le (put1 k v s) (put2 k v s)) ->
  fuel_le (resize_table_with put1 x m) (resize_table_with put2 x m).
Proof.
  intros Hput. unfold resize_table_with.
  destruct (x <? 1); [apply fuel_le_refl|].
  apply fuel_le_bind; [apply fuel_le_refl|]. intros da s2.
  apply fuel_le_bind; [apply fuel_le_refl|]. intros [] s3.
  apply fuel_le_bind; [apply fuel_le_refl|]. intros [] s4.
  apply fuel_le_bind; [apply fuel_le_refl|]. intros [] s5.
  apply fuel_le_bind; [apply fuel_le_refl|]. intros [] s6.
  apply fuel_le_for_each. intros pair [] s7.
  apply fuel_le_bind; [apply fuel_le_refl|]. intros kv s8. apply Hput.
Qed.

Lemma sc_put_fuel_succ (fuel : nat) (k : K) (v : V) m :
  fuel_le (put fuel k v m) (put (S fuel) k v m).
Proof.
  revert k v m. induction fuel as [|fuel IH]; intros k v m; [left; reflexivity|].
  rewrite !sc_put_unfold.
  apply fuel_le_bind; [apply fuel_le_refl|]. intros load s1.
  apply fuel_le_bind; [|intros; apply fuel_le_refl].
  destruct (Qle_bool 1 load); [|apply fuel_le_refl].
  apply fuel_le_bind; [apply fuel_le_refl|]. intros self s2.
  apply sc_resize_table_with_fuel_le. exact IH.
Qed.

Lemma sc_put_fuel_le (fuel fuel' : nat) (k : K) (v : V) m :
  (fuel <= fuel')%nat -> fuel_le (put fuel k v m) (put fuel' k v m).
Proof.
  induction 1 as [|fuel' _ IH]; [apply fuel_le_refl|].
  eapply fuel_le_trans; [exact IH|apply sc_put_fuel_succ].
Qed.

Lemma sc_resize_table_fuel_le (fuel fuel' : nat) (x : Z) m :
  (fuel <= fuel')%nat ->
  fuel_le (resize_table fuel x m) (resize_table fuel' x m).
Proof.
  intros Hle. destruct fuel as [|fuel]; [left; reflexivity|].
  destruct fuel' as [|fuel']; [lia|]. cbn [resize_table].
  apply sc_resize_table_with_fuel_le. intros k v s. apply sc_put_fuel_le. lia.
Qed.

(** *** Every reachable state satisfies the invariant *)

Lemma sc_init_buckets (c : Z) (f : K -> Z) :
  _buckets (__init__ (V := V) c f)
  = replicate (Z.to_nat (_next_prime c)) LinkedList.new.
Proof.
  unfold __init__. cbn [_buckets]. rewrite foldl_append. unfold range.
  rewrite length_seqZ. reflexivity.
Qed.

Lemma init_fresh (c : Z) (f : K -> Z) (m : HashMap K V) :
  _hash_function m = f -> __init__ c f = sc_fresh (_next_prime c) m.
Proof.
  intros <-. unfold sc_fresh, __init__. rewrite foldl_append. unfold range.
  rewrite length_seqZ. reflexivity.
Qed.

Lemma sc_init_wf (c : Z) (f : K -> Z) : sc_wf (__init__ (V := V) c f).
Proof.
  destruct (next_prime_accepts c) as (Hacc & Hge & Hodd).
  split.
  - rewrite sc_init_buckets. apply length_replicate.
  - left. exact Hodd.
  - intros Hpos. apply is_prime_spec; [cbn [__init__ _capacity] in *; lia|exact Hacc].
  - rewrite sc_init_buckets, chain_total_replicate. reflexivity.
  - cbn [__init__ _capacity _size]. lia.
  - intros i ll k Hi Hk. rewrite sc_init_buckets in Hi.
    apply lookup_replicate in Hi as [-> _]. inversion Hk.
  - intros i ll Hi. rewrite sc_init_buckets in Hi.
    apply lookup_replicate in Hi as [-> _]. apply NoDup_nil_2.
Qed.

Lemma sc_clear_wf m :
  sc_wf m ->
  sc_wf (with_size 0
           (with_buckets (replicate (length (_buckets m)) LinkedList.new) m)).
Proof.
  intros [Hlen Hodd Hprime Hsize Hload _ _].
  split; cbn [with_size with_buckets _buckets _capacity _size]; auto.
  - rewrite length_replicate. assumption.
  - rewrite chain_total_replicate. reflexivity.
  - lia.
  - intros i ll k Hi Hk. apply lookup_replicate in Hi as [-> _]. inversion Hk.
  - intros i ll Hi. apply lookup_replicate in Hi as [-> _]. apply NoDup_nil_2.
Qed.

Lemma sc_put_final_wf (fuel : nat) (k : K) (v : V) m m' :
  sc_wf m -> final (put fuel k v m) = Some m' ->
  sc_wf m' /\ (0 < _capacity m -> sc_put_post k v m m') /\
  (_capacity m < 0 -> m' = m).
Proof.
  intros Hwf Hfin. pose proof (sc_capacity_nonzero m Hwf) as Hc0.
  destruct (Z.lt_ge_cases 0 (_capacity m)) as [Hpos|Hneg].
  - apply (fuel_le_final _ _ _ (sc_put_fuel_le fuel (S (S fuel)) k v m ltac:(lia)))
      in Hfin.
    destruct (sat_final _ _ _ _ (sc_sat_put fuel k v m Hwf Hpos) Hfin) as [_ Hpost].
    split; [apply Hpost|]. split; [auto|lia].
  - destruct fuel as [|fuel]; [discriminate|].
    destruct (sc_wf_negative m Hwf ltac:(lia)) as [Hb Hz].
    rewrite sc_put_negative_capacity in Hfin by (assumption || lia).
    injection Hfin as <-. split; [assumption|]. split; [lia|reflexivity].
Qed.

Lemma sc_resize_table_final_wf (fuel : nat) (x : Z) m m' :
  sc_wf m -> final (resize_table fuel x m) = Some m' ->
  sc_wf m' /\ (x < 1 -> m' = m) /\ (1 <= x -> sc_resize_post x m m').
Proof.
  intros Hwf Hfin.
  destruct (Z.lt_ge_cases x 1) as [Hlt|Hge].
  - destruct fuel as [|fuel]; [discriminate|].
    rewrite sc_resize_table_rejected in Hfin by assumption.
    injection Hfin as <-. split; [assumption|]. split; [reflexivity|lia].
  - apply (fuel_le_final _ _ _
             (sc_resize_table_fuel_le fuel (S (S (S fuel))) x m ltac:(lia))) in Hfin.
    destruct (sat_final _ _ _ _ (sc_sat_resize_table fuel x m Hwf Hge) Hfin)
      as [_ [_ Hpost]].
    split; [apply Hpost|]. split; [lia|auto].
Qed.

Lemma sc_after_wf (fuel : nat) (c : method K V) m m' :
  sc_wf m -> after fuel c m = Some m' -> sc_wf m'.
Proof.
  intros Hwf Hafter. pose proof (sc_wf_length m Hwf) as Hlen.
  pose proof (sc_capacity_nonzero m Hwf) as Hc0.
  destruct c as [k v|k|k|k| |x| | | | |]; cbn [after] in Hafter.
  - exact (proj1 (sc_put_final_wf fuel k v m m' Hwf Hafter)).
  - destruct (sat_final _ _ _ _ (sc_sat_get k m Hwf) Hafter) as [_ [_ ->]]. assumption.
  - destruct (sat_final _ _ _ _ (sc_sat_contains_key k m Hwf) Hafter) as [_ [_ ->]].
    assumption.
  - destruct (sat_final _ _ _ _ (sc_sat_remove k m Hwf) Hafter) as [_ Hpost].
    apply Hpost.
  - destruct (sat_final _ _ _ _ (sc_sat_clear m Hlen) Hafter) as [_ ->].
    apply sc_clear_wf. assumption.
  - exact (proj1 (sc_resize_table_final_wf fuel x m m' Hwf Hafter)).
  - assert (Hl : sat table_load m (fun _ m' => m' = m))
      by (apply sc_sat_table_load; [assumption|reflexivity]).
    destruct (sat_final _ _ _ _ Hl Hafter) as [_ ->]. assumption.
  - destruct (sat_final _ _ _ _ (sc_sat_empty_buckets m Hlen) Hafter) as [_ [_ ->]].
    assumption.
  - injection Hafter as <-. assumption.
  - injection Hafter as <-. assumption.
  - destruct (sat_final _ _ _ _ (sc_sat_get_keys_and_values m Hlen) Hafter)
      as [_ [_ ->]].
    assumption.
Qed.

Lemma sc_reachable_wf m : reachable m -> sc_wf m.
Proof.
  induction 1 as [c f|m m' fuel c _ IH Hafter].
  - apply sc_init_wf.
  - eapply sc_after_wf; eassumption.
Qed.

(** *** What the observers of a well-formed map agree on *)

Lemma assoc_Some_elem_of (l : list (K * V)) k v :
  assoc l k = Some v -> (k, v) ∈ l.
Proof.
  induction l as [|[k' v'] l IH]; simpl; [discriminate|].
  destruct (decide (k' = k)) as [->|Hne].
  - intros [= ->]. apply elem_of_cons. auto.
  - intros Hl. apply elem_of_cons. auto.
Qed.

(** Two association lists without repeated keys that map every key
    alike are rearrangements of each other. *)
Lemma assoc_permutation (l1 l2 : list (K * V)) :
  NoDup l1.*1 -> NoDup l2.*1 -> (forall k, assoc l1 k = assoc l2 k) ->
  l1 ≡ₚ l2.
Proof.
  intros Hnd1 Hnd2 Hsame.
  apply NoDup_Permutation; [eapply NoDup_fmap_1; eassumption..|].
  intros [k v]. split; intros Hin; apply assoc_Some_elem_of.
  - rewrite <- Hsame. apply assoc_Some_elem; assumption.
  - rewrite Hsame. apply assoc_Some_elem; assumption.
Qed.

Lemma sc_lookup_elem_of m k v :
  sc_wf m -> sc_lookup m k = Some v <-> (k, v) ∈ all_pairs (_buckets m).
Proof.
  intros Hwf. rewrite <- assoc_all_pairs by assumption. split.
  - apply assoc_Some_elem_of.
  - apply assoc_Some_elem, NoDup_all_pairs. assumption.
Qed.

Lemma sc_lookup_is_Some m k :
  sc_wf m -> is_Some (sc_lookup m k) <-> k ∈ (all_pairs (_buckets m)).*1.
Proof.
  intros Hwf. rewrite <- assoc_all_pairs by assumption.
  rewrite <- not_eq_None_Some, assoc_None.
  split; [apply dec_stable|auto].
Qed.

Lemma empty_count_bounds b :
  Z.of_nat (length b) - chain_total b <= empty_count b <= Z.of_nat (length b).
Proof.
  induction b as [|ll b IH]; simpl length; simpl empty_count; simpl chain_total;
    [lia|].
  unfold LinkedList.length.
  destruct (Z.eqb_spec (Z.of_nat (length ll)) 0); lia.
Qed.

Lemma empty_count_replicate (n : nat) :
  empty_count (replicate n (LinkedList.new : LinkedList.LinkedList K V))
  = Z.of_nat n.
Proof. induction n as [|n IH]; simpl empty_count; simpl replicate; [reflexivity|]. simpl. lia. Qed.

Lemma all_pairs_replicate (n : nat) :
  all_pairs (replicate n (LinkedList.new : LinkedList.LinkedList K V)) = [].
Proof. induction n as [|n IH]; simpl; [reflexivity|exact IH]. Qed.

End SCFacts.
End SCFacts.

(** ** [find_mode] *)

Module FindModeFacts.
Import Primality SC LinkedListSpec LinkedListFacts SCSpec SCFacts FindModeSpec.
Section FindModeFacts.
Context {K : Type} `{EqDecision K}.
Variable hash_function_1 : K -> Z.

Lemma occurrences_nonneg (x : K) (da : list K) : 0 <= occurrences x da.
Proof. induction da as [|y da IH]; simpl; [lia|]. destruct (decide (y = x)); lia. Qed.

Lemma occurrences_app (x : K) (l1 l2 : list K) :
  occurrences x (l1 ++ l2) = occurrences x l1 + occurrences x l2.
Proof. induction l1 as [|y l1 IH]; simpl; [reflexivity|]. rewrite IH. lia. Qed.

Lemma occurrences_pos (x : K) (da : list K) : 0 < occurrences x da <-> x ∈ da.
Proof.
  induction da as [|y da IH]; simpl.
  - split; [lia|intros Hin; inversion Hin].
  - pose proof (occurrences_nonneg x da). rewrite elem_of_cons.
    destruct (decide (y = x)) as [->|Hne].
    + split; [auto|lia].
    + rewrite Z.add_0_l, IH. split; [auto|]. intros [->|]; [contradiction|assumption].
Qed.

Lemma outcome_returns {St A} (o : outcome St A) (Q : A -> St -> Prop) :
  match o with Return a s => Q a s | _ => False end ->
  exists a s, o = Return a s /\ Q a s.
Proof. destruct o; [eauto|tauto|tauto]. Qed.

Lemma counted_init : counted [] (__init__ 11 hash_function_1).
Proof.
  split; [apply sc_init_wf|]. split.
  - cbn [__init__ _capacity]. pose proof (next_prime_accepts 11). lia.
  - intros x. simpl. apply (@sc_wf_size_zero K Z); [apply sc_init_wf|reflexivity].
Qed.

Lemma sat_count (fuel : nat) (da : list K) :
  sat (for_each (range (DynamicArray.length da))
         (fun i _ =>
            value <- lift (DynamicArray.getitem da i) ;;
            present <- contains_key value ;;
            if present then
              count <- get value ;;
              match count with
              | Some n => put (S (S fuel)) value (n + 1)
              | None => raise TypeError
              end
            else put (S (S fuel)) value 1) tt)
      (__init__ 11 hash_function_1)
      (fun _ s => counted da s).
Proof.
  eapply sat_conseq.
  - apply (sat_for_range (fun i (_ : unit) s => counted (take (Z.to_nat i) da) s)).
    + apply counted_init.
    + intros i [] s Hi (Hwf & Hcap & Hlk). unfold DynamicArray.length in Hi.
      destruct (lookup_lt_is_Some_2 da (Z.to_nat i)) as [x Hx]; [lia|].
      apply sat_bind. eapply sat_lift; [apply getitem_lookup; [lia|exact Hx]|].
      replace (Z.to_nat (i + 1)) with (S (Z.to_nat i)) by lia.
      rewrite (take_S_r _ _ _ Hx).
      set (l := take (Z.to_nat i) da) in *.
      pose proof (occurrences_nonneg x l) as Hnn.
      assert (Hstep : forall v s',
                 v = occurrences x l + 1 -> sc_put_post x v s s' ->
                 counted (l ++ [x]) s').
      { intros v s' -> (Hwf' & Hc' & _ & Hlk' & _).
        split; [assumption|]. split; [lia|]. intros y.
        rewrite Hlk', occurrences_app. simpl.
        pose proof (occurrences_nonneg y l).
        destruct (decide (y = x)) as [->|Hne].
        - rewrite decide_True by reflexivity.
          destruct (Z.eqb_spec (occurrences x l + (1 + 0)) 0); [lia|].
          reflexivity.
        - rewrite decide_False by congruence. rewrite Hlk, !Z.add_0_r. reflexivity. }
      apply sat_bind.
      eapply sat_conseq; [apply sc_sat_contains_key; assumption|].
      intros r s1 [-> ->]. rewrite Hlk.
      destruct (Z.eqb_spec (occurrences x l) 0) as [Hz|Hnz].
      * rewrite bool_decide_eq_false_2 by (intros [? [=]]).
        eapply sat_conseq; [apply sc_sat_put; assumption|].
        intros [] s'. apply Hstep. lia.
      * rewrite bool_decide_eq_true_2 by eauto.
        apply sat_bind. eapply sat_conseq; [apply sc_sat_get; assumption|].
        intros r s1 [-> ->]. rewrite Hlk.
        destruct (Z.eqb_spec (occurrences x l) 0); [contradiction|].
        eapply sat_conseq; [apply sc_sat_put; assumption|].
        intros [] s'. apply Hstep. reflexivity.
  - intros [] s Hs. rewrite take_ge in Hs; [exact Hs|].
    unfold DynamicArray.length. lia.
Qed.

(** The scan for the largest count. *)
Lemma sat_max_scan {St} (map_da : list (K * Z)) (s : St) :
  sat (for_each (range (DynamicArray.length map_da))
         (fun pair frequency =>
            kv <- lift (DynamicArray.getitem map_da pair) ;;
            ret (Z.max frequency (snd kv))) 0) s
      (fun f s' => s' = s /\ f = foldl (fun f kv => Z.max f (snd kv)) 0 map_da).
Proof.
  eapply sat_conseq.
  - apply (sat_for_range
             (fun i f s' => s' = s /\
                f = foldl (fun f kv => Z.max f (snd kv)) 0
                      (take (Z.to_nat i) map_da))).
    + split; reflexivity.
    + intros i f s' Hi [-> ->]. unfold DynamicArray.length in Hi.
      destruct (lookup_lt_is_Some_2 map_da (Z.to_nat i)) as [kv Hkv]; [lia|].
      apply sat_bind. eapply sat_lift; [apply getitem_lookup; [lia|exact Hkv]|].
      apply sat_ret. split; [reflexivity|].
      replace (Z.to_nat (i + 1)) with (S (Z.to_nat i)) by lia.
      rewrite (take_S_r _ _ _ Hkv), foldl_app. reflexivity.
  - intros f s' [-> ->]. split; [reflexivity|].
    rewrite take_ge; [reflexivity|]. unfold DynamicArray.length. lia.
Qed.

Lemma keys_with_app (f : Z) (l1 l2 : list (K * Z)) :
  keys_with f (l1 ++ l2) = keys_with f l1 ++ keys_with f l2.
Proof.
  induction l1 as [|kv l1 IH]; simpl; [reflexivity|].
  destruct (snd kv =? f); simpl; rewrite IH; reflexivity.
Qed.

Lemma sat_mode_scan {St} (frequency : Z) (map_da : list (K * Z)) (s : St) :
  sat (for_each (range (DynamicArray.length map_da))
         (fun pair mode_da =>
            kv <- lift (DynamicArray.getitem map_da pair) ;;
            if snd kv =? frequency
            then ret (DynamicArray.append mode_da (fst kv))
            else ret mode_da) DynamicArray.new) s
      (fun r s' => s' = s /\ r = keys_with frequency map_da).
Proof.
  eapply sat_conseq.
  - apply (sat_for_range
             (fun i r s' => s' = s /\
                r = keys_with frequency (take (Z.to_nat i) map_da))).
    + split; reflexivity.
    + intros i r s' Hi [-> ->]. unfold DynamicArray.length in Hi.
      destruct (lookup_lt_is_Some_2 map_da (Z.to_nat i)) as [kv Hkv]; [lia|].
      apply sat_bind. eapply sat_lift; [apply getitem_lookup; [lia|exact Hkv]|].
      replace (Z.to_nat (i + 1)) with (S (Z.to_nat i)) by lia.
      rewrite (take_S_r _ _ _ Hkv), keys_with_app. simpl.
      destruct (snd kv =? frequency); apply sat_ret; split; try reflexivity.
      rewrite app_nil_r. reflexivity.
  - intros r s' [-> ->]. split; [reflexivity|].
    rewrite take_ge; [reflexivity|]. unfold DynamicArray.length. lia.
Qed.

Lemma foldl_max_ge (l : list (K * Z)) (a : Z) :
  a <= foldl (fun f kv => Z.max f (snd kv)) a l /\
  forall kv, kv ∈ l -> snd kv <= foldl (fun f kv => Z.max f (snd kv)) a l.
Proof.
  revert a. induction l as [|kv l IH]; intros a; simpl.
  - split; [lia|]. intros kv Hin. inversion Hin.
  - destruct (IH (Z.max a (snd kv))) as [Hge Hall]. split; [lia|].
    intros kv' Hin. apply elem_of_cons in Hin as [->|Hin]; [lia|auto].
Qed.

Lemma foldl_max_attained (l : list (K * Z)) (a : Z) :
  foldl (fun f kv => Z.max f (snd kv)) a l = a \/
  exists kv, kv ∈ l /\ snd kv = foldl (fun f kv => Z.max f (snd kv)) a l.
Proof.
  revert a. induction l as [|kv l IH]; intros a; simpl; [auto|].
  destruct (IH (Z.max a (snd kv))) as [E|(kv' & Hin & E)].
  - rewrite E. destruct (Z.max_spec a (snd kv)) as [[_ ->]|[_ ->]].
    + right. exists kv. split; [apply elem_of_cons; auto|reflexivity].
    + auto.
  - right. exists kv'. split; [apply elem_of_cons; auto|assumption].
Qed.

Lemma elem_of_keys_with (f : Z) (l : list (K * Z)) (x : K) :
  x ∈ keys_with f l <-> (x, f) ∈ l.
Proof.
  induction l as [|[k v] l IH]; simpl.
  - split; intros Hin; inversion Hin.
  - destruct (Z.eqb_spec v f) as [->|Hne].
    + rewrite !elem_of_cons, IH. split.
      * intros [->|]; auto.
      * intros [[= ->]|]; auto.
    + rewrite elem_of_cons, IH. split; [auto|]. intros [[= -> ->]|]; [lia|assumption].
Qed.

Lemma NoDup_keys_with (f : Z) (l : list (K * Z)) : NoDup l.*1 -> NoDup (keys_with f l).
Proof.
  induction l as [|[k v] l IH]; simpl; [auto|].
  intros Hnd. apply NoDup_cons in Hnd as [Hn Hnd].
  destruct (v =? f); [|auto]. apply NoDup_cons. split; [|auto].
  intros Hin. apply Hn. apply elem_of_keys_with in Hin.
  apply (list_elem_of_fmap_2 fst l (k, f)). exact Hin.
Qed.

Lemma assoc_elem (l : list (K * Z)) k v : assoc l k = Some v -> (k, v) ∈ l.
Proof.
  induction l as [|[k' v'] l IH]; simpl; [discriminate|].
  destruct (decide (k' = k)) as [->|Hne].
  - intros [= ->]. apply elem_of_cons. auto.
  - intros Hl. apply elem_of_cons. auto.
Qed.

Lemma counted_pairs (da : list K) s x v :
  counted da s ->
  (x, v) ∈ all_pairs (_buckets s) <-> x ∈ da /\ v = occurrences x da.
Proof.
  intros (Hwf & _ & Hlk).
  assert (Hiff : (x, v) ∈ all_pairs (_buckets s) <-> sc_lookup s x = Some v).
  { rewrite <- assoc_all_pairs by assumption. split.
    - apply assoc_Some_elem, NoDup_all_pairs. assumption.
    - apply assoc_elem. }
  rewrite Hiff, Hlk, <- occurrences_pos.
  destruct (Z.eqb_spec (occurrences x da) 0) as [E|E].
  - split; [discriminate|lia].
  - pose proof (occurrences_nonneg x da).
    split; [intros [= <-]; lia|intros [_ ->]; reflexivity].
Qed.

Lemma find_mode_sat (fuel : nat) (da : list K) :
  exists modes frequency s,
    find_mode hash_function_1 (S (S fuel)) da = Return (modes, frequency) s /\
    mode_of da modes frequency.
Proof.
  enough (exists r s,
             find_mode hash_function_1 (S (S fuel)) da = Return r s /\
             mode_of da (fst r) (snd r)) as ([modes f] & s & E & Hm) by eauto.
  apply outcome_returns. unfold find_mode.
  refine (sat_bind _ _ _ _ _).
  eapply sat_conseq; [apply sat_count|].
  intros [] s Hs. pose proof Hs as (Hwf & Hcap & Hlk).
  apply sat_bind.
  eapply sat_conseq; [apply sc_sat_get_keys_and_values, sc_wf_length; assumption|].
  intros map_da s' [-> ->].
  apply sat_bind. eapply sat_conseq; [apply sat_max_scan|].
  intros f s' [-> ->].
  apply sat_bind. eapply sat_conseq; [apply sat_mode_scan|].
  intros modes s' [-> ->]. apply sat_ret. cbn [fst snd].
  set (l := all_pairs (_buckets s)).
  set (f := foldl (fun f kv => Z.max f (snd kv)) 0 l).
  destruct (foldl_max_ge l 0) as [Hf0 Hfge]. fold f in Hf0, Hfge.
  assert (Hle : forall x, occurrences x da <= f).
  { intros x. destruct (decide (x ∈ da)) as [Hin|Hnin].
    - apply (Hfge (x, occurrences x da)).
      apply (counted_pairs da s); [assumption|auto].
    - pose proof (occurrences_nonneg x da).
      rewrite <- occurrences_pos in Hnin. lia. }
  assert (Hatt : da <> [] -> exists x, x ∈ da /\ occurrences x da = f).
  { intros Hne. destruct (foldl_max_attained l 0) as [E|([x v] & Hin & E)].
    - fold f in E. destruct da as [|x da']; [contradiction|].
      exfalso. specialize (Hle x).
      assert (0 < occurrences x (x :: da'))
        by (apply occurrences_pos, elem_of_cons; auto). lia.
    - fold f in E. simpl in E. subst v.
      apply (counted_pairs da s) in Hin as [Hin Hocc]; [|assumption]. eauto. }
  split; [exact Hle|]. split; [|split; [exact Hatt|split]].
  - intros ->. destruct (foldl_max_attained l 0) as [E|([x v] & Hin & E)];
      [exact E|].
    apply (counted_pairs [] s) in Hin as [Hin _]; [inversion Hin|assumption].
  - intros x. rewrite elem_of_keys_with. unfold l.
    rewrite (counted_pairs da s x f Hs). split; intros [? ?]; auto.
  - apply NoDup_keys_with, NoDup_all_pairs. assumption.
Qed.

End FindModeFacts.
End FindModeFacts.

(** * The properties of the specification *)

Import Primality OASpec OAFacts LinkedListSpec LinkedListFacts SCSpec SCFacts.
Import FindModeSpec FindModeFacts.

(** ** Reachability of the scenarios *)

Lemma oa_after_all_reachable {K V} `{EqDecision K} (fuel : nat)
  (calls : list (OA.method K V)) (m m' : OA.HashMap K V) :
  OA.reachable m -> oa_after_all fuel calls m = Some m' -> OA.reachable m'.
Proof.
  unfold oa_after_all. revert m'.
  induction calls as [|c calls IH] using rev_ind; intros m' Hm.
  - intros [= <-]. exact Hm.
  - rewrite foldl_app. cbn [foldl].
    destruct (foldl _ (Some m) calls) as [m1|] eqn:E; [|discriminate].
    intros Hafter. exact (OA.reachable_call m1 m' fuel c (IH m1 Hm eq_refl) Hafter).
Qed.

Lemma sc_after_all_reachable {K V} `{EqDecision K} (fuel : nat)
  (calls : list (SC.method K V)) (m m' : SC.HashMap K V) :
  SC.reachable m -> sc_after_all fuel calls m = Some m' -> SC.reachable m'.
Proof.
  unfold sc_after_all. revert m'.
  induction calls as [|c calls IH] using rev_ind; intros m' Hm.
  - intros [= <-]. exact Hm.
  - rewrite foldl_app. cbn [foldl].
    destruct (foldl _ (Some m) calls) as [m1|] eqn:E; [|discriminate].
    intros Hafter. exact (SC.reachable_call m1 m' fuel c (IH m1 Hm eq_refl) Hafter).
Qed.

Lemma oa_negative_reachable : OA.reachable oa_negative.
Proof. exact (OA.reachable_init (-1) hash_id). Qed.

Lemma oa_tombstoned_reachable : OA.reachable oa_tombstoned.
Proof.
  apply (oa_after_all_reachable 2
           [OA.Put 0 100; OA.Put 11 200; OA.Remove 0] (OA.__init__ 11 hash_id)).
  - apply OA.reachable_init.
  - vm_compute. reflexivity.
Qed.

Lemma oa_duplicated_reachable : OA.reachable oa_duplicated.
Proof.
  apply (oa_after_all_reachable 2 [OA.Put 11 300] oa_tombstoned).
  - apply oa_tombstoned_reachable.
  - vm_compute. reflexivity.
Qed.

Lemma oa_one_reachable : OA.reachable oa_one.
Proof.
  apply (oa_after_all_reachable 2 [OA.Put 0 0] (OA.__init__ 3 hash_id)).
  - apply OA.reachable_init.
  - vm_compute. reflexivity.
Qed.

Lemma oa_two_reachable : OA.reachable oa_two.
Proof.
  apply (oa_after_all_reachable 2 [OA.Put 1 1] oa_one).
  - apply oa_one_reachable.
  - vm_compute. reflexivity.
Qed.

Lemma oa_one_removed_reachable : OA.reachable oa_one_removed.
Proof.
  apply (oa_after_all_reachable 2 [OA.Remove 0] oa_one).
  - apply oa_one_reachable.
  - vm_compute. reflexivity.
Qed.

Lemma sc_two_reachable : SC.reachable sc_two.
Proof.
  apply (sc_after_all_reachable 2
           [SC.Put 0 0; SC.Put 1 1] (SC.__init__ 3 hash_id)).
  - apply SC.reachable_init.
  - vm_compute. reflexivity.
Qed.

Lemma sc_three_reachable : SC.reachable sc_three.
Proof.
  apply (sc_after_all_reachable 2 [SC.Put 2 2] sc_two).
  - apply sc_two_reachable.
  - vm_compute. reflexivity.
Qed.

(** ** The claims *)

Section Claims.
Context {K V : Type} `{EqDecision K}.

(** C1 (defect).  [HashMap(-1)] of the open-addressing variant keeps
    capacity [-1] and has no bucket: on it [put(k, v)] returns without
    storing anything, and the [get(k)] that follows returns [None] and
    [contains_key(k)] returns [False]. *)
Theorem oa_put_get_negative_capacity (function : K -> Z) (k : K) (v : V)
  (fuel : nat) :
  let m := OA.__init__ (-1) function in
  OA.reachable m /\ OA._capacity m = -1 /\
  OA.put (S fuel) k v m = Return tt m /\
  OA.get k m = Return None m /\
  OA.contains_key k m = Return false m.
Proof.
  intros m. split; [apply OA.reachable_init|]. split; [reflexivity|].
  split; [apply oa_put_negative_capacity; reflexivity|].
  split; reflexivity.
Qed.

(** C4 (amended).  For every requested capacity [c], both constructors
    set the capacity to [_next_prime c], an odd number and so never [0]:
    [table_load] divides safely and returns [0] on the new map.  For
    [c >= 0] that capacity is the smallest prime that is at least
    [max c 3]. *)
Theorem init_capacity (c : Z) (function : K -> Z) :
  let oa := OA.__init__ (V := V) c function in
  let sc := SC.__init__ (V := V) c function in
  OA.get_capacity oa = Return (_next_prime c) oa /\
  SC.get_capacity sc = Return (_next_prime c) sc /\
  (0 <= c -> smallest_prime_from (Z.max c 3) (_next_prime c)) /\
  _next_prime c mod 2 = 1 /\ _next_prime c <> 0 /\
  (exists load, OA.table_load oa = Return load oa /\ (load == 0)%Q) /\
  (exists load, SC.table_load sc = Return load sc /\ (load == 0)%Q).
Proof.
  intros oa sc. destruct (next_prime_accepts c) as (_ & _ & Hodd).
  assert (Hnz : _next_prime c <> 0) by (intros E; rewrite E in Hodd; discriminate).
  split; [reflexivity|]. split; [reflexivity|].
  split; [intros Hc; apply next_prime_smallest; assumption|].
  split; [assumption|]. split; [assumption|].
  assert (Hzero : (inject_Z 0 / inject_Z (_next_prime c) == 0)%Q)
    by (unfold Qdiv; apply Qmult_0_l).
  split.
  - exists (inject_Z 0 / inject_Z (_next_prime c))%Q. split; [|exact Hzero].
    unfold OA.table_load, bind, get_self. cbn [OA._size OA._capacity oa OA.__init__].
    rewrite py_div_nonzero by assumption. reflexivity.
  - exists (inject_Z 0 / inject_Z (_next_prime c))%Q. split; [|exact Hzero].
    unfold SC.table_load, bind, get_self. cbn [SC._size SC._capacity sc SC.__init__].
    rewrite py_div_nonzero by assumption. reflexivity.
Qed.

(** C5 (amended).  After every [put] that returns on a reachable map of
    positive capacity, [table_load()], which returns [size / capacity],
    is below the threshold ([0.5] with open addressing, [1.0] with
    chaining) whenever the [put] resized the table or did not add an
    entry, so that the check [table_load() >= threshold] fails; a [put]
    that adds an entry without resizing found the load factor below the
    threshold before its write, so in every case
    [(size - 1) / capacity] is below the threshold. *)
Theorem put_load_bound :
  (forall (m m' : OA.HashMap K V) (fuel : nat) (k : K) (v : V),
      OA.reachable m -> OA.put fuel k v m = Return tt m' ->
      0 < OA._capacity m' ->
      OA.table_load m'
      = Return (inject_Z (OA._size m') / inject_Z (OA._capacity m'))%Q m' /\
      2 * (OA._size m' - 1) < OA._capacity m' /\
      (OA._capacity m' <> OA._capacity m \/ OA._size m' <= OA._size m ->
       2 * OA._size m' < OA._capacity m' /\
       Qle_bool (1 # 2)
         (inject_Z (OA._size m') / inject_Z (OA._capacity m')) = false)) /\
  (forall (m m' : SC.HashMap K V) (fuel : nat) (k : K) (v : V),
      SC.reachable m -> SC.put fuel k v m = Return tt m' ->
      SC.table_load m'
      = Return (inject_Z (SC._size m') / inject_Z (SC._capacity m'))%Q m' /\
      0 < SC._capacity m' /\ SC._size m' - 1 < SC._capacity m' /\
      (SC._capacity m' <> SC._capacity m \/ SC._size m' <= SC._size m ->
       SC._size m' < SC._capacity m' /\
       Qle_bool 1
         (inject_Z (SC._size m') / inject_Z (SC._capacity m')) = false)).
Proof.
  split.
  - intros m m' fuel k v Hm Hput Hpos.
    pose proof (oa_reachable_wf m Hm) as Hwf.
    assert (Hpos0 : 0 < OA._capacity m).
    { destruct (Z.lt_ge_cases 0 (OA._capacity m)) as [|Hle]; [assumption|].
      pose proof (oa_capacity_nonzero m Hwf).
      destruct fuel as [|fuel]; [discriminate|].
      pose proof (wf_negative_size m Hwf ltac:(lia)) as Hz.
      rewrite (oa_put_negative_capacity fuel k v m ltac:(lia) Hz) in Hput.
      injection Hput as <-. lia. }
    pose proof (fuel_le_return _ _ _ _
                  (oa_put_fuel_le fuel (S (S fuel)) k v m ltac:(lia)) Hput)
      as Hput2.
    destruct (proj1 (sat_returns _ _ _) (oa_sat_put_load fuel k v m Hwf Hpos0))
      as ([] & m2 & Hret & (Hwf' & _) & Hload).
    rewrite Hput2 in Hret. injection Hret as <-.
    pose proof (oa_wf_load m' Hwf' Hpos) as Hbound.
    split; [|split; [exact Hbound|]].
    + unfold OA.table_load, bind, get_self.
      rewrite py_div_nonzero by lia. reflexivity.
    + intros Hcase.
      assert (Hlt : 2 * OA._size m' < OA._capacity m')
        by (destruct Hload as [[Hc Hl]|[Hc Hl]]; destruct Hcase; lia).
      split; [exact Hlt|].
      rewrite Qle_bool_div by assumption. apply Z.leb_gt. lia.
  - intros m m' fuel k v Hm Hput.
    pose proof (sc_reachable_wf m Hm) as Hwf.
    assert (Hpos : 0 < SC._capacity m).
    { destruct (Z.lt_ge_cases 0 (SC._capacity m)) as [|Hle]; [assumption|].
      pose proof (sc_capacity_nonzero m Hwf).
      destruct (sc_wf_negative m Hwf ltac:(lia)) as [Hb Hz].
      destruct fuel as [|fuel]; [discriminate|].
      rewrite sc_put_negative_capacity in Hput by (assumption || lia).
      discriminate. }
    pose proof (fuel_le_return _ _ _ _
                  (sc_put_fuel_le fuel (S (S fuel)) k v m ltac:(lia)) Hput)
      as Hput2.
    destruct (proj1 (sat_returns _ _ _) (sc_sat_put_load fuel k v m Hwf Hpos))
      as ([] & m2 & Hret & (Hwf' & Hc' & _) & Hload).
    rewrite Hput2 in Hret. injection Hret as <-.
    assert (Hpos' : 0 < SC._capacity m') by lia.
    pose proof (sc_wf_load m' Hwf' Hpos').
    split; [|split; [assumption|split; [lia|]]].
    + unfold SC.table_load, bind, get_self.
      rewrite py_div_nonzero by lia. reflexivity.
    + intros Hcase.
      assert (Hlt : SC._size m' < SC._capacity m')
        by (destruct Hload as [[Hc Hl]|[Hc Hl]]; destruct Hcase; lia).
      split; [exact Hlt|].
      rewrite (Qle_bool_div 1 1) by assumption. apply Z.leb_gt. lia.
Qed.

(** C6.  [resize_table(x)] returns at once, leaving the whole map as it
    was, when [x] is below the bound: [x < size] with open addressing,
    [x < 1] with chaining.  In every other case the resize proceeds: the
    call ends as the rebuild does, which re-inserts the pairs of the map
    into an all-empty table whose capacity is [x] if [x] is prime and the
    next prime otherwise; it returns a well-formed map of prime capacity
    at least [x], without tombstones (open addressing), holding the same
    keys and values (chaining). *)
Theorem resize_table_guard :
  (forall (m : OA.HashMap K V) (x : Z) (fuel : nat),
      OA.reachable m ->
      (x < OA._size m -> OA.resize_table (S fuel) x m = Return tt m) /\
      (OA._size m <= x ->
       exists m',
         OA.resize_table (S (S (S fuel))) x m = Return tt m' /\
         refill (OA.put (S (S fuel))) (live_pairs (OA._buckets m))
           (oa_fresh (coerce x) m) = Return tt m' /\
         oa_resize_post x m m' /\ Z.prime (OA._capacity m') /\
         x <= OA._capacity m')) /\
  (forall (m : SC.HashMap K V) (x : Z) (fuel : nat),
      SC.reachable m ->
      (x < 1 -> SC.resize_table (S fuel) x m = Return tt m) /\
      (1 <= x ->
       exists m',
         SC.resize_table (S (S (S fuel))) x m = Return tt m' /\
         refill (SC.put (S (S fuel))) (all_pairs (SC._buckets m))
           (sc_fresh (coerce x) m) = Return tt m' /\
         sc_resize_post x m m' /\ Z.prime (SC._capacity m') /\
         x <= SC._capacity m')).
Proof.
  split.
  - intros m x fuel Hm. pose proof (oa_reachable_wf m Hm) as Hwf.
    split; [apply oa_resize_table_rejected|]. intros Hx.
    pose proof (oa_wf_size m Hwf) as Hsize.
    pose proof (live_count_bounds (OA._buckets m)) as Hlive.
    destruct (coerce_prime x ltac:(lia)) as [Hcp Hcx].
    pose proof (Z.prime_ge_2 _ Hcp).
    destruct (proj1 (sat_returns _ _ _) (oa_sat_resize_table fuel x m Hwf Hx))
      as ([] & m' & Hret & Hfill & Hpost).
    exists m'. split; [assumption|]. split; [assumption|]. split; [assumption|].
    destruct Hpost as (Hwf' & Hc' & _). split; [|lia].
    apply (oa_wf_prime m' Hwf'). lia.
  - intros m x fuel Hm. pose proof (sc_reachable_wf m Hm) as Hwf.
    split; [apply sc_resize_table_rejected|]. intros Hx.
    destruct (coerce_prime x ltac:(lia)) as [Hcp Hcx].
    pose proof (Z.prime_ge_2 _ Hcp).
    destruct (proj1 (sat_returns _ _ _) (sc_sat_resize_table fuel x m Hwf Hx))
      as ([] & m' & Hret & Hfill & Hpost).
    exists m'. split; [assumption|]. split; [assumption|]. split; [assumption|].
    destruct Hpost as (Hwf' & Hc' & _). split; [|lia].
    apply (sc_wf_prime m' Hwf'). lia.
Qed.

(** C8 (amended).  On every reachable open-addressing map of positive
    capacity, [empty_buckets()] returns the number of slots that are
    empty or tombstoned, [size] is the number of occupied slots that are
    not tombstoned, and the two add up to the capacity.  On every
    reachable chaining map the chain lengths add up to [size]. *)
Theorem empty_buckets_size_capacity :
  (forall m : OA.HashMap K V,
      OA.reachable m -> 0 < OA._capacity m ->
      OA.empty_buckets m = Return (free_count (OA._buckets m)) m /\
      OA._size m = live_count (OA._buckets m) /\
      free_count (OA._buckets m) + OA._size m = OA._capacity m) /\
  (forall m : SC.HashMap K V,
      SC.reachable m -> chain_total (SC._buckets m) = SC._size m).
Proof.
  split.
  - intros m Hm Hpos. pose proof (oa_reachable_wf m Hm) as Hwf.
    pose proof (oa_wf_length m Hwf) as Hlen.
    pose proof (oa_wf_size m Hwf) as Hsize.
    destruct (proj1 (sat_returns _ _ _) (oa_sat_empty_buckets m Hlen))
      as (n & m' & Hret & -> & ->).
    split; [assumption|]. split; [assumption|].
    rewrite Hsize, free_live_count, Hlen. lia.
  - intros m Hm. symmetry. apply sc_wf_size, sc_reachable_wf. assumption.
Qed.

(** C10.  On every reachable map of either variant, [get(k)] and
    [contains_key(k)] return and leave the whole map (bucket array,
    size, capacity, cursor) as it was. *)
Theorem observers_keep_state :
  (forall (m : OA.HashMap K V) (k : K),
      OA.reachable m ->
      (exists r, OA.get k m = Return r m) /\
      (exists b, OA.contains_key k m = Return b m)) /\
  (forall (m : SC.HashMap K V) (k : K),
      SC.reachable m ->
      (exists r, SC.get k m = Return r m) /\
      (exists b, SC.contains_key k m = Return b m)).
Proof.
  split.
  - intros m k Hm. pose proof (oa_reachable_wf m Hm) as Hwf. split.
    + destruct (proj1 (sat_returns _ _ _) (oa_sat_get k m Hwf))
      as (r & m' & Hret & ->). eauto.
    + destruct (proj1 (sat_returns _ _ _) (oa_sat_contains_key k m Hwf))
      as (r & m' & Hret & ->).
      eauto.
  - intros m k Hm. pose proof (sc_reachable_wf m Hm) as Hwf. split.
    + destruct (proj1 (sat_returns _ _ _) (sc_sat_get k m Hwf))
      as (r & m' & Hret & _ & ->). eauto.
    + destruct (proj1 (sat_returns _ _ _) (sc_sat_contains_key k m Hwf))
      as (r & m' & Hret & _ & ->).
      eauto.
Qed.

End Claims.

(** C2 (defect).  Key [11] is live in [oa_tombstoned], one probe behind
    the tombstone of key [0]; [put(11, 300)] does not overwrite its
    entry but writes a second entry for key [11] into the tombstoned
    slot, and [size] grows from [1] to [2]. *)
Theorem oa_put_duplicates_key_behind_tombstone :
  OA.reachable oa_tombstoned /\
  OA.contains_key 11 oa_tombstoned = Return true oa_tombstoned /\
  OA.get 11 oa_tombstoned = Return (Some 200) oa_tombstoned /\
  OA.put 2 11 300 oa_tombstoned = Return tt oa_duplicated /\
  OA._size oa_tombstoned = 1 /\ OA._size oa_duplicated = 2 /\
  live_pairs (OA._buckets oa_duplicated) = [(11, 300); (11, 200)].
Proof.
  split; [apply oa_tombstoned_reachable|].
  repeat split; vm_compute; reflexivity.
Qed.

(** C3 (defect).  [oa_duplicated] holds key [11] twice, as left by the
    [put] of C2: [get_keys_and_values()] returns two pairs before
    [resize_table(23)] and one pair after it. *)
Theorem oa_resize_table_drops_duplicate :
  OA.reachable oa_duplicated /\
  exists m1 m2 m3,
    OA.get_keys_and_values oa_duplicated = Return [(11, 300); (11, 200)] m1 /\
    OA.resize_table 3 23 m1 = Return tt m2 /\
    OA.get_keys_and_values m2 = Return [(11, 200)] m3.
Proof.
  split; [apply oa_duplicated_reachable|].
  eexists _, _, _. split; [vm_compute; reflexivity|].
  split; vm_compute; reflexivity.
Qed.

(** C7 (defect).  [oa_duplicated] holds key [11] twice, as left by the
    [put] of C2: [remove(11)] tombstones the first entry only, and
    [contains_key(11)] still returns [True] afterwards. *)
Theorem oa_remove_leaves_duplicate :
  OA.reachable oa_duplicated /\
  OA.remove 11 oa_duplicated = Return tt oa_half_removed /\
  OA.contains_key 11 oa_half_removed = Return true oa_half_removed /\
  OA.get 11 oa_half_removed = Return (Some 200) oa_half_removed.
Proof.
  split; [apply oa_duplicated_reachable|].
  repeat split; vm_compute; reflexivity.
Qed.

(** C4, as stated, fails at [c = 2]: the smallest prime that is at least
    [max 2 2] is [2], and both constructors set the capacity to [3]. *)
Lemma init_capacity_two :
  OA.get_capacity (OA.__init__ (V := Z) 2 hash_id)
  = Return 3 (OA.__init__ 2 hash_id) /\
  SC.get_capacity (SC.__init__ (V := Z) 2 hash_id)
  = Return 3 (SC.__init__ 2 hash_id) /\
  smallest_prime_from (Z.max 2 2) 2 /\
  ~ smallest_prime_from (Z.max 2 2) 3.
Proof.
  split; [vm_compute; reflexivity|]. split; [vm_compute; reflexivity|].
  split.
  - split; [apply Z.prime_2|]. split; [lia|]. intros q _ Hq. lia.
  - intros (_ & _ & Hmin). specialize (Hmin 2 Z.prime_2 ltac:(lia)). lia.
Qed.

(** [init_capacity] at the request [10]. *)
Lemma init_capacity_witness :
  OA.get_capacity (OA.__init__ (V := Z) 10 hash_id)
  = Return 11 (OA.__init__ 10 hash_id) /\
  smallest_prime_from (Z.max 10 3) 11.
Proof.
  destruct (init_capacity (V := Z) 10 hash_id) as (Hoa & _ & Hmin & _).
  split; [exact Hoa|]. apply Hmin. lia.
Defined.

(** C5, as stated, fails: the second [put] into [HashMap(3)] leaves the
    open-addressing load factor at [2/3], and the third [put] leaves the
    chaining load factor at [3/3]. *)
Lemma put_load_above_threshold :
  (OA.reachable oa_one /\
   OA.put 2 1 1 oa_one = Return tt oa_two /\
   OA.table_load oa_two = Return (2 # 3) oa_two /\ ~ (2 # 3 < 1 # 2)%Q) /\
  (SC.reachable sc_two /\
   SC.put 2 2 2 sc_two = Return tt sc_three /\
   SC.table_load sc_three = Return (3 # 3) sc_three /\ ~ (3 # 3 < 1)%Q).
Proof.
  split.
  - split; [apply oa_one_reachable|]. split; [vm_compute; reflexivity|].
    split; [vm_compute; reflexivity|]. unfold Qlt. simpl. lia.
  - split; [apply sc_two_reachable|]. split; [vm_compute; reflexivity|].
    split; [vm_compute; reflexivity|]. unfold Qlt. simpl. lia.
Qed.

(** [put_load_bound] at the second [put] into the open-addressing
    [HashMap(3)], which adds an entry without resizing, at a third,
    which resizes to capacity [7], and at the third [put] into the
    chaining [HashMap(3)]. *)
Lemma put_load_bound_witness :
  2 * (OA._size oa_two - 1) < OA._capacity oa_two /\
  (exists m', OA.put 2 2 2 oa_two = Return tt m' /\
              OA._capacity m' = 7 /\ 2 * OA._size m' < OA._capacity m') /\
  SC._size sc_three - 1 < SC._capacity sc_three.
Proof.
  split; [|split].
  - apply (proj1 (put_load_bound (K := Z) (V := Z)) oa_one oa_two 2%nat 1 1).
    + apply oa_one_reachable.
    + vm_compute. reflexivity.
    + reflexivity.
  - eexists. split; [vm_compute; reflexivity|]. split; [reflexivity|].
    eapply (proj1 (put_load_bound (K := Z) (V := Z)) oa_two _ 2%nat 2 2).
    + apply oa_two_reachable.
    + vm_compute. reflexivity.
    + reflexivity.
    + left. vm_compute. discriminate.
  - apply (proj2 (put_load_bound (K := Z) (V := Z)) sc_two sc_three 2%nat 2 2).
    + apply sc_two_reachable.
    + vm_compute. reflexivity.
Defined.

(** [resize_table_guard] on maps of two entries: a rejected and a
    performed resize of each variant. *)
Lemma resize_table_guard_witness :
  OA.resize_table 1 1 oa_two = Return tt oa_two /\
  (exists m', OA.resize_table 3 4 oa_two = Return tt m' /\
              OA._capacity m' = 5) /\
  SC.resize_table 1 0 sc_two = Return tt sc_two /\
  (exists m', SC.resize_table 3 1 sc_two = Return tt m' /\
              SC._capacity m' = 3).
Proof.
  destruct (proj1 (resize_table_guard (K := Z) (V := Z)) oa_two 1 0%nat
              oa_two_reachable) as [Hoa_no _].
  destruct (proj1 (resize_table_guard (K := Z) (V := Z)) oa_two 4 0%nat
              oa_two_reachable) as [_ Hoa_go].
  destruct (proj2 (resize_table_guard (K := Z) (V := Z)) sc_two 0 0%nat
              sc_two_reachable) as [Hsc_no _].
  destruct (proj2 (resize_table_guard (K := Z) (V := Z)) sc_two 1 0%nat
              sc_two_reachable) as [_ Hsc_go].
  split; [apply Hoa_no; reflexivity|]. split.
  - destruct Hoa_go as (m' & Hret & _); [vm_compute; discriminate|].
    exists m'. split; [exact Hret|].
    vm_compute in Hret. injection Hret as <-. reflexivity.
  - split; [apply Hsc_no; reflexivity|].
    destruct Hsc_go as (m' & Hret & _); [vm_compute; discriminate|].
    exists m'. split; [exact Hret|].
    vm_compute in Hret. injection Hret as <-. reflexivity.
Defined.

(** C8, as stated, fails: in [oa_one_removed] the only entry is a
    tombstone, which [empty_buckets()] counts and which is also an
    occupied-or-tombstoned slot; the sum is [4], the capacity [3]. *)
Lemma empty_buckets_counts_tombstones :
  OA.reachable oa_one_removed /\
  OA.empty_buckets oa_one_removed = Return 3 oa_one_removed /\
  used_count (OA._buckets oa_one_removed) = 1 /\
  OA._capacity oa_one_removed = 3 /\
  3 + used_count (OA._buckets oa_one_removed) <> OA._capacity oa_one_removed.
Proof.
  split; [apply oa_one_removed_reachable|].
  repeat split; try (vm_compute; reflexivity). vm_compute. discriminate.
Qed.

(** [empty_buckets_size_capacity] on the map with one tombstone and
    on the chaining map of three entries. *)
Lemma empty_buckets_size_capacity_witness :
  OA.empty_buckets oa_one_removed = Return 3 oa_one_removed /\
  3 + OA._size oa_one_removed = OA._capacity oa_one_removed /\
  chain_total (SC._buckets sc_three) = SC._size sc_three.
Proof.
  destruct (proj1 (empty_buckets_size_capacity (K := Z) (V := Z)) oa_one_removed
              oa_one_removed_reachable) as (Hret & _ & Hsum); [reflexivity|].
  split; [exact Hret|]. split; [exact Hsum|].
  apply (proj2 (empty_buckets_size_capacity (K := Z) (V := Z)) sc_three).
  apply sc_three_reachable.
Defined.

(** [observers_keep_state] on two of the scenarios. *)
Lemma observers_keep_state_witness :
  (exists r, OA.get 11 oa_duplicated = Return r oa_duplicated) /\
  (exists b, SC.contains_key 2 sc_three = Return b sc_three).
Proof.
  split.
  - apply (proj1 (observers_keep_state (K := Z) (V := Z)) oa_duplicated 11).
    apply oa_duplicated_reachable.
  - apply (proj2 (observers_keep_state (K := Z) (V := Z)) sc_three 2).
    apply sc_three_reachable.
Defined.

(** A duplicate-free list with the members of [l] is a rearrangement
    of [l]. *)
Lemma modes_permutation {A} (modes l : list A) :
  NoDup modes -> NoDup l -> (forall x, x ∈ modes <-> x ∈ l) -> modes ≡ₚ l.
Proof. intros Hm Hl Hiff. apply NoDup_Permutation; assumption. Qed.

Lemma occurrences_1_2_2_3_3_3 (x : Z) :
  x ∈ [1; 2; 2; 3; 3; 3] ->
  occurrences x [1; 2; 2; 3; 3; 3] <= 3 /\
  (occurrences x [1; 2; 2; 3; 3; 3] = 3 -> x = 3).
Proof.
  intros Hx.
  repeat (apply elem_of_cons in Hx as [->|Hx]);
    try (split; [vm_compute; discriminate|]; vm_compute; congruence).
  inversion Hx.
Qed.

Lemma occurrences_1_2_3 (x : Z) :
  x ∈ [1; 2; 3] -> occurrences x [1; 2; 3] = 1.
Proof.
  intros Hx.
  repeat (apply elem_of_cons in Hx as [->|Hx]); try reflexivity.
  inversion Hx.
Qed.

(** C9.  Given fuel for one resize, [find_mode] returns, for every hash
    function, the values whose number of occurrences in the input is the
    largest, each once, with that number as the frequency ([0] and no
    value for the empty input): mode set [{3}] and frequency [3] for
    [1, 2, 2, 3, 3, 3]; mode set [{1, 2, 3}] and frequency [1] for
    [1, 2, 3]; no mode and frequency [0] for the empty input. *)
Theorem find_mode_modes (fuel : nat) :
  (2 <= fuel)%nat ->
  (forall (K : Type) (EqK : EqDecision K) (hash_function_1 : K -> Z)
          (da : list K),
      exists modes frequency s,
        SC.find_mode hash_function_1 fuel da = Return (modes, frequency) s /\
        mode_of da modes frequency) /\
  (forall hash_function_1 : Z -> Z,
      exists modes s,
        SC.find_mode hash_function_1 fuel [1; 2; 2; 3; 3; 3]
        = Return (modes, 3) s /\ modes ≡ₚ [3]) /\
  (forall hash_function_1 : Z -> Z,
      exists modes s,
        SC.find_mode hash_function_1 fuel [1; 2; 3] = Return (modes, 1) s /\
        modes ≡ₚ [1; 2; 3]) /\
  (forall hash_function_1 : Z -> Z,
      exists s, SC.find_mode hash_function_1 fuel [] = Return ([], 0) s).
Proof.
  intros Hfuel. destruct fuel as [|[|fuel]]; [lia|lia|]. clear Hfuel.
  split; [intros K EqK h da; apply find_mode_sat|].
  split; [|split]; intros h.
  - destruct (find_mode_sat h fuel [1; 2; 2; 3; 3; 3])
      as (modes & f & s & Hret & Hle & _ & Hatt & Hmodes & Hnd).
    assert (Hf : f = 3).
    { destruct Hatt as (x & Hx & Hocc); [discriminate|].
      pose proof (Hle 3) as H3. change (occurrences 3 _) with 3 in H3.
      destruct (occurrences_1_2_2_3_3_3 x Hx) as [Hx3 _]. lia. }
    subst f. exists modes, s. split; [exact Hret|].
    apply modes_permutation; [assumption|apply NoDup_singleton|].
    intros x. rewrite Hmodes, list_elem_of_singleton. split.
    + intros [Hx Hocc]. apply (occurrences_1_2_2_3_3_3 x Hx). exact Hocc.
    + intros ->. split; [|reflexivity].
      rewrite !elem_of_cons. auto 10.
  - destruct (find_mode_sat h fuel [1; 2; 3])
      as (modes & f & s & Hret & Hle & _ & Hatt & Hmodes & Hnd).
    assert (Hf : f = 1).
    { destruct Hatt as (x & Hx & Hocc); [discriminate|].
      rewrite <- Hocc. apply occurrences_1_2_3. exact Hx. }
    subst f. exists modes, s. split; [exact Hret|].
    apply modes_permutation; [assumption| |].
    + repeat (apply NoDup_cons; split;
                [rewrite ?elem_of_cons, elem_of_nil; lia|]).
      apply NoDup_nil_2.
    + intros x. rewrite Hmodes. split; [tauto|].
      intros Hx. split; [assumption|apply occurrences_1_2_3; assumption].
  - destruct (find_mode_sat h fuel [])
      as (modes & f & s & Hret & _ & Hzero & _ & Hmodes & _).
    rewrite (Hzero eq_refl) in Hret. exists s.
    destruct modes as [|x modes]; [exact Hret|].
    exfalso. destruct (proj1 (Hmodes x)) as [Hx _]; [apply elem_of_cons; auto|].
    inversion Hx.
Qed.

(** [find_mode_modes] with fuel [2] and the identity as hash function. *)
Lemma find_mode_modes_witness :
  exists modes s,
    SC.find_mode hash_id 2 [1; 2; 2; 3; 3; 3] = Return (modes, 3) s /\
    modes ≡ₚ [3].
Proof.
  apply (proj1 (proj2 (find_mode_modes 2 ltac:(lia)))).
Defined.

(** * Further properties of the code *)

(** ** Reachability of the further scenarios *)

Lemma sc_negative_reachable : SC.reachable sc_negative.
Proof. exact (SC.reachable_init (-1) hash_id). Qed.

Lemma oa_iterating_reachable : OA.reachable oa_iterating.
Proof.
  apply (oa_after_all_reachable 2 [OA.Iter] oa_two).
  - apply oa_two_reachable.
  - vm_compute. reflexivity.
Qed.

(** ** Further properties of the chaining map *)

Section ChainingProperties.
Context {K V : Type} `{EqDecision K}.

(** X1: on a reachable chaining map of positive capacity [put(k, v)]
    returns; afterwards [get(k)] returns [v] and [contains_key(k)]
    [True], every other key reads as before, and [size] has grown by one
    exactly if the key was new. *)
Theorem sc_put_then_get (m : SC.HashMap K V) (fuel : nat) (k : K) (v : V) :
  SC.reachable m -> 0 < SC._capacity m ->
  exists m' (b : bool),
    SC.put (S (S fuel)) k v m = Return tt m' /\
    SC.get k m' = Return (Some v) m' /\
    SC.contains_key k m' = Return true m' /\
    (forall k', k' <> k ->
       exists r, SC.get k' m = Return r m /\ SC.get k' m' = Return r m') /\
    SC.contains_key k m = Return b m /\
    SC._size m' = SC._size m + (if b then 0 else 1).
Proof.
  intros Hm Hpos. pose proof (sc_reachable_wf m Hm) as Hwf.
  destruct (proj1 (sat_returns _ _ _) (sc_sat_put fuel k v m Hwf Hpos))
    as ([] & m' & Hput & Hwf' & _ & _ & Hlk & Hsize).
  destruct (proj1 (sat_returns _ _ _) (sc_sat_contains_key k m Hwf))
    as (b & m0 & Hb & -> & ->).
  exists m', (bool_decide (is_Some (sc_lookup m k))).
  split; [exact Hput|].
  destruct (proj1 (sat_returns _ _ _) (sc_sat_get k m' Hwf'))
    as (r & m1 & Hget & -> & ->).
  destruct (proj1 (sat_returns _ _ _) (sc_sat_contains_key k m' Hwf'))
    as (b' & m1 & Hc & -> & ->).
  rewrite Hlk, decide_True in Hget, Hc by reflexivity.
  split; [exact Hget|]. split; [rewrite Hc, bool_decide_eq_true_2; eauto|].
  split; [|split; [exact Hb|]].
  - intros k' Hne.
    destruct (proj1 (sat_returns _ _ _) (sc_sat_get k' m Hwf))
      as (r & m1 & Hg & -> & ->).
    destruct (proj1 (sat_returns _ _ _) (sc_sat_get k' m' Hwf'))
      as (r' & m1 & Hg' & -> & ->).
    rewrite Hlk, decide_False in Hg' by assumption. eauto.
  - rewrite Hsize. destruct (sc_lookup m k) as [v0|].
    + rewrite bool_decide_eq_true_2 by eauto. reflexivity.
    + rewrite bool_decide_eq_false_2 by (intros [? [=]]). reflexivity.
Qed.

(** X2: a chaining map built with a negative capacity has no bucket;
    [put] on it raises [DynamicArrayException] and leaves the map as it
    was. *)
Theorem sc_put_negative_capacity_raises (m : SC.HashMap K V) (fuel : nat)
  (k : K) (v : V) :
  SC.reachable m -> SC._capacity m < 0 ->
  SC.put (S fuel) k v m = Raise DynamicArrayException m.
Proof.
  intros Hm Hneg. pose proof (sc_reachable_wf m Hm) as Hwf.
  destruct (sc_wf_negative m Hwf Hneg) as [Hb Hz].
  apply sc_put_negative_capacity; assumption.
Qed.

(** X3: a [resize_table(x)] with [x >= 1] returns; the pairs that
    [get_keys_and_values()] returns before and after it are
    rearrangements of each other, [size] and every [get] are unchanged,
    and the new capacity is a prime that is at least [x]. *)
Theorem sc_resize_table_keeps_pairs (m : SC.HashMap K V) (fuel : nat) (x : Z) :
  SC.reachable m -> 1 <= x ->
  exists m' before after,
    SC.resize_table (S (S (S fuel))) x m = Return tt m' /\
    SC.get_keys_and_values m = Return before m /\
    SC.get_keys_and_values m' = Return after m' /\
    before ≡ₚ after /\
    SC._size m' = SC._size m /\
    Z.prime (SC._capacity m') /\ x <= SC._capacity m' /\
    forall k, exists r, SC.get k m = Return r m /\ SC.get k m' = Return r m'.
Proof.
  intros Hm Hx. pose proof (sc_reachable_wf m Hm) as Hwf.
  destruct (proj1 (sat_returns _ _ _) (sc_sat_resize_table fuel x m Hwf Hx))
    as ([] & m' & Hret & _ & Hwf' & Hcap & _ & Hlk & Hsize).
  destruct (proj1 (sat_returns _ _ _)
              (sc_sat_get_keys_and_values m (sc_wf_length m Hwf)))
    as (before & m0 & Hbefore & -> & ->).
  destruct (proj1 (sat_returns _ _ _)
              (sc_sat_get_keys_and_values m' (sc_wf_length m' Hwf')))
    as (after & m0 & Hafter & -> & ->).
  destruct (coerce_prime x ltac:(lia)) as [Hcp Hcx].
  pose proof (Z.prime_ge_2 _ Hcp).
  exists m', (all_pairs (SC._buckets m)), (all_pairs (SC._buckets m')).
  split; [exact Hret|]. split; [exact Hbefore|]. split; [exact Hafter|].
  split; [|split; [exact Hsize|split; [|split; [lia|]]]].
  - apply assoc_permutation; try (apply NoDup_all_pairs; assumption).
    intros k. rewrite !assoc_all_pairs by assumption. symmetry. apply Hlk.
  - apply (sc_wf_prime m' Hwf'). lia.
  - intros k.
    destruct (proj1 (sat_returns _ _ _) (sc_sat_get k m Hwf))
      as (r & m1 & Hg & -> & ->).
    destruct (proj1 (sat_returns _ _ _) (sc_sat_get k m' Hwf'))
      as (r' & m1 & Hg' & -> & ->).
    rewrite Hlk in Hg'. eauto.
Qed.

(** X4: [remove(k)] returns on every reachable chaining map; afterwards
    [contains_key(k)] is [False], every other key reads as before, the
    capacity is unchanged, and [size] has dropped by one exactly if the
    key was present. *)
Theorem sc_remove_then_contains_key (m : SC.HashMap K V) (k : K) :
  SC.reachable m ->
  exists m' (b : bool),
    SC.remove k m = Return tt m' /\
    SC.contains_key k m' = Return false m' /\
    SC.get k m' = Return None m' /\
    (forall k', k' <> k ->
       exists r, SC.get k' m = Return r m /\ SC.get k' m' = Return r m') /\
    SC.contains_key k m = Return b m /\
    SC._size m' = SC._size m - (if b then 1 else 0) /\
    SC._capacity m' = SC._capacity m.
Proof.
  intros Hm. pose proof (sc_reachable_wf m Hm) as Hwf.
  destruct (proj1 (sat_returns _ _ _) (sc_sat_remove k m Hwf))
    as ([] & m' & Hrem & Hwf' & Hcap & _ & Hlk & Hsize).
  destruct (proj1 (sat_returns _ _ _) (sc_sat_contains_key k m Hwf))
    as (b & m0 & Hb & -> & ->).
  destruct (proj1 (sat_returns _ _ _) (sc_sat_get k m' Hwf'))
    as (r & m1 & Hget & -> & ->).
  destruct (proj1 (sat_returns _ _ _) (sc_sat_contains_key k m' Hwf'))
    as (b' & m1 & Hc & -> & ->).
  rewrite Hlk, decide_True in Hget, Hc by reflexivity.
  exists m', (bool_decide (is_Some (sc_lookup m k))).
  split; [exact Hrem|].
  split; [rewrite Hc, bool_decide_eq_false_2; [reflexivity|intros [? [=]]]|].
  split; [exact Hget|]. split; [|split; [exact Hb|split; [|exact Hcap]]].
  - intros k' Hne.
    destruct (proj1 (sat_returns _ _ _) (sc_sat_get k' m Hwf))
      as (r & m1 & Hg & -> & ->).
    destruct (proj1 (sat_returns _ _ _) (sc_sat_get k' m' Hwf'))
      as (r' & m1 & Hg' & -> & ->).
    rewrite Hlk, decide_False in Hg' by assumption. eauto.
  - rewrite Hsize. destruct (sc_lookup m k) as [v0|].
    + rewrite bool_decide_eq_true_2 by eauto. reflexivity.
    + rewrite bool_decide_eq_false_2 by (intros [? [=]]). reflexivity.
Qed.

(** X5: [clear()] returns on every reachable chaining map and keeps the
    capacity; afterwards [size] is [0], no pair is left, every [get]
    returns [None], and every bucket is empty. *)
Theorem sc_clear_empties (m : SC.HashMap K V) :
  SC.reachable m ->
  exists m',
    SC.clear m = Return tt m' /\
    SC._size m' = 0 /\ SC._capacity m' = SC._capacity m /\
    SC.get_keys_and_values m' = Return [] m' /\
    SC.empty_buckets m' = Return (Z.max (SC._capacity m) 0) m' /\
    forall k, SC.get k m' = Return None m' /\
              SC.contains_key k m' = Return false m'.
Proof.
  intros Hm. pose proof (sc_reachable_wf m Hm) as Hwf.
  pose proof (sc_wf_length m Hwf) as Hlen.
  destruct (proj1 (sat_returns _ _ _) (sc_sat_clear m Hlen))
    as ([] & m' & Hclear & ->).
  pose proof (sc_clear_wf m Hwf) as Hwf'.
  set (m' := SC.with_size 0 _) in *.
  exists m'. split; [exact Hclear|]. split; [reflexivity|]. split; [reflexivity|].
  assert (Hlen' : length (SC._buckets m') = Z.to_nat (SC._capacity m'))
    by apply (sc_wf_length m' Hwf').
  split; [|split].
  - destruct (proj1 (sat_returns _ _ _) (sc_sat_get_keys_and_values m' Hlen'))
      as (r & m1 & Hr & -> & ->).
    rewrite Hr. unfold m'. cbn [SC.with_size SC.with_buckets SC._buckets].
    rewrite all_pairs_replicate. reflexivity.
  - destruct (proj1 (sat_returns _ _ _) (sc_sat_empty_buckets m' Hlen'))
      as (r & m1 & Hr & -> & ->).
    rewrite Hr. f_equal. unfold m'.
    cbn [SC.with_size SC.with_buckets SC._buckets].
    rewrite empty_count_replicate, Hlen. lia.
  - intros k.
    assert (Hnone : sc_lookup m' k = None)
      by (apply sc_wf_size_zero; [assumption|reflexivity]).
    destruct (proj1 (sat_returns _ _ _) (sc_sat_get k m' Hwf'))
      as (r & m1 & Hget & -> & ->).
    destruct (proj1 (sat_returns _ _ _) (sc_sat_contains_key k m' Hwf'))
      as (b' & m1 & Hc & -> & ->).
    rewrite Hnone in Hget, Hc. split; [exact Hget|].
    rewrite Hc, bool_decide_eq_false_2; [reflexivity|intros [? [=]]].
Qed.

(** X6: on every reachable chaining map [get_keys_and_values()] returns,
    without changing the map, a list of [size] pairs with pairwise
    different keys, and the other observers read that list: for every
    pair [(k, v)] of it [get(k)] returns [v] and [contains_key(k)]
    [True]; for every key that is not in it [get(k)] returns [None] and
    [contains_key(k)] [False]. *)
Theorem sc_observers_agree (m : SC.HashMap K V) :
  SC.reachable m ->
  exists pairs,
    SC.get_keys_and_values m = Return pairs m /\
    NoDup pairs.*1 /\
    Z.of_nat (length pairs) = SC._size m /\
    (forall k v, (k, v) ∈ pairs ->
       SC.get k m = Return (Some v) m /\ SC.contains_key k m = Return true m) /\
    (forall k, k ∉ pairs.*1 ->
       SC.get k m = Return None m /\ SC.contains_key k m = Return false m).
Proof.
  intros Hm. pose proof (sc_reachable_wf m Hm) as Hwf.
  destruct (proj1 (sat_returns _ _ _)
              (sc_sat_get_keys_and_values m (sc_wf_length m Hwf)))
    as (pairs & m0 & Hpairs & -> & ->).
  exists (all_pairs (SC._buckets m)). split; [exact Hpairs|].
  split; [apply NoDup_all_pairs; assumption|].
  split; [rewrite all_pairs_length; symmetry; apply (sc_wf_size m Hwf)|].
  split.
  - intros k v Hin. apply sc_lookup_elem_of in Hin; [|assumption].
    destruct (proj1 (sat_returns _ _ _) (sc_sat_get k m Hwf))
      as (r & m1 & Hg & -> & ->).
    destruct (proj1 (sat_returns _ _ _) (sc_sat_contains_key k m Hwf))
      as (b & m1 & Hc & -> & ->).
    rewrite Hin in Hg, Hc. split; [exact Hg|].
    rewrite Hc, bool_decide_eq_true_2; eauto.
  - intros k Hnotin.
    assert (Hnone : sc_lookup m k = None).
    { destruct (sc_lookup m k) as [v|] eqn:E; [|reflexivity].
      exfalso. apply Hnotin. apply sc_lookup_is_Some; [assumption|].
      rewrite E. eauto. }
    destruct (proj1 (sat_returns _ _ _) (sc_sat_get k m Hwf))
      as (r & m1 & Hg & -> & ->).
    destruct (proj1 (sat_returns _ _ _) (sc_sat_contains_key k m Hwf))
      as (b & m1 & Hc & -> & ->).
    rewrite Hnone in Hg, Hc. split; [exact Hg|].
    rewrite Hc, bool_decide_eq_false_2; [reflexivity|intros [? [=]]].
Qed.

(** X7: on a reachable chaining map of positive capacity
    [empty_buckets()] returns a number between [capacity - size] and
    [capacity], and [capacity] itself when the map is empty. *)
Theorem sc_empty_buckets_bounds (m : SC.HashMap K V) :
  SC.reachable m -> 0 < SC._capacity m ->
  exists n,
    SC.empty_buckets m = Return n m /\
    SC._capacity m - SC._size m <= n <= SC._capacity m /\
    (SC._size m = 0 -> n = SC._capacity m).
Proof.
  intros Hm Hpos. pose proof (sc_reachable_wf m Hm) as Hwf.
  pose proof (sc_wf_length m Hwf) as Hlen.
  pose proof (sc_wf_size m Hwf) as Hsize.
  destruct (proj1 (sat_returns _ _ _) (sc_sat_empty_buckets m Hlen))
    as (n & m0 & Hn & -> & ->).
  exists (empty_count (SC._buckets m)). split; [exact Hn|].
  pose proof (empty_count_bounds (SC._buckets m)). lia.
Qed.

End ChainingProperties.

(** ** Further properties of the open-addressing map *)

Section OpenAddressingProperties.
Context {K V : Type} `{EqDecision K}.

(** A table whose slots are all empty: what the observers return. *)
Lemma oa_empty_table (m : OA.HashMap K V) (n : nat) :
  oa_wf m -> OA._buckets m = replicate n None ->
  OA.empty_buckets m = Return (Z.of_nat n) m /\
  OA.get_keys_and_values m
  = Return [] (OA.with_index (Z.max (OA._capacity m) 0) m) /\
  forall k, OA.get k m = Return None m /\ OA.contains_key k m = Return false m.
Proof.
  intros Hwf Hb. pose proof (oa_wf_length m Hwf) as Hlen.
  assert (Hnone : forall k j e, ~ first_hit m k j e).
  { intros k j e (_ & He & _). rewrite Hb in He.
    apply lookup_replicate in He as [[=] _]. }
  split; [|split].
  - destruct (proj1 (sat_returns _ _ _) (oa_sat_empty_buckets m Hlen))
      as (r & m1 & Hr & -> & ->).
    rewrite Hr. f_equal.
    pose proof (free_live_count (OA._buckets m)) as Hsum.
    rewrite Hb, live_count_replicate, length_replicate in Hsum.
    rewrite Hb. lia.
  - destruct (proj1 (sat_returns _ _ _) (oa_sat_get_keys_and_values m Hlen))
      as (pairs & m1 & Hpairs & -> & ->).
    rewrite Hpairs. f_equal.
    pose proof (live_pairs_length (OA._buckets m)) as Hl.
    rewrite Hb, live_count_replicate in Hl. rewrite <- Hb in Hl.
    destruct (live_pairs (OA._buckets m)); [reflexivity|discriminate].
  - intros k.
    destruct (proj1 (sat_returns _ _ _) (sat_get_search k m Hwf))
      as (r & m0 & Hget & -> & Hr).
    destruct (proj1 (sat_returns _ _ _) (sat_contains_key_search k m Hwf))
      as (b & m0 & Hcontains & -> & Hb').
    destruct Hr as [(j & e & Hhit & ->)|[_ ->]]; [exfalso; eapply Hnone; eauto|].
    destruct Hb' as [(j & e & Hhit & ->)|[_ ->]]; [exfalso; eapply Hnone; eauto|].
    auto.
Qed.

(** X8: on a reachable open-addressing map of positive capacity
    [put(k, v)] returns (the probe loop finds a slot before it gives
    up); afterwards [get(k)] returns [v] and [contains_key(k)] [True],
    [size] has grown by at most one and the capacity has not shrunk. *)
Theorem oa_put_then_get (m : OA.HashMap K V) (fuel : nat) (k : K) (v : V) :
  OA.reachable m -> 0 < OA._capacity m ->
  exists m',
    OA.put (S (S fuel)) k v m = Return tt m' /\
    OA.get k m' = Return (Some v) m' /\
    OA.contains_key k m' = Return true m' /\
    OA._size m' <= OA._size m + 1 /\
    OA._capacity m <= OA._capacity m'.
Proof.
  intros Hm Hpos. pose proof (oa_reachable_wf m Hm) as Hwf.
  destruct (proj1 (sat_returns _ _ _) (oa_sat_put_stores fuel k v m Hwf Hpos))
    as ([] & m' & Hput & (Hwf' & Hcap & _ & Hsize & _) & j & Hstored).
  destruct (oa_get_stored k v m' j Hstored) as [Hget Hcontains].
  exists m'. auto.
Qed.

(** X9: on every reachable map [contains_key(k)] and [get(k)] return
    without changing the map and agree: if [contains_key(k)] returns
    [True] then [get(k)] returns a value that [get_keys_and_values()]
    pairs with [k]; if it returns [False] then [get(k)] returns
    [None]. *)
Theorem oa_observers_agree (m : OA.HashMap K V) (k : K) :
  OA.reachable m ->
  exists (b : bool) pairs m',
    OA.contains_key k m = Return b m /\
    OA.get_keys_and_values m = Return pairs m' /\
    if b then exists v, OA.get k m = Return (Some v) m /\ (k, v) ∈ pairs
    else OA.get k m = Return None m.
Proof.
  intros Hm. pose proof (oa_reachable_wf m Hm) as Hwf.
  destruct (proj1 (sat_returns _ _ _) (sat_get_search k m Hwf))
    as (r & m0 & Hget & -> & Hr).
  destruct (proj1 (sat_returns _ _ _) (sat_contains_key_search k m Hwf))
    as (b & m0 & Hcontains & -> & Hb).
  destruct (proj1 (sat_returns _ _ _)
              (oa_sat_get_keys_and_values m (oa_wf_length m Hwf)))
    as (pairs & m' & Hpairs & -> & _).
  exists b, (live_pairs (OA._buckets m)), m'.
  split; [exact Hcontains|]. split; [exact Hpairs|].
  destruct Hr as [(j & e & Hhit & ->)|[Hno ->]];
    destruct Hb as [(j' & e' & Hhit' & ->)|[Hno' ->]].
  - exists (OA.value e). split; [exact Hget|].
    destruct Hhit as (_ & He & Hlive & _).
    simpl in Hlive. apply andb_prop in Hlive as [Hkey Hlive].
    apply bool_decide_eq_true in Hkey. apply negb_true_iff in Hlive.
    rewrite <- Hkey. eapply elem_of_live_pairs; eassumption.
  - exfalso. eapply first_hit_no_hit; eassumption.
  - exfalso. eapply first_hit_no_hit; eassumption.
  - exact Hget.
Qed.

(** X10: [remove(k)] returns on every reachable map and keeps the
    capacity and the length of the bucket array; it leaves the map as
    it was if [contains_key(k)] is [False], and lowers [size] by exactly
    one if it is [True]. *)
Theorem oa_remove_effect (m : OA.HashMap K V) (k : K) :
  OA.reachable m ->
  exists (b : bool) m',
    OA.contains_key k m = Return b m /\
    OA.remove k m = Return tt m' /\
    OA._size m' = OA._size m - (if b then 1 else 0) /\
    OA._capacity m' = OA._capacity m /\
    length (OA._buckets m') = length (OA._buckets m) /\
    (b = false -> m' = m).
Proof.
  intros Hm. pose proof (oa_reachable_wf m Hm) as Hwf.
  destruct (proj1 (sat_returns _ _ _) (sat_contains_key_search k m Hwf))
    as (b & m0 & Hcontains & -> & Hb).
  destruct (proj1 (sat_returns _ _ _) (sat_remove_search k m Hwf))
    as ([] & m' & Hremove & Hr).
  exists b, m'. split; [exact Hcontains|]. split; [exact Hremove|].
  destruct Hr as [(j & e & Hhit & ->)|[Hno ->]];
    destruct Hb as [(j' & e' & Hhit' & ->)|[Hno' ->]].
  - split; [reflexivity|]. split; [reflexivity|].
    split; [apply length_insert|discriminate].
  - exfalso. eapply first_hit_no_hit; eassumption.
  - exfalso. eapply first_hit_no_hit; eassumption.
  - split; [lia|]. auto.
Qed.

(** X11: [clear()] returns on every reachable map and keeps the capacity;
    afterwards [size] is [0], every slot is empty, [empty_buckets()]
    returns the capacity, [get_keys_and_values()] returns no pair, and
    [get] returns [None] and [contains_key] [False] for every key. *)
Theorem oa_clear_empties (m : OA.HashMap K V) :
  OA.reachable m ->
  exists m',
    OA.clear m = Return tt m' /\
    OA._size m' = 0 /\ OA._capacity m' = OA._capacity m /\
    OA._buckets m' = replicate (Z.to_nat (OA._capacity m)) None /\
    OA.empty_buckets m' = Return (Z.max (OA._capacity m) 0) m' /\
    OA.get_keys_and_values m'
    = Return [] (OA.with_index (Z.max (OA._capacity m) 0) m') /\
    forall k, OA.get k m' = Return None m' /\
              OA.contains_key k m' = Return false m'.
Proof.
  intros Hm. pose proof (oa_reachable_wf m Hm) as Hwf.
  pose proof (oa_wf_length m Hwf) as Hlen.
  destruct (proj1 (sat_returns _ _ _) (oa_sat_clear m Hlen))
    as ([] & m' & Hclear & ->).
  pose proof (oa_clear_wf m Hwf) as Hwf'.
  set (m' := OA.with_size 0 _) in *.
  assert (Hb : OA._buckets m' = replicate (Z.to_nat (OA._capacity m)) None)
    by (unfold m'; cbn [OA.with_size OA.with_buckets OA._buckets];
        rewrite Hlen; reflexivity).
  destruct (oa_empty_table m' _ Hwf' Hb) as (Hempty & Hpairs & Hget).
  exists m'. split; [exact Hclear|]. split; [reflexivity|]. split; [reflexivity|].
  split; [exact Hb|]. split; [|split; [exact Hpairs|exact Hget]].
  rewrite Hempty. f_equal. lia.
Qed.

(** X12: on every reachable map [get_keys_and_values()] returns [size]
    pairs, those of the occupied slots that are not tombstoned, in slot
    order; it changes nothing but the iteration cursor. *)
Theorem oa_get_keys_and_values_live (m : OA.HashMap K V) :
  OA.reachable m ->
  exists m',
    OA.get_keys_and_values m = Return (live_pairs (OA._buckets m)) m' /\
    Z.of_nat (length (live_pairs (OA._buckets m))) = OA._size m /\
    OA._buckets m' = OA._buckets m /\ OA._size m' = OA._size m /\
    OA._capacity m' = OA._capacity m /\
    OA._index m' = Some (Z.max (OA._capacity m) 0).
Proof.
  intros Hm. pose proof (oa_reachable_wf m Hm) as Hwf.
  destruct (proj1 (sat_returns _ _ _)
              (oa_sat_get_keys_and_values m (oa_wf_length m Hwf)))
    as (pairs & m' & Hpairs & -> & ->).
  eexists. split; [exact Hpairs|].
  split; [rewrite live_pairs_length; symmetry; apply (oa_wf_size m Hwf)|].
  repeat split.
Qed.

(** X13: [__iter__] returns on every reachable map and changes nothing
    but the cursor, which it leaves on the first slot that holds an
    entry (tombstoned or not), or at the end of the table when every
    slot is empty. *)
Theorem oa_iter_first_entry (m : OA.HashMap K V) :
  OA.reachable m ->
  exists j,
    OA.__iter__ m = Return tt (OA.with_index j m) /\
    0 <= j <= Z.max (OA._capacity m) 0 /\
    (forall i, 0 <= i < j -> OA._buckets m !! Z.to_nat i = Some None) /\
    (j < OA._capacity m ->
     exists e, OA._buckets m !! Z.to_nat j = Some (Some e)).
Proof.
  intros Hm. pose proof (oa_reachable_wf m Hm) as Hwf.
  destruct (proj1 (sat_returns _ _ _) (sat_iter_first m (oa_wf_length m Hwf)))
    as ([] & m' & Hiter & j & Hj & -> & Hnone & Hentry).
  exists j. auto.
Qed.

(** X14: [__next__] on a reachable map whose cursor [__iter__] or an
    earlier [__next__] has set within the table returns the first entry
    at or after the cursor that is not tombstoned and moves the cursor
    behind it, or raises [StopIteration] with the cursor at the end when
    no such entry is left; before any [__iter__] there is no cursor and
    it raises [AttributeError]. *)
Theorem oa_next_entry (m : OA.HashMap K V) :
  OA.reachable m ->
  (OA._index m = None -> OA.__next__ m = Raise AttributeError m) /\
  (forall i, OA._index m = Some i -> 0 <= i <= Z.max (OA._capacity m) 0 ->
     (exists j e,
        i <= j < OA._capacity m /\
        OA._buckets m !! Z.to_nat j = Some (Some e) /\
        OA.is_tombstone e = false /\
        live_pairs (drop (Z.to_nat i) (OA._buckets m))
        = (OA.key e, OA.value e)
            :: live_pairs (drop (Z.to_nat (j + 1)) (OA._buckets m)) /\
        OA.__next__ m = Return (Some e) (OA.with_index (j + 1) m)) \/
     (live_pairs (drop (Z.to_nat i) (OA._buckets m)) = [] /\
      OA.__next__ m
      = Raise StopIteration (OA.with_index (Z.max (OA._capacity m) 0) m))).
Proof.
  intros Hm. pose proof (oa_reachable_wf m Hm) as Hwf.
  pose proof (oa_wf_length m Hwf) as Hlen. split.
  - intros Hnone. unfold OA.__next__, bind, get_self. cbn [while].
    unfold bind, get_self, OA.read_index, bind, get_self. rewrite Hnone.
    reflexivity.
  - intros i Hi Hrange.
    assert (Hm_eq : OA.with_index i m = m)
      by (destruct m; simpl in *; subst; reflexivity).
    destruct (next_outcome_entry m i Hlen Hrange)
      as [(j & e & Hj & Hslot & He & Hpairs & Hnext)|(Hpairs & Hnext)];
      rewrite Hm_eq in Hnext.
    + left. exists j, e. auto.
    + right. auto.
Qed.

End OpenAddressingProperties.

(** ** Properties of both maps and of the primality helpers *)

Section SharedProperties.
Context {K V : Type} `{EqDecision K}.

(** X15: in every reachable state of either map the capacity is not [0],
    and it is prime when it is positive; so [table_load()] never divides
    by zero: it returns [size / capacity] and leaves the map as it
    was. *)
Theorem capacity_never_zero :
  (forall m : OA.HashMap K V,
      OA.reachable m ->
      OA._capacity m <> 0 /\
      (0 < OA._capacity m -> Z.prime (OA._capacity m)) /\
      OA.table_load m
      = Return (inject_Z (OA._size m) / inject_Z (OA._capacity m))%Q m) /\
  (forall m : SC.HashMap K V,
      SC.reachable m ->
      SC._capacity m <> 0 /\
      (0 < SC._capacity m -> Z.prime (SC._capacity m)) /\
      SC.table_load m
      = Return (inject_Z (SC._size m) / inject_Z (SC._capacity m))%Q m).
Proof.
  split.
  - intros m Hm. pose proof (oa_reachable_wf m Hm) as Hwf.
    pose proof (oa_capacity_nonzero m Hwf) as Hc0.
    split; [assumption|]. split; [apply (oa_wf_prime m Hwf)|].
    unfold OA.table_load, bind, get_self.
    rewrite py_div_nonzero by assumption. reflexivity.
  - intros m Hm. pose proof (sc_reachable_wf m Hm) as Hwf.
    pose proof (sc_capacity_nonzero m Hwf) as Hc0.
    split; [assumption|]. split; [apply (sc_wf_prime m Hwf)|].
    unfold SC.table_load, bind, get_self.
    rewrite py_div_nonzero by assumption. reflexivity.
Qed.

(** X16: a newly constructed map of either variant holds nothing,
    whatever capacity was asked for: [size] is [0], [get] returns
    [None] and [contains_key] [False] for every key,
    [get_keys_and_values()] returns no pair, and [empty_buckets()]
    returns the number of buckets the constructor appended. *)
Theorem new_map_is_empty (c : Z) (function : K -> Z) :
  (let m := OA.__init__ (V := V) c function in
   OA._size m = 0 /\
   OA.empty_buckets m = Return (Z.max (_next_prime c) 0) m /\
   OA.get_keys_and_values m
   = Return [] (OA.with_index (Z.max (_next_prime c) 0) m) /\
   forall k, OA.get k m = Return None m /\
             OA.contains_key k m = Return false m) /\
  (let m := SC.__init__ (V := V) c function in
   SC._size m = 0 /\
   SC.empty_buckets m = Return (Z.max (_next_prime c) 0) m /\
   SC.get_keys_and_values m = Return [] m /\
   forall k, SC.get k m = Return None m /\
             SC.contains_key k m = Return false m).
Proof.
  split; intros m.
  - pose proof (oa_init_wf (V := V) c function) as Hwf. fold m in Hwf.
    destruct (oa_empty_table m _ Hwf (oa_init_buckets c function))
      as (Hempty & Hpairs & Hget).
    split; [reflexivity|]. split; [rewrite Hempty; f_equal; lia|].
    split; [exact Hpairs|exact Hget].
  - pose proof (sc_init_wf (V := V) c function) as Hwf. fold m in Hwf.
    pose proof (sc_wf_length m Hwf) as Hlen.
    pose proof (sc_init_buckets (V := V) c function) as Hb. fold m in Hb.
    split; [reflexivity|]. split; [|split].
    + destruct (proj1 (sat_returns _ _ _) (sc_sat_empty_buckets m Hlen))
        as (r & m1 & Hr & -> & ->).
      rewrite Hr, Hb, empty_count_replicate. f_equal. lia.
    + destruct (proj1 (sat_returns _ _ _) (sc_sat_get_keys_and_values m Hlen))
        as (r & m1 & Hr & -> & ->).
      rewrite Hr, Hb, all_pairs_replicate. reflexivity.
    + intros k.
      assert (Hnone : sc_lookup m k = None)
        by (apply sc_wf_size_zero; [assumption|reflexivity]).
      destruct (proj1 (sat_returns _ _ _) (sc_sat_get k m Hwf))
        as (r & m1 & Hget & -> & ->).
      destruct (proj1 (sat_returns _ _ _) (sc_sat_contains_key k m Hwf))
        as (b' & m1 & Hc & -> & ->).
      rewrite Hnone in Hget, Hc. split; [exact Hget|].
      rewrite Hc, bool_decide_eq_false_2; [reflexivity|intros [? [=]]].
Qed.

End SharedProperties.

(** X17: [_is_prime] decides primality of the non-negative integers; of
    the negative ones it accepts the odd and rejects the even. *)
Theorem is_prime_decides (c : Z) :
  (0 <= c -> (_is_prime c = true <-> Z.prime c)) /\
  (c < 0 -> (_is_prime c = true <-> c mod 2 = 1)).
Proof.
  split; [apply is_prime_spec|].
  intros Hc. rewrite (is_prime_negative c Hc).
  pose proof (Z.mod_pos_bound c 2 ltac:(lia)).
  destruct (Z.eqb_spec (c mod 2) 0); simpl; split; intros; lia || congruence.
Qed.

(** X18: [_next_prime(c)] returns the first odd number from [c] on that
    [_is_prime] accepts, and so returns an accepted odd number
    unchanged. *)
Theorem next_prime_first_accepted (c : Z) :
  c <= _next_prime c /\
  _next_prime c mod 2 = 1 /\
  _is_prime (_next_prime c) = true /\
  (forall q, c <= q < _next_prime c -> q mod 2 = 1 -> _is_prime q = false) /\
  _next_prime (_next_prime c) = _next_prime c.
Proof.
  destruct (next_prime_accepts c) as (Hacc & Hge & Hodd).
  assert (Hfix : forall r, r mod 2 = 1 -> _is_prime r = true -> _next_prime r = r).
  { intros r Hr Hp. unfold _next_prime. rewrite Hr. simpl.
    destruct (next_prime_loop_spec r Hr) as ([|j] & -> & _ & Hmin); [lia|].
    specialize (Hmin O ltac:(lia)). rewrite Z.mul_0_r, Z.add_0_r in Hmin.
    congruence. }
  split; [assumption|]. split; [assumption|]. split; [assumption|].
  split; [|apply Hfix; assumption].
  intros q Hq Hqodd. unfold _next_prime in Hq |- *.
  pose proof (next_prime_candidate c) as Hcand.
  set (c' := if c mod 2 =? 0 then c + 1 else c) in *.
  destruct (next_prime_loop_spec c' Hcand) as (j & Hr & _ & Hmin).
  rewrite Hr in Hq.
  assert (Hc' : c' <= q).
  { subst c'. destruct (Z.eqb_spec (c mod 2) 0) as [E|E]; [|lia].
    destruct (Z.eq_dec q c) as [->|]; [congruence|lia]. }
  assert (Hq2 : q = c' + 2 * ((q - c') / 2)).
  { pose proof (Z.div_mod (q - c') 2 ltac:(lia)) as Hdm.
    assert ((q - c') mod 2 = 0)
      by (rewrite Zminus_mod, Hqodd, Hcand; reflexivity).
    lia. }
  rewrite Hq2.
  replace ((q - c') / 2) with (Z.of_nat (Z.to_nat ((q - c') / 2)))
    by (apply Z2Nat.id, Z.div_pos; lia).
  apply Hmin. lia.
Qed.

(** ** The properties on the scenarios *)

(** [sc_put_then_get] on the chaining map of two entries and a new
    key. *)
Lemma sc_put_then_get_witness :
  exists m', SC.put 2 2 20 sc_two = Return tt m' /\
             SC.get 2 m' = Return (Some 20) m' /\
             SC._size m' = 3.
Proof.
  destruct (sc_put_then_get sc_two 0 2 20 sc_two_reachable)
    as (m' & b & Hput & Hget & _ & _ & Hb & Hsize); [reflexivity|].
  exists m'. split; [exact Hput|]. split; [exact Hget|].
  vm_compute in Hb. injection Hb as <-. exact Hsize.
Defined.

(** [sc_put_negative_capacity_raises] on [HashMap(-1)]. *)
Lemma sc_put_negative_capacity_raises_witness :
  SC.put 1 0 0 sc_negative = Raise DynamicArrayException sc_negative.
Proof.
  apply (sc_put_negative_capacity_raises sc_negative 0 0 0 sc_negative_reachable).
  reflexivity.
Defined.

(** [sc_resize_table_keeps_pairs] on the chaining map of three
    entries, resized to seven buckets. *)
Lemma sc_resize_table_keeps_pairs_witness :
  exists m' before after,
    SC.resize_table 3 7 sc_three = Return tt m' /\
    SC.get_keys_and_values sc_three = Return before sc_three /\
    SC.get_keys_and_values m' = Return after m' /\
    before ≡ₚ after /\ SC._size m' = 3.
Proof.
  destruct (sc_resize_table_keeps_pairs sc_three 0 7 sc_three_reachable)
    as (m' & before & after & Hret & Hb & Ha & Hperm & Hsize & _); [lia|].
  exists m', before, after. auto.
Defined.

(** [sc_remove_then_contains_key] on the chaining map of three
    entries. *)
Lemma sc_remove_then_contains_key_witness :
  exists m', SC.remove 1 sc_three = Return tt m' /\
             SC.contains_key 1 m' = Return false m' /\
             SC._size m' = 2.
Proof.
  destruct (sc_remove_then_contains_key sc_three 1 sc_three_reachable)
    as (m' & b & Hrem & Hc & _ & _ & Hb & Hsize & _).
  exists m'. split; [exact Hrem|]. split; [exact Hc|].
  vm_compute in Hb. injection Hb as <-. exact Hsize.
Defined.

(** [sc_clear_empties] on the chaining map of three entries. *)
Lemma sc_clear_empties_witness :
  exists m', SC.clear sc_three = Return tt m' /\
             SC._size m' = 0 /\
             SC.empty_buckets m' = Return 3 m' /\
             SC.get 2 m' = Return None m'.
Proof.
  destruct (sc_clear_empties sc_three sc_three_reachable)
    as (m' & Hclear & Hsize & _ & _ & Hempty & Hget).
  exists m'. split; [exact Hclear|]. split; [exact Hsize|].
  split; [exact Hempty|]. apply Hget.
Defined.

(** [sc_observers_agree] on the chaining map of three entries: a key
    of the list and a key that is not in it. *)
Lemma sc_observers_agree_witness :
  SC.get 2 sc_three = Return (Some 2) sc_three /\
  SC.contains_key 2 sc_three = Return true sc_three /\
  SC.get 7 sc_three = Return None sc_three /\
  SC.contains_key 7 sc_three = Return false sc_three.
Proof.
  destruct (sc_observers_agree sc_three sc_three_reachable)
    as (pairs & Hpairs & _ & _ & Hin & Hout).
  vm_compute in Hpairs. injection Hpairs as <-.
  destruct (Hin 2 2) as [Hget Hc]; [rewrite !elem_of_cons; auto 10|].
  destruct (Hout 7) as [Hget' Hc'].
  { cbn. rewrite !not_elem_of_cons. repeat split; try discriminate.
    apply not_elem_of_nil. }
  auto.
Defined.

(** [sc_empty_buckets_bounds] on the chaining map of two entries. *)
Lemma sc_empty_buckets_bounds_witness :
  exists n, SC.empty_buckets sc_two = Return n sc_two /\ 1 <= n <= 3.
Proof.
  destruct (sc_empty_buckets_bounds sc_two sc_two_reachable)
    as (n & Hn & Hbounds & _); [reflexivity|].
  exists n. split; [exact Hn|exact Hbounds].
Defined.

(** [oa_put_then_get] on the map that stores key [11] twice. *)
Lemma oa_put_then_get_witness :
  exists m', OA.put 2 11 400 oa_duplicated = Return tt m' /\
             OA.get 11 m' = Return (Some 400) m' /\
             OA.contains_key 11 m' = Return true m'.
Proof.
  destruct (oa_put_then_get oa_duplicated 0 11 400 oa_duplicated_reachable)
    as (m' & Hput & Hget & Hc & _); [reflexivity|].
  exists m'. auto.
Defined.

(** [oa_observers_agree] on the map with a tombstone before key [11]. *)
Lemma oa_observers_agree_witness :
  exists pairs m' v,
    OA.contains_key 11 oa_tombstoned = Return true oa_tombstoned /\
    OA.get_keys_and_values oa_tombstoned = Return pairs m' /\
    OA.get 11 oa_tombstoned = Return (Some v) oa_tombstoned /\
    (11, v) ∈ pairs.
Proof.
  destruct (oa_observers_agree oa_tombstoned 11 oa_tombstoned_reachable)
    as (b & pairs & m' & Hc & Hpairs & Hget).
  assert (Hb : b = true) by (vm_compute in Hc; congruence).
  subst b. destruct Hget as (v & Hget & Hin).
  exists pairs, m', v. auto.
Defined.

(** [oa_remove_effect] on the map of two entries: a present and an
    absent key. *)
Lemma oa_remove_effect_witness :
  (exists m', OA.remove 1 oa_two = Return tt m' /\ OA._size m' = 1) /\
  OA.remove 2 oa_two = Return tt oa_two.
Proof.
  split.
  - destruct (oa_remove_effect oa_two 1 oa_two_reachable)
      as (b & m' & Hb & Hrem & Hsize & _).
    exists m'. split; [exact Hrem|].
    vm_compute in Hb. injection Hb as <-. exact Hsize.
  - destruct (oa_remove_effect oa_two 2 oa_two_reachable)
      as (b & m' & Hb & Hrem & _ & _ & _ & Hsame).
    vm_compute in Hb. injection Hb as <-.
    rewrite <- (Hsame eq_refl) at 2. exact Hrem.
Defined.

(** [oa_clear_empties] on the map that stores key [11] twice. *)
Lemma oa_clear_empties_witness :
  exists m', OA.clear oa_duplicated = Return tt m' /\
             OA._size m' = 0 /\
             OA.empty_buckets m' = Return 11 m' /\
             OA.contains_key 11 m' = Return false m'.
Proof.
  destruct (oa_clear_empties oa_duplicated oa_duplicated_reachable)
    as (m' & Hclear & Hsize & _ & _ & Hempty & _ & Hget).
  exists m'. split; [exact Hclear|]. split; [exact Hsize|].
  split; [exact Hempty|]. apply Hget.
Defined.

(** [oa_get_keys_and_values_live] on the map with a tombstone. *)
Lemma oa_get_keys_and_values_live_witness :
  exists m', OA.get_keys_and_values oa_tombstoned = Return [(11, 200)] m' /\
             OA._index m' = Some 11.
Proof.
  destruct (oa_get_keys_and_values_live oa_tombstoned oa_tombstoned_reachable)
    as (m' & Hpairs & _ & _ & _ & _ & Hindex).
  exists m'. split; [exact Hpairs|exact Hindex].
Defined.

(** [oa_iter_first_entry] on the map with one tombstone: the cursor
    stays on the tombstoned first slot. *)
Lemma oa_iter_first_entry_witness :
  exists j, OA.__iter__ oa_one_removed
            = Return tt (OA.with_index j oa_one_removed) /\
            0 <= j <= 3.
Proof.
  destruct (oa_iter_first_entry oa_one_removed oa_one_removed_reachable)
    as (j & Hiter & Hj & _).
  exists j. split; [exact Hiter|exact Hj].
Defined.

(** [oa_next_entry] on the map of two entries: before [__iter__] and
    with the cursor on the first slot. *)
Lemma oa_next_entry_witness :
  OA.__next__ oa_two = Raise AttributeError oa_two /\
  exists j e, OA.__next__ oa_iterating
              = Return (Some e) (OA.with_index (j + 1) oa_iterating) /\
              OA._buckets oa_iterating !! Z.to_nat j = Some (Some e) /\
              OA.is_tombstone e = false.
Proof.
  split.
  - apply (proj1 (oa_next_entry oa_two oa_two_reachable)). reflexivity.
  - destruct (proj2 (oa_next_entry oa_iterating oa_iterating_reachable) 0 eq_refl)
      as [(j & e & Hj & Hslot & He & Hpairs & Hnext)|(Hpairs & Hnext)];
      [cbn; lia| |vm_compute in Hpairs; discriminate].
    exists j, e. auto.
Defined.

(** [capacity_never_zero] on [HashMap(-1)] of both variants. *)
Lemma capacity_never_zero_witness :
  OA._capacity oa_negative <> 0 /\
  SC.table_load sc_negative = Return (inject_Z 0 / inject_Z (-1))%Q sc_negative.
Proof.
  split.
  - apply (proj1 (capacity_never_zero (K := Z) (V := Z)) oa_negative).
    apply oa_negative_reachable.
  - apply (proj2 (capacity_never_zero (K := Z) (V := Z)) sc_negative).
    apply sc_negative_reachable.
Defined.

(** [is_prime_decides] on [7] and on [-3]. *)
Lemma is_prime_decides_witness : Z.prime 7 /\ _is_prime (-3) = true.
Proof.
  split.
  - apply (proj1 (is_prime_decides 7)); [lia|reflexivity].
  - apply (proj2 (is_prime_decides (-3))); [lia|reflexivity].
Defined.
